(** * MetisPartitioner::partition_range (src/partitioning/metis_partitioner.C)

    A shallow embedding of the graph-based mesh partitioner of libMesh and
    the properties of its global index renumbering, its two-pass CSR graph
    construction, its engine dispatch and its result applier.

    Identifiers, hints, global indices, offsets and partition ids
    ([dof_id_type], [Metis::idx_t], [processor_id_type]) are numbers in [N];
    the counters of the function count the elements of a container held in
    memory and do not wrap. What the caller supplies and the code converts to
    [Metis::idx_t] (the number of pieces, the weights) is converted as the
    code does: these values are in [Z]. Loop counters and side numbers are in
    [nat]. An element is named by its address. *)

From Stdlib Require Import QArith_base.
From stdpp Require Import sorting numbers gmap list.

Local Open Scope N_scope.

(** ** Build configuration

    The preprocessor symbols the function body branches on. *)

Record Build := {
  LIBMESH_HAVE_METIS : bool;
  LIBMESH_ENABLE_UNIQUE_ID : bool;
  LIBMESH_ENABLE_AMR : bool;
  (** [NDEBUG]: the [libmesh_assert*] macros expand to nothing (the source
      declares [graph_size] only under [#ifndef NDEBUG] and still names it in
      an assertion). *)
  NDEBUG : bool;
  DEBUG : bool;
  LIBMESH_DIM : N;
  (** width in bits of [processor_id_type] *)
  processor_id_bits : N;
  (** [IDXTYPEWIDTH]: width in bits of the signed integer [Metis::idx_t] *)
  IDXTYPEWIDTH : N;
  (** The standard library the code is built against: the order in which
      [std::unordered_multimap::equal_range] yields the entries of a key,
      which the standard leaves to the implementation. It is given the
      entries of the map in insertion order and the key. *)
  unordered_multimap_order : list (N * N) → N → list (N * N)
}.

(** ** Abnormal termination *)

Inductive halt :=
  | assertion_failed (line : N)   (* a libmesh_assert* of that source line fails *)
  | error_thrown (line : N)       (* libmesh_error, raised by libmesh_map_find *)
  | out_of_bounds (line : N).     (* unchecked std::vector access outside its bounds *)

Inductive res (A : Type) :=
  | Ok (a : A)
  | Halted (h : halt).
Arguments Ok {A} a.
Arguments Halted {A} h.

#[global] Instance res_ret : MRet res := λ A a, Ok a.
#[global] Instance res_bind : MBind res := λ A B f m,
  match m with
  | Ok a => f a
  | Halted h => Halted h
  end.

#[global] Instance halt_eq_dec : EqDecision halt.
Proof. solve_decision. Defined.

(** Modelled from the spec: the [libmesh_assert*] macros (their header is not
    part of the sources at hand): a fatal assertion, which halts at once. The
    line of the assertion names it. Under [NDEBUG] the macro checks nothing. *)
Definition libmesh_assert (b : Build) (line : N) (cond : bool) : res unit :=
  if NDEBUG b then Ok tt
  else if cond then Ok tt else Halted (assertion_failed line).

(** ** Conversions to [Metis::idx_t] *)

(** [static_cast<Metis::idx_t>(v)] on an integer: a value the signed type
    cannot hold wraps modulo 2^[IDXTYPEWIDTH]. *)
Definition static_cast_idx_t (b : Build) (v : Z) : Z :=
  let m := (2 ^ Z.of_N (IDXTYPEWIDTH b))%Z in
  let r := (v `mod` m)%Z in
  if bool_decide (2 * r < m)%Z then r else (r - m)%Z.

(** [static_cast<Metis::idx_t>(x)] on a floating point value, taken as a
    rational: the fractional part is discarded, towards zero. The language
    defines the conversion only where the truncated value fits the type. *)
Definition static_cast_idx_t_of_real (x : Q) : Z := (Qnum x ÷ Z.pos (Qden x))%Z.

(** The value is one [Metis::idx_t] holds. *)
Definition fits_idx_t (b : Build) (v : Z) : Prop :=
  (- 2 ^ (Z.of_N (IDXTYPEWIDTH b) - 1) ≤ v < 2 ^ (Z.of_N (IDXTYPEWIDTH b) - 1))%Z.

(** [v[i]] on a [std::vector]. *)
Definition vec_at {A} (line : N) (v : list A) (i : nat) : res A :=
  match v !! i with
  | Some x => Ok x
  | None => Halted (out_of_bounds line)
  end.

(** ** vectormap *)

(** Modelled from the spec: [vectormap<Key,Tp>] (libmesh/vectormap.h is not
    part of the sources at hand). The GlobalIndexMap maps an element
    identifier to an index; it is a vector of (key, value) pairs filled by
    [emplace] and looked up by key. *)
Definition vectormap := list (N * N).

(** Modelled from the spec: [vectormap::emplace], one more pair. *)
Definition vm_emplace (k v : N) (m : vectormap) : vectormap := m ++ [(k, v)].

(** Modelled from the spec: [vectormap::find], the value stored for a key. *)
Fixpoint vm_find (m : vectormap) (k : N) : option N :=
  match m with
  | [] => None
  | (k', v) :: m' => if decide (k' = k) then Some v else vm_find m' k
  end.

(** Modelled from the spec: [vectormap::count], whether the key is there. *)
Definition vm_count (m : vectormap) (k : N) : bool := bool_decide (is_Some (vm_find m k)).

(** Modelled from the spec: [vectormap::operator[]]; every use in
    [partition_range] is on a key that was emplaced. *)
Definition vm_at (m : vectormap) (k : N) : N := default 0 (vm_find m k).

(** ** Global index assigner (lines 117-188) *)

Module GlobalIndex.

(** Lines 132-134 and 170-172:
    [for (elem : range) global_index_map.emplace(elem->id(), global_index[cnt++])]. *)
Fixpoint emplace_by_position (line : N) (ids global_index : list N) (cnt : nat)
    (global_index_map : vectormap) : res vectormap :=
  match ids with
  | [] => Ok global_index_map
  | id :: rest =>
      gi ← vec_at line global_index cnt;
      emplace_by_position line rest global_index (S cnt) (vm_emplace id gi global_index_map)
  end.

(** Lines 141-153: the O(N) duplicate check, collecting the identifiers that
    share a hint. [global_index_inverses[h]] creates an empty vector for a
    hint not seen before. *)
Fixpoint collect_inverses (ids global_index : list N) (cnt : nat)
    (global_index_inverses : gmap N (list N)) (found_duplicate_indices : bool)
    : res (gmap N (list N) * bool) :=
  match ids with
  | [] => Ok (global_index_inverses, found_duplicate_indices)
  | id :: rest =>
      gi ← vec_at 148 global_index cnt;
      let vec := default [] (global_index_inverses !! gi) in
      let found := if bool_decide (vec = []) then found_duplicate_indices else true in
      collect_inverses rest global_index (S cnt)
        (<[gi := vec ++ [id]]> global_index_inverses) found
  end.

(** The order of the keys of [std::map<dof_id_type, ...>]. *)
Definition key_le (a b : N * list N) : Prop := a.1 ≤ b.1.

#[global] Instance key_le_dec : RelDecision key_le.
Proof. intros a b. unfold key_le. apply _. Defined.

(** Lines 160-162: the [std::map] built from the unordered map iterates in
    increasing key order. *)
Definition sorted_inverses (global_index_inverses : gmap N (list N)) : list (N * list N) :=
  merge_sort key_le (map_to_list global_index_inverses).

(** Lines 163-166: the fresh dense numbering. *)
Definition renumber_bucket (st : vectormap * N) (elem_ids : list N) : vectormap * N :=
  foldl (λ '(global_index_map, new_global_index) elem_id,
           (vm_emplace elem_id new_global_index global_index_map, N.succ new_global_index))
        st elem_ids.

(** Lines 163-166 over the whole sorted map, from an empty
    [global_index_map] and [new_global_index = 0]. *)
Definition renumber (sorted : list (N * list N)) : vectormap :=
  (foldl (λ st entry, renumber_bucket st entry.2) ([], 0) sorted).1.

(** Lines 179-186, the [#ifdef DEBUG] block. *)
Definition debug_checks (b : Build) (n_range_elem : nat) (global_index_map : vectormap)
    : res unit :=
  if DEBUG b then
    let distinct_global_indices : gset N := list_to_set global_index_map.*2 in
    let distinct_ids : gset N := list_to_set global_index_map.*1 in
    _ ← libmesh_assert b 185 (bool_decide (size distinct_global_indices = n_range_elem));
    libmesh_assert b 186 (bool_decide (size distinct_ids = n_range_elem))
  else Ok tt.

(** Lines 117-188. [ids] are the identifiers of the elements of the range in
    iteration order, [global_index] is what [find_global_indices] returned. *)
Definition build_global_index_map (b : Build) (ids global_index : list N) : res vectormap :=
  let n_range_elem := length ids in
  _ ← libmesh_assert b 127 (bool_decide (length global_index = n_range_elem));
  global_index_map ←
    (if LIBMESH_ENABLE_UNIQUE_ID b then
       emplace_by_position 134 ids global_index 0 []
     else
       match collect_inverses ids global_index 0 ∅ false with
       | Halted h => Halted h
       | Ok (global_index_inverses, found_duplicate_indices) =>
           if found_duplicate_indices then
             Ok (renumber (sorted_inverses global_index_inverses))
           else
             emplace_by_position 172 ids global_index 0 []
       end);
  _ ← libmesh_assert b 176 (bool_decide (length global_index_map = n_range_elem));
  _ ← debug_checks b n_range_elem global_index_map;
  Ok global_index_map.

End GlobalIndex.

(** ** Mesh element graph view *)

(** Modelled from the spec: the capability interface of [Elem] and
    [MeshBase] the partitioner consumes (elem.h and mesh_base.h are not part
    of the sources at hand): neighbor-by-side, active flag, interior parent,
    node count, identifier, dimensionality, and the mesh's lookup of an
    element by identifier. An element is named by its address. *)
Record MeshView := {
  elem_id : N → N;
  active : N → bool;
  dim : N → N;
  n_neighbors : N → nat;
  (** [neighbor_ptr e s]; [None] is [nullptr] *)
  neighbor_ptr : N → nat → option N;
  (** [which_neighbor_am_i nb e] is [nb->which_neighbor_am_i(e)] *)
  which_neighbor_am_i : N → N → nat;
  active_family_tree : N → list N;
  interior_parent : N → option N;
  (** the elements of the [std::set] that [find_interior_neighbors] fills *)
  find_interior_neighbors : N → list N;
  (** [type() == NODEELEM && mapping_type() == RATIONAL_BERNSTEIN_MAP] *)
  is_spline_node : N → bool;
  n_nodes : N → N;
  (** [mesh.query_elem_ptr(id)] *)
  query_elem_ptr : N → option N
}.

Definition neighbor_ptr_range (view : MeshView) (elem : N) : list (option N) :=
  neighbor_ptr view elem <$> seq 0 (n_neighbors view elem).

(** ** CSR graph *)

Module CSR.

(** Modelled from the spec: [METIS_CSR_Graph] (libmesh/metis_csr_graph.h is
    not part of the sources at hand): row offsets [offsets[0..n]] and the
    adjacency values; [prepare_for_use] turns the row widths into offsets,
    sizes the value array, and force-allocates a single dummy value slot when
    the total edge count is zero. *)
Record METIS_CSR_Graph := {
  offsets : list N;
  vals : list N
}.

(** [v[i] = x] on a [std::vector]. *)
Definition vec_set {A} (line : N) (v : list A) (i : nat) (x : A) : res (list A) :=
  if bool_decide (i < length v)%nat then Ok (<[i := x]> v)
  else Halted (out_of_bounds line).

(** Modelled from the spec: [METIS_CSR_Graph::prep_n_nonzeros] stores the
    row width of a vertex in the slot that becomes its end offset. *)
Definition prep_n_nonzeros (b : Build) (g : METIS_CSR_Graph) (row : N) (n_nonzeros : N)
    : res METIS_CSR_Graph :=
  _ ← libmesh_assert b 372 (bool_decide (N.to_nat row + 1 < length (offsets g))%nat);
  offs ← vec_set 372 (offsets g) (N.to_nat row + 1) n_nonzeros;
  Ok {| offsets := offs; vals := vals g |}.

(** [std::partial_sum] in place. *)
Fixpoint partial_sum_from (acc : N) (l : list N) : list N :=
  match l with
  | [] => []
  | x :: l' => (acc + x) :: partial_sum_from (acc + x) l'
  end.

Definition partial_sum (l : list N) : list N := partial_sum_from 0 l.

(** Modelled from the spec: [METIS_CSR_Graph::prepare_for_use] fixes the
    offsets, allocates one value slot per counted edge and, if the total edge
    count is zero, a single dummy value slot. *)
Definition prepare_for_use (g : METIS_CSR_Graph) : METIS_CSR_Graph :=
  let offs := partial_sum (offsets g) in
  let vals := replicate (N.to_nat (List.last offs 0)) 0 in
  {| offsets := offs;
     vals := if bool_decide (vals = []) then [0] else vals |}.

(** Modelled from the spec: [METIS_CSR_Graph::operator()], as used in
    [csr_graph(row, nonzero) = value]: the slot [nonzero] of the row. *)
Definition set_entry (b : Build) (line : N) (g : METIS_CSR_Graph) (row : N) (nonzero : nat)
    (value : N) : res METIS_CSR_Graph :=
  o ← vec_at line (offsets g) (N.to_nat row);
  let slot := (N.to_nat o + nonzero)%nat in
  _ ← libmesh_assert b line (bool_decide (slot < length (vals g))%nat);
  vs ← vec_set line (vals g) slot value;
  Ok {| offsets := offsets g; vals := vs |}.

End CSR.

(** ** CSR graph builder (lines 190-211 and 235-486) *)

Module Graph.
Import CSR.

Section builder.
Context (b : Build) (view : MeshView) (global_index_map : vectormap).

Definition in_range (e : N) : bool := vm_count global_index_map (elem_id view e).
Definition index_of (e : N) : N := vm_at global_index_map (elem_id view e).

(** Lines 197-211: the interior -> boundary reverse lookup, an
    [unordered_multimap] kept as its entries in insertion order. *)
Definition has_interior_parent (elem : N) : bool :=
  bool_decide (dim view elem < LIBMESH_DIM b) && bool_decide (is_Some (interior_parent view elem)).

Definition build_interior_to_boundary_map (range : list N) : list (N * N) :=
  range ≫= (λ elem,
    if has_interior_parent elem
    then (λ neighbor, (neighbor, elem)) <$> find_interior_neighbors view elem
    else []).

(** [interior_to_boundary_map.equal_range(key)]: the entries inserted for
    the key, in the order the build's standard library yields them. Whatever
    that order is, the entries yielded are the entries inserted; an order
    that is not a rearrangement of them is no [unordered_multimap], and the
    entries are then taken as inserted. *)
Definition equal_range (m : list (N * N)) (key : N) : list (N * N) :=
  let inserted := filter (λ pr, pr.1 = key) m in
  let yielded := unordered_multimap_order b m key in
  if bool_decide (yielded ≡ₚ inserted) then yielded else inserted.

Context (interior_to_boundary_map : list (N * N)).

(** *** Pass 1 (lines 253-376) *)

(** Lines 326-340. *)
Fixpoint count_offspring (elem : N) (ns : nat) (neighbors_offspring : list N)
    (num_neighbors : nat) : res nat :=
  match neighbors_offspring with
  | [] => Ok num_neighbors
  | child :: rest =>
      if negb (in_range child) then count_offspring elem ns rest num_neighbors
      else if bool_decide (neighbor_ptr view child ns = Some elem) then
        _ ← libmesh_assert b 337 (active view child);
        count_offspring elem ns rest (S num_neighbors)
      else count_offspring elem ns rest num_neighbors
  end.

(** Lines 283-346. *)
Fixpoint count_face_neighbors (elem : N) (neighbors : list (option N))
    (num_neighbors : nat) : res nat :=
  match neighbors with
  | [] => Ok num_neighbors
  | None :: rest => count_face_neighbors elem rest num_neighbors
  | Some neighbor :: rest =>
      if active view neighbor && negb (in_range neighbor) then
        count_face_neighbors elem rest num_neighbors
      else if active view neighbor then
        count_face_neighbors elem rest (S num_neighbors)
      else if LIBMESH_ENABLE_AMR b then
        let ns := which_neighbor_am_i view neighbor elem in
        _ ← libmesh_assert b 309 (bool_decide (ns < n_neighbors view neighbor)%nat);
        num ← count_offspring elem ns (active_family_tree view neighbor) num_neighbors;
        count_face_neighbors elem rest num
      else count_face_neighbors elem rest num_neighbors
  end.

(** Lines 279-363: the row width counted for one element. *)
Definition count_neighbors (elem : N) : res nat :=
  num_neighbors ← count_face_neighbors elem (neighbor_ptr_range view elem) 0%nat;
  let num_neighbors :=
    if has_interior_parent elem
    then (num_neighbors + length (find_interior_neighbors view elem))%nat
    else num_neighbors in
  Ok (num_neighbors + length (equal_range interior_to_boundary_map elem))%nat.

(** Lines 263-277. [weights] is the optional [_weights], a vector of
    floating point values indexed by element identifier; line 277 converts
    the weight with [static_cast<Metis::idx_t>], and line 274 stores the
    unsigned node count in a [Metis::idx_t]. *)
Definition vertex_weight (weights : option (N → Q)) (elem : N) : Z :=
  match weights with
  | None =>
      if is_spline_node view elem then 50%Z
      else static_cast_idx_t b (Z.of_N (n_nodes view elem))
  | Some w => static_cast_idx_t_of_real (w (elem_id view elem))
  end.

Record pass1_state := {
  csr_graph : METIS_CSR_Graph;
  vwgt : list Z;
  graph_size : nat
}.

(** Lines 255-376, one iteration. *)
Definition first_pass_step (weights : option (N → Q)) (st : pass1_state) (elem : N)
    : res pass1_state :=
  let elem_global_index := index_of elem in
  _ ← libmesh_assert b 260 (bool_decide (N.to_nat elem_global_index < length (vwgt st))%nat);
  vwgt' ← vec_set 272 (vwgt st) (N.to_nat elem_global_index) (vertex_weight weights elem);
  num_neighbors ← count_neighbors elem;
  _ ← libmesh_assert b 370
        (bool_decide (offsets (csr_graph st) !! (N.to_nat elem_global_index + 1)%nat = Some 0));
  g ← prep_n_nonzeros b (csr_graph st) elem_global_index (N.of_nat num_neighbors);
  Ok {| csr_graph := g; vwgt := vwgt'; graph_size := (graph_size st + num_neighbors)%nat |}.

Fixpoint first_pass (weights : option (N → Q)) (range : list N) (st : pass1_state)
    : res pass1_state :=
  match range with
  | [] => Ok st
  | elem :: rest => st' ← first_pass_step weights st elem; first_pass weights rest st'
  end.

(** *** Pass 2 (lines 380-480) *)

(** Lines 425-440. *)
Fixpoint fill_offspring (elem : N) (ns : nat) (neighbors_offspring : list N)
    (st : METIS_CSR_Graph * nat) : res (METIS_CSR_Graph * nat) :=
  match neighbors_offspring with
  | [] => Ok st
  | child :: rest =>
      if negb (in_range child) then fill_offspring elem ns rest st
      else if bool_decide (neighbor_ptr view child ns = Some elem) then
        _ ← libmesh_assert b 436 (active view child);
        g ← set_entry b 438 st.1 (index_of elem) st.2 (index_of child);
        fill_offspring elem ns rest (g, S st.2)
      else fill_offspring elem ns rest st
  end.

(** Lines 390-446. *)
Fixpoint fill_face_neighbors (elem : N) (neighbors : list (option N))
    (st : METIS_CSR_Graph * nat) : res (METIS_CSR_Graph * nat) :=
  match neighbors with
  | [] => Ok st
  | None :: rest => fill_face_neighbors elem rest st
  | Some neighbor :: rest =>
      if active view neighbor && negb (in_range neighbor) then
        fill_face_neighbors elem rest st
      else if active view neighbor then
        g ← set_entry b 403 st.1 (index_of elem) st.2 (index_of neighbor);
        fill_face_neighbors elem rest (g, S st.2)
      else if LIBMESH_ENABLE_AMR b then
        let ns := which_neighbor_am_i view neighbor elem in
        _ ← libmesh_assert b 416 (bool_decide (ns < n_neighbors view neighbor)%nat);
        st' ← fill_offspring elem ns (active_family_tree view neighbor) st;
        fill_face_neighbors elem rest st'
      else fill_face_neighbors elem rest st
  end.

(** [libmesh_map_find(global_index_map, key)] *)
Definition libmesh_map_find (line : N) (key : N) : res N :=
  match vm_find global_index_map key with
  | Some v => Ok v
  | None => Halted (error_thrown line)
  end.

(** Lines 455-470. *)
Fixpoint fill_interior_neighbors (elem : N) (neighbor_set : list N)
    (st : METIS_CSR_Graph * nat) : res (METIS_CSR_Graph * nat) :=
  match neighbor_set with
  | [] => Ok st
  | neighbor :: rest =>
      let queried_elem := query_elem_ptr view (elem_id view neighbor) in
      if bool_decide (queried_elem = Some neighbor) then
        gi ← libmesh_map_find 469 (elem_id view neighbor);
        g ← set_entry b 468 st.1 (index_of elem) st.2 gi;
        fill_interior_neighbors elem rest (g, S st.2)
      else fill_interior_neighbors elem rest st
  end.

(** Lines 474-479. *)
Fixpoint fill_boundary_neighbors (elem : N) (entries : list (N * N))
    (st : METIS_CSR_Graph * nat) : res (METIS_CSR_Graph * nat) :=
  match entries with
  | [] => Ok st
  | pr :: rest =>
      g ← set_entry b 477 st.1 (index_of elem) st.2 (index_of pr.2);
      fill_boundary_neighbors elem rest (g, S st.2)
  end.

(** Lines 381-480, one iteration: the graph after the element's row has
    been written, and [connection], the number of entries written. *)
Definition fill_row (g : METIS_CSR_Graph) (elem : N) : res (METIS_CSR_Graph * nat) :=
  st ← fill_face_neighbors elem (neighbor_ptr_range view elem) (g, 0%nat);
  st ← (if has_interior_parent elem
        then fill_interior_neighbors elem (find_interior_neighbors view elem) st
        else Ok st);
  fill_boundary_neighbors elem (equal_range interior_to_boundary_map elem) st.

Fixpoint second_pass (range : list N) (g : METIS_CSR_Graph) : res METIS_CSR_Graph :=
  match range with
  | [] => Ok g
  | elem :: rest => st ← fill_row g elem; second_pass rest st.1
  end.

(** Lines 235-486 on processor 0. *)
Definition build_graph (weights : option (N → Q)) (range : list N)
    : res (METIS_CSR_Graph * list Z) :=
  let n_range_elem := length range in
  let st0 := {| csr_graph := {| offsets := replicate (n_range_elem + 1) 0; vals := [] |};
                vwgt := replicate n_range_elem 0%Z;
                graph_size := 0 |} in
  st ← first_pass weights range st0;
  let g := prepare_for_use (csr_graph st) in
  g ← second_pass range g;
  _ ← libmesh_assert b 484
        (bool_decide (length (vals g) = Nat.max (graph_size st) 1));
  Ok (g, vwgt st).

End builder.
End Graph.

(** ** The process and the mesh *)

Inductive message :=
  | WARNING_forced_to_gather       (* line 89 *)
  | ERROR_built_without_Metis.     (* lines 97-99 *)

Inductive call :=
  | call_allgather
  | call_find_global_indices (range : list N)
  | call_METIS_PartGraphRecursive (n : N) (xadj adjncy : list N) (vwgt : list Z) (nparts : Z)
  | call_METIS_PartGraphKway (n : N) (xadj adjncy : list N) (vwgt : list Z) (nparts : Z)
  | call_broadcast (part : list N)
  | call_SFCPartitioner_partition_range (range : list N) (n_pieces : N).

#[global] Instance message_eq_dec : EqDecision message.
Proof. solve_decision. Defined.

#[global] Instance call_eq_dec : EqDecision call.
Proof. solve_decision. Defined.

(** What outlives a call: the output stream, the static flag behind
    [libmesh_do_once], and the log of calls to the collaborators. *)
Record Process := {
  out : list message;
  once_done : bool;
  calls : list call
}.

(** A process that has printed nothing and called nothing yet. *)
Definition fresh_process : Process := {| out := []; once_done := false; calls := [] |}.

Record Mesh := {
  is_serial : bool;
  (** [mesh.processor_id()], the rank of this process *)
  processor_id : N;
  (** [elem->processor_id()] of each element, by address *)
  elem_processor_id : gmap N N
}.

(** The collaborators of one call. *)
Record Env := {
  view : MeshView;
  (** [_weights], the floating point weights by element identifier *)
  weights : option (N → Q);
  (** the vector [find_global_indices] fills for a range *)
  find_global_indices : list N → list N;
  (** the partition id each engine entry point writes for a vertex, given
      [n], [xadj], [adjncy], [vwgt] and [nparts] *)
  METIS_PartGraphRecursive : N → list N → list N → list Z → Z → nat → N;
  METIS_PartGraphKway : N → list N → list N → list Z → Z → nat → N;
  (** the vector a process other than the root holds after the broadcast *)
  broadcast_received : list N;
  (** the owners [SFCPartitioner::partition_range] assigns *)
  SFCPartitioner_partition_range : list N → N → gmap N N → gmap N N
}.

(** State and failure: a step maps the process and the mesh to their new
    values and either a result or the reason the call stopped. *)
Definition prog (A : Type) : Type := Process * Mesh → (Process * Mesh) * res A.

#[global] Instance prog_ret : MRet prog := λ A a st, (st, Ok a).
#[global] Instance prog_bind : MBind prog := λ A B f m st,
  match m st with
  | (st', Ok a) => f a st'
  | (st', Halted h) => (st', Halted h)
  end.

Definition lift {A} (r : res A) : prog A := λ st, (st, r).

Definition add_out (p : Process) (msg : message) : Process :=
  {| out := out p ++ [msg]; once_done := once_done p; calls := calls p |}.

Definition add_call (p : Process) (c : call) : Process :=
  {| out := out p; once_done := once_done p; calls := calls p ++ [c] |}.

Definition with_owners (m : Mesh) (owners : gmap N N) : Mesh :=
  {| is_serial := is_serial m; processor_id := processor_id m; elem_processor_id := owners |}.

(** [libMesh::out << msg] *)
Definition print (msg : message) : prog unit := λ st, ((add_out st.1 msg, st.2), Ok tt).

(** A call to a collaborator, logged. *)
Definition record (c : call) : prog unit := λ st, ((add_call st.1 c, st.2), Ok tt).

Definition get_mesh : prog Mesh := λ st, (st, Ok st.2).

(** [elem->processor_id() = procid] *)
Definition set_elem_processor_id (elem : N) (procid : N) : prog unit := λ st,
  ((st.1, with_owners st.2 (<[elem := procid]> (elem_processor_id st.2))), Ok tt).

(** Modelled from the spec: [libmesh_do_once] (the macro is not part of the
    sources at hand): the notice is printed once per process run, not per
    call. *)
Definition libmesh_do_once (body : prog unit) : prog unit := λ st,
  if once_done st.1 then (st, Ok tt)
  else body ({| out := out st.1; once_done := true; calls := calls st.1 |}, st.2).

(** Modelled from the spec: [MeshBase::allgather] (not part of the sources at
    hand): a full gather, after which the mesh is replicated on every
    process. *)
Definition allgather : prog unit := λ st,
  ((st.1, {| is_serial := true; processor_id := processor_id st.2;
             elem_processor_id := elem_processor_id st.2 |}), Ok tt).

(** Modelled from the spec: [Partitioner::single_partition_range]
    (partitioner.C is not part of the sources at hand): assign all elements
    in range to partition 0. *)
Fixpoint single_partition_range (range : list N) : prog unit :=
  match range with
  | [] => mret tt
  | elem :: rest => _ ← set_elem_processor_id elem 0; single_partition_range rest
  end.

(** Modelled from the spec: [SFCPartitioner::partition_range] (not part of
    the sources at hand), the fallback spatial partitioner, by the owners it
    assigns. *)
Definition sfc_partition_range (env : Env) (range : list N) (n_pieces : N) : prog unit :=
  λ st,
  ((st.1, with_owners st.2
            (SFCPartitioner_partition_range env range n_pieces (elem_processor_id st.2))),
   Ok tt).

(** ** Partition result applier (lines 529-544) *)

Fixpoint assign_processor_ids (b : Build) (view : MeshView) (global_index_map : vectormap)
    (part : list N) (range : list N) : prog unit :=
  match range with
  | [] => mret tt
  | elem :: rest =>
      _ ← lift (libmesh_assert b 534 (Graph.in_range view global_index_map elem));
      let elem_global_index := Graph.index_of view global_index_map elem in
      _ ← lift (libmesh_assert b 539
                  (bool_decide (N.to_nat elem_global_index < length part)%nat));
      v ← lift (vec_at 541 part (N.to_nat elem_global_index));
      let elem_procid := v `mod` 2 ^ processor_id_bits b in
      _ ← set_elem_processor_id elem elem_procid;
      assign_processor_ids b view global_index_map part rest
  end.

(** ** Partition invocation layer (lines 213-527) *)

(** Lines 224-228 and 488-522 on processor 0: the engine fills [part].
    [nparts] is [static_cast<Metis::idx_t>(n_pieces)]; the entry point is
    chosen on [n_pieces] itself. *)
Definition invoke_engine (b : Build) (env : Env) (n_range_elem : nat)
    (g : CSR.METIS_CSR_Graph) (vwgt : list Z) (n_pieces : N) : prog (list N) :=
  let n := N.of_nat n_range_elem in
  let nparts := static_cast_idx_t b (Z.of_N n_pieces) in
  if bool_decide (n_pieces ≤ 8) then
    _ ← record (call_METIS_PartGraphRecursive n (CSR.offsets g) (CSR.vals g) vwgt nparts);
    mret (METIS_PartGraphRecursive env n (CSR.offsets g) (CSR.vals g) vwgt nparts
            <$> seq 0 n_range_elem)
  else
    _ ← record (call_METIS_PartGraphKway n (CSR.offsets g) (CSR.vals g) vwgt nparts);
    mret (METIS_PartGraphKway env n (CSR.offsets g) (CSR.vals g) vwgt nparts
            <$> seq 0 n_range_elem).

(** Line 527: every process calls the collective; the root keeps its vector,
    the others receive the root's. *)
Definition broadcast (env : Env) (part : list N) : prog (list N) :=
  m ← get_mesh;
  let part := if bool_decide (processor_id m = 0) then part else broadcast_received env in
  _ ← record (call_broadcast part);
  mret part.

(** Lines 107-544, the branch taken when the Metis library is present. *)
Definition metis_partition_range (b : Build) (env : Env) (range : list N) (n_pieces : N)
    : prog unit :=
  let n_range_elem := length range in
  let ids := elem_id (view env) <$> range in
  _ ← record (call_find_global_indices range);
  let global_index := find_global_indices env range in
  global_index_map ← lift (GlobalIndex.build_global_index_map b ids global_index);
  let interior_to_boundary_map :=
    Graph.build_interior_to_boundary_map b (view env) range in
  let part := replicate n_range_elem 0 in
  m ← get_mesh;
  part ← (if bool_decide (processor_id m = 0) then
            gw ← lift (Graph.build_graph b (view env) global_index_map
                         interior_to_boundary_map (weights env) range);
            invoke_engine b env n_range_elem gw.1 gw.2 n_pieces
          else mret part);
  part ← broadcast env part;
  assign_processor_ids b (view env) global_index_map part range.

(** ** Partitioner facade (lines 69-546) *)

Definition partition_range (b : Build) (env : Env) (range : list N) (n_pieces : N)
    : prog unit :=
  if bool_decide (range = []) then mret tt
  else if bool_decide (n_pieces = 1) then single_partition_range range
  else
    _ ← lift (libmesh_assert b 84 (bool_decide (0 < n_pieces)));
    m ← get_mesh;
    _ ← (if is_serial m then mret tt
         else _ ← print WARNING_forced_to_gather; _ ← record call_allgather; allgather);
    if LIBMESH_HAVE_METIS b then metis_partition_range b env range n_pieces
    else
      _ ← libmesh_do_once (print ERROR_built_without_Metis);
      _ ← record (call_SFCPartitioner_partition_range range n_pieces);
      sfc_partition_range env range n_pieces.

(** Lines 550-557; [active_elements] is the mesh's range of active
    elements. *)
Definition _do_partition (b : Build) (env : Env) (active_elements : list N) (n_pieces : N)
    : prog unit :=
  partition_range b env active_elements n_pieces.

(** * Vocabulary of the properties *)

(** ** Global index assigner *)

Module GlobalIndexSpec.
Import GlobalIndex.

(** One iteration of the duplicate check on an (identifier, hint) pair. *)
Definition push_inverse (st : gmap N (list N) * bool) (p : N * N) : gmap N (list N) * bool :=
  let vec := default [] (st.1 !! p.2) in
  (<[p.2 := vec ++ [p.1]]> st.1, if bool_decide (vec = []) then st.2 else true).

(** The identifiers that carry hint [h], in iteration order. *)
Definition bucket_of (l : list (N * N)) (h : N) : list N := (filter (λ p, p.2 = h) l).*1.

(** Some hint is shared by two elements. *)
Definition has_duplicate (inv : gmap N (list N)) : Prop :=
  ∃ h v, inv !! h = Some v ∧ (2 ≤ length v)%nat.

(** The invariant of the duplicate check: no bucket is empty, and the flag
    is set exactly when some bucket holds two identifiers. *)
Definition inverses_inv (st : gmap N (list N) * bool) : Prop :=
  (∀ h v, st.1 !! h = Some v → v ≠ []) ∧ (st.2 = true ↔ has_duplicate st.1).

(** The dense numbering: the [i]-th identifier visited gets index [c + i]. *)
Definition numbered (c : N) (ids : list N) : vectormap :=
  imap (λ i id, (id, c + N.of_nat i)) ids.

(** What [find_global_indices] owes the partitioner: one hint per element,
    each below the number of elements (asserted at lines 127, 260 and 539),
    and, when elements carry a [unique_id], no hint twice (lines 129-130). *)
Definition hints_ok (b : Build) (ids global_index : list N) : Prop :=
  length global_index = length ids ∧
  Forall (λ g, g < N.of_nat (length ids)) global_index ∧
  (LIBMESH_ENABLE_UNIQUE_ID b = true → NoDup global_index).

(** The map is a bijection from the identifiers of the range onto
    [0 .. n-1]. *)
Definition bijection_onto_range (ids : list N) (m : vectormap) : Prop :=
  m.*1 ≡ₚ ids ∧ m.*2 ≡ₚ N.of_nat <$> seq 0 (length ids).

(** The claim that the assigner builds such a bijection, for the hints
    [find_global_indices] returned for a range. *)
Definition builds_bijection (b : Build) (ids global_index : list N) : Prop :=
  ∃ m, build_global_index_map b ids global_index = Ok m ∧ bijection_onto_range ids m.

(** What the hints must satisfy for that, since the code copies them: where
    elements carry a unique id no hint occurs twice, and where no hint occurs
    twice every hint is below the number of elements. *)
Definition hints_admissible (b : Build) (ids global_index : list N) : Prop :=
  (LIBMESH_ENABLE_UNIQUE_ID b = true → NoDup global_index) ∧
  (NoDup global_index → Forall (λ g, g < N.of_nat (length ids)) global_index).

(** The assigner run on a range given as (identifier, hint) pairs in
    iteration order. *)
Definition assign (b : Build) (l : list (N * N)) : res vectormap :=
  build_global_index_map b l.*1 l.*2.

(** Two runs give the identical identifier-to-index mapping (or stop for the
    same reason). *)
Definition same_mapping (r1 r2 : res vectormap) : Prop :=
  match r1, r2 with
  | Ok m1, Ok m2 => m1 ≡ₚ m2 ∧ ∀ id, vm_find m1 id = vm_find m2 id
  | Halted h1, Halted h2 => h1 = h2
  | _, _ => False
  end.

(** The claim of independence of the iteration order, for a build. *)
Definition iteration_order_independent (b : Build) : Prop :=
  ∀ l1 l2 : list (N * N), NoDup l1.*1 → l1 ≡ₚ l2 → same_mapping (assign b l1) (assign b l2).

(** The two orders list the elements that share a hint in the same relative
    order. *)
Definition same_order_of_colliding (l1 l2 : list (N * N)) : Prop :=
  ∀ h, filter (λ p, p.2 = h) l1 = filter (λ p, p.2 = h) l2.

(** Lines 176-186 on a finished map. *)
Definition checks (b : Build) (n : nat) (m : vectormap) : res vectormap :=
  _ ← libmesh_assert b 176 (bool_decide (length m = n));
  _ ← debug_checks b n m; Ok m.

(** The same checks, by what they look at: the size of the map and its sets
    of indices and of identifiers. *)
Definition gate (b : Build) (n len : nat) (indices ids : gset N) : res unit :=
  _ ← libmesh_assert b 176 (bool_decide (len = n));
  if DEBUG b then
    _ ← libmesh_assert b 185 (bool_decide (size indices = n));
    libmesh_assert b 186 (bool_decide (size ids = n))
  else Ok tt.

End GlobalIndexSpec.

(** ** CSR graph *)

Module CSRSpec.

(** The sum of a vector of row widths. *)
Definition sumN (l : list N) : N := foldr N.add 0 l.

End CSRSpec.

(** ** CSR graph builder *)

Module GraphSpec.
Import CSR Graph CSRSpec.

Section vocabulary.
Context (b : Build) (view : MeshView) (global_index_map : vectormap).
Context (interior_to_boundary_map : list (N * N)).

Local Abbreviation in_range := (Graph.in_range view global_index_map).
Local Abbreviation index_of := (Graph.index_of view global_index_map).

(** The offspring of a refined neighbor that both passes take as connected
    to [elem] through side [ns]. *)
Definition connected_offspring (elem : N) (ns : nat) (neighbors_offspring : list N) : list N :=
  filter (λ child, in_range child = true ∧ neighbor_ptr view child ns = Some elem)
         neighbors_offspring.

(** The connections both passes find through one side. *)
Definition side_width (elem : N) (neighbor : option N) : nat :=
  match neighbor with
  | None => 0
  | Some neighbor =>
      if active view neighbor && negb (in_range neighbor) then 0
      else if active view neighbor then 1
      else if LIBMESH_ENABLE_AMR b then
        length (connected_offspring elem (which_neighbor_am_i view neighbor elem)
                  (active_family_tree view neighbor))
      else 0
  end.

(** The connections both passes find through the sides of an element. *)
Definition face_width (elem : N) (neighbors : list (option N)) : nat :=
  sum_list (side_width elem <$> neighbors).

(** The interior neighbors pass 2 writes: those that belong to this mesh. *)
Definition interior_in_mesh (neighbor_set : list N) : list N :=
  filter (λ neighbor, query_elem_ptr view (elem_id view neighbor) = Some neighbor) neighbor_set.

(** The row width pass 1 counts for an element. *)
Definition row_width (elem : N) : nat :=
  face_width elem (neighbor_ptr_range view elem)
  + (if has_interior_parent b view elem then length (find_interior_neighbors view elem) else 0)
  + length (equal_range b interior_to_boundary_map elem).

(** The number of entries pass 2 writes into an element's row. *)
Definition row_written (elem : N) : nat :=
  face_width elem (neighbor_ptr_range view elem)
  + (if has_interior_parent b view elem
     then length (interior_in_mesh (find_interior_neighbors view elem)) else 0)
  + length (equal_range b interior_to_boundary_map elem).

(** The structural assertions of lines 309 and 337 hold for an element. *)
Definition links_consistent (elem : N) : Prop :=
  ∀ neighbor, Some neighbor ∈ neighbor_ptr_range view elem → active view neighbor = false →
    (which_neighbor_am_i view neighbor elem < n_neighbors view neighbor)%nat ∧
    ∀ child, child ∈ active_family_tree view neighbor →
      neighbor_ptr view child (which_neighbor_am_i view neighbor elem) = Some elem →
      active view child = true.

(** An interior neighbor that belongs to this mesh is in the range. *)
Definition interior_neighbors_in_range (elem : N) : Prop :=
  ∀ neighbor, neighbor ∈ find_interior_neighbors view elem →
    query_elem_ptr view (elem_id view neighbor) = Some neighbor → in_range neighbor = true.

(** The graph keeps its offsets and the size of its value array. *)
Definition same_shape (g g' : METIS_CSR_Graph) : Prop :=
  offsets g' = offsets g ∧ length (vals g') = length (vals g).

(** The row widths stored by pass 1, before [prepare_for_use]. *)
Definition widths_offsets (range : list N) (offs : list N) : list N :=
  foldl (λ offs elem,
           <[(N.to_nat (index_of elem) + 1)%nat := N.of_nat (row_width elem)]> offs)
        offs range.

(** The summed neighbor count over all vertices. *)
Definition total_edge_count (range : list N) : nat := sum_list (row_width <$> range).

(** What the builder needs of the range: the structural assertions hold,
    interior neighbors of this mesh are in the range, and the global indices
    of the range are distinct and below its size. *)
Definition range_ok (range : list N) : Prop :=
  (∀ e, e ∈ range → links_consistent e ∧ interior_neighbors_in_range e) ∧
  NoDup (Graph.index_of view global_index_map <$> range) ∧
  (∀ e, e ∈ range → (N.to_nat (index_of e) < length range)%nat).

End vocabulary.
End GraphSpec.

(** ** The facade *)

Module PartitionSpec.
Import GlobalIndexSpec GraphSpec.

(** The two entry points of the external partitioning engine. *)
Inductive engine := Recursive | Kway.

(** The entry point a logged call went to, if it is an engine call. *)
Definition engine_of (c : call) : option engine :=
  match c with
  | call_METIS_PartGraphRecursive _ _ _ _ _ => Some Recursive
  | call_METIS_PartGraphKway _ _ _ _ _ => Some Kway
  | _ => None
  end.

(** Recursive bisection for at most 8 pieces, direct k-way beyond. *)
Definition engine_for (n_pieces : N) : engine :=
  if bool_decide (n_pieces ≤ 8) then Recursive else Kway.

(** The calls a run added to the log of the process. *)
Definition new_calls (p : Process) (outcome : (Process * Mesh) * res unit) : list call :=
  drop (length (calls p)) (calls outcome.1.1).

(** The messages a run printed. *)
Definition new_out (p : Process) (outcome : (Process * Mesh) * res unit) : list message :=
  drop (length (out p)) (out outcome.1.1).

(** A step that neither gathers nor warns, keeps the replication state of
    the mesh, and names only the engine entry point chosen for [k]. *)
Definition quiet (k : N) (st st' : Process * Mesh) : Prop :=
  ∃ nc no, calls st'.1 = calls st.1 ++ nc ∧ out st'.1 = out st.1 ++ no ∧
    Forall (λ c, c ≠ call_allgather ∧ ∀ e, engine_of c = Some e → e = engine_for k) nc ∧
    Forall (λ msg, msg ≠ WARNING_forced_to_gather) no ∧
    is_serial st'.2 = is_serial st.2.

(** Every run of the step is quiet. *)
Definition frame {A} (k : N) (f : prog A) : Prop := ∀ st, quiet k st (f st).1.

(** Lines 93-545: what follows the gather. *)
Definition after_gather (b : Build) (env : Env) (range : list N) (n_pieces : N) : prog unit :=
  if LIBMESH_HAVE_METIS b then metis_partition_range b env range n_pieces
  else
    _ ← libmesh_do_once (print ERROR_built_without_Metis);
    _ ← record (call_SFCPartitioner_partition_range range n_pieces);
    sfc_partition_range env range n_pieces.

(** Lines 86-91. *)
Definition gathered (st : Process * Mesh) : Process * Mesh :=
  if is_serial st.2 then st
  else (add_call (add_out st.1 WARNING_forced_to_gather) call_allgather,
        {| is_serial := true; processor_id := processor_id st.2;
           elem_processor_id := elem_processor_id st.2 |}).

Section pipeline.
Context (b : Build) (env : Env) (range : list N).

Local Abbreviation ids := (elem_id (view env) <$> range).

(** The structural assertions hold on the range, and an interior neighbor
    that belongs to this mesh is an element of the range. *)
Definition mesh_consistent : Prop :=
  ∀ e, e ∈ range →
    GraphSpec.links_consistent (view env) e ∧
    ∀ neighbor, neighbor ∈ find_interior_neighbors (view env) e →
      query_elem_ptr (view env) (elem_id (view env) neighbor) = Some neighbor →
      elem_id (view env) neighbor ∈ ids.

(** Each engine entry point returns partition ids below the [nparts] it is
    given. *)
Definition engine_contract (nparts : Z) : Prop :=
  ∀ n xadj adjncy vwgt i,
    (Z.of_N (METIS_PartGraphRecursive env n xadj adjncy vwgt nparts i) < nparts)%Z ∧
    (Z.of_N (METIS_PartGraphKway env n xadj adjncy vwgt nparts i) < nparts)%Z.

(** The vector received from the root is the root's: one id per element,
    each below the number of pieces. *)
Definition received_contract (k : N) : Prop :=
  length (broadcast_received env) = length range ∧
  Forall (λ v, v < k) (broadcast_received env).

(** [static_cast<processor_id_type>(part[elem_global_index])] *)
Definition owner_from (gim : vectormap) (part : list N) (e : N) : N :=
  default 0 (part !! N.to_nat (Graph.index_of (view env) gim e)) `mod` 2 ^ processor_id_bits b.

(** The vector the engine fills on the root. *)
Definition engine_part (g : CSR.METIS_CSR_Graph) (vw : list Z) (k : N) : list N :=
  (if bool_decide (k ≤ 8)
   then METIS_PartGraphRecursive env (N.of_nat (length range)) (CSR.offsets g) (CSR.vals g) vw
          (static_cast_idx_t b (Z.of_N k))
   else METIS_PartGraphKway env (N.of_nat (length range)) (CSR.offsets g) (CSR.vals g) vw
          (static_cast_idx_t b (Z.of_N k)))
  <$> seq 0 (length range).

End pipeline.

(** The claim that every owner is read from the broadcast partition vector:
    the run logs a broadcast of a vector [part], and each element of the
    range ends with the entry of [part] at its global index, below [k]. *)
Definition assigned_from_broadcast (b : Build) (env : Env) (range : list N) (k : N)
    (st : Process * Mesh) : Prop :=
  let outcome := partition_range b env range k st in
  ∃ gim part,
    GlobalIndex.build_global_index_map b (elem_id (view env) <$> range)
      (find_global_indices env range) = Ok gim ∧
    call_broadcast part ∈ new_calls st.1 outcome ∧
    ∀ e, e ∈ range →
      elem_processor_id outcome.1.2 !! e = Some (owner_from b env gim part e) ∧
      owner_from b env gim part e < k.

(** The claim that a call with no piece to make halts with a fatal
    assertion. *)
Definition halts_on_zero_pieces (b : Build) (env : Env) (range : list N)
    (st : Process * Mesh) : Prop :=
  ∃ line, (partition_range b env range 0 st).2 = Halted (assertion_failed line).

(** The number of times the gather warning was printed. *)
Definition warnings (p : Process) : nat :=
  length (filter (λ msg, msg = WARNING_forced_to_gather) (out p)).

(** The claim that the gather warning is printed at most once per process
    run: after two calls in one process, on meshes [m1] and [m2], it was
    printed at most once. *)
Definition warns_at_most_once (b : Build) (env : Env) (range : list N) (k : N)
    (m1 m2 : Mesh) : Prop :=
  let first := partition_range b env range k (fresh_process, m1) in
  let second := partition_range b env range k (first.1.1, m2) in
  (warnings second.1.1 ≤ 1)%nat.

End PartitionSpec.

(** ** The rows of the finished graph *)

Module RowsSpec.
Import CSR Graph GraphSpec.

Section rows.
Context (b : Build) (view : MeshView) (global_index_map : vectormap).
Context (interior_to_boundary_map : list (N * N)).

Local Abbreviation in_range := (Graph.in_range view global_index_map).
Local Abbreviation index_of := (Graph.index_of view global_index_map).

(** The global indices pass 2 writes for one side of an element, in the
    order it writes them (lines 392-445). *)
Definition side_values (elem : N) (neighbor : option N) : list N :=
  match neighbor with
  | None => []
  | Some neighbor =>
      if active view neighbor && negb (in_range neighbor) then []
      else if active view neighbor then [index_of neighbor]
      else if LIBMESH_ENABLE_AMR b then
        index_of <$> connected_offspring view global_index_map elem
                       (which_neighbor_am_i view neighbor elem)
                       (active_family_tree view neighbor)
      else []
  end.

Definition face_values (elem : N) (neighbors : list (option N)) : list N :=
  neighbors ≫= side_values elem.

(** The row pass 2 writes for an element: its face connections, then its
    interior neighbors that belong to this mesh, then the boundary elements
    that look it up as an interior neighbor (lines 386-479). *)
Definition row_values (elem : N) : list N :=
  face_values elem (neighbor_ptr_range view elem)
  ++ (if has_interior_parent b view elem
      then index_of <$> interior_in_mesh view (find_interior_neighbors view elem) else [])
  ++ ((λ pr : N * N, index_of pr.2) <$> equal_range b interior_to_boundary_map elem).

(** The first slot of an element's row in a graph. *)
Definition row_start (g : METIS_CSR_Graph) (elem : N) : nat :=
  N.to_nat (default 0 (offsets g !! N.to_nat (index_of elem))).

(** The adjacency list the engine reads for the vertex of an element: the
    values between its offset and the next one. *)
Definition row_of (g : METIS_CSR_Graph) (elem : N) : list N :=
  let lo := row_start g elem in
  let hi := N.to_nat (default 0 (offsets g !! (N.to_nat (index_of elem) + 1)%nat)) in
  take (hi - lo) (drop lo (vals g)).

(** The slots pass 2 writes for two elements with different global indices
    do not overlap. *)
Definition rows_apart (g : METIS_CSR_Graph) (range : list N) : Prop :=
  ∀ e e', e ∈ range → e' ∈ range → index_of e ≠ index_of e' →
    (row_start g e + row_written b view global_index_map interior_to_boundary_map e
       ≤ row_start g e')%nat ∨
    (row_start g e' + row_written b view global_index_map interior_to_boundary_map e'
       ≤ row_start g e)%nat.

End rows.

(** A vector with the values [vs] written from slot [s] on. *)
Definition splice (l : list N) (s : nat) (vs : list N) : list N :=
  take s l ++ vs ++ drop (s + length vs) l.

End RowsSpec.

(** ** The runs of the facade *)

Module RunSpec.

(** Every run of the step relates the state it starts from to the state it
    leaves, whether it returns or stops. *)
Definition keeps {A} (R : relation (Process * Mesh)) (f : prog A) : Prop :=
  ∀ st, R st (f st).1.

(** The rank of the process is as before, and so is the owner of every
    element outside [range]. *)
Definition outside_kept (range : list N) (st st' : Process * Mesh) : Prop :=
  processor_id st'.2 = processor_id st.2 ∧
  ∀ e, e ∉ range → elem_processor_id st'.2 !! e = elem_processor_id st.2 !! e.

(** Lines 86-91: what a call logs and prints before anything else when the
    mesh is not replicated. *)
Definition gather_calls (m : Mesh) : list call :=
  if is_serial m then [] else [call_allgather].

Definition gather_out (m : Mesh) : list message :=
  if is_serial m then [] else [WARNING_forced_to_gather].

(** Lines 493-522: the engine call the root logs for a graph. *)
Definition engine_call (b : Build) (n_range_elem : nat) (g : CSR.METIS_CSR_Graph)
    (vwgt : list Z) (n_pieces : N) : call :=
  if bool_decide (n_pieces ≤ 8)
  then call_METIS_PartGraphRecursive (N.of_nat n_range_elem) (CSR.offsets g) (CSR.vals g)
         vwgt (static_cast_idx_t b (Z.of_N n_pieces))
  else call_METIS_PartGraphKway (N.of_nat n_range_elem) (CSR.offsets g) (CSR.vals g)
         vwgt (static_cast_idx_t b (Z.of_N n_pieces)).

(** A logged call is a call of the engine. *)
Definition is_engine_call (c : call) : Prop := is_Some (PartitionSpec.engine_of c).

(** Lines 96-99: the notice a call prints when the library was built without
    Metis, given the flag behind [libmesh_do_once]. *)
Definition notice_out (p : Process) : list message :=
  if once_done p then [] else [ERROR_built_without_Metis].

End RunSpec.

(** * Sample builds and meshes *)

(** An implementation of [unordered_multimap] that yields the entries of a
    key in insertion order, and one that yields them last inserted first. *)
Definition in_insertion_order (m : list (N * N)) (key : N) : list (N * N) :=
  filter (λ pr, pr.1 = key) m.

Definition last_inserted_first (m : list (N * N)) (key : N) : list (N * N) :=
  reverse (filter (λ pr, pr.1 = key) m).

Definition release_build : Build :=
  {| LIBMESH_HAVE_METIS := true; LIBMESH_ENABLE_UNIQUE_ID := false;
     LIBMESH_ENABLE_AMR := true; NDEBUG := true; DEBUG := false;
     LIBMESH_DIM := 3; processor_id_bits := 32; IDXTYPEWIDTH := 32;
     unordered_multimap_order := in_insertion_order |}.

Definition debug_build : Build :=
  {| LIBMESH_HAVE_METIS := true; LIBMESH_ENABLE_UNIQUE_ID := false;
     LIBMESH_ENABLE_AMR := true; NDEBUG := false; DEBUG := true;
     LIBMESH_DIM := 3; processor_id_bits := 32; IDXTYPEWIDTH := 32;
     unordered_multimap_order := last_inserted_first |}.

(** A build in which elements carry a unique id, without assertions. *)
Definition unique_id_build : Build :=
  {| LIBMESH_HAVE_METIS := true; LIBMESH_ENABLE_UNIQUE_ID := true;
     LIBMESH_ENABLE_AMR := true; NDEBUG := true; DEBUG := false;
     LIBMESH_DIM := 3; processor_id_bits := 32; IDXTYPEWIDTH := 64;
     unordered_multimap_order := in_insertion_order |}.

(** ** Sample meshes *)

(** A 2 x 2 grid of unrefined quadrilaterals; the element with identifier
    [i] sits at address [100 + i]; sides are numbered bottom, right, top,
    left. *)
Definition grid_neighbor (e : N) (s : nat) : option N :=
  match e, s with
  | 100, 1%nat => Some 101 | 100, 2%nat => Some 102
  | 101, 3%nat => Some 100 | 101, 2%nat => Some 103
  | 102, 0%nat => Some 100 | 102, 1%nat => Some 103
  | 103, 0%nat => Some 101 | 103, 3%nat => Some 102
  | _, _ => None
  end.

Definition grid_view : MeshView :=
  {| elem_id := λ e, e - 100;
     active := λ _, true;
     dim := λ _, 2;
     n_neighbors := λ _, 4%nat;
     neighbor_ptr := grid_neighbor;
     which_neighbor_am_i := λ _ _, 0%nat;
     active_family_tree := λ e, [e];
     interior_parent := λ _, None;
     find_interior_neighbors := λ _, [];
     is_spline_node := λ _, false;
     n_nodes := λ _, 4;
     query_elem_ptr := λ i, if bool_decide (i < 4) then Some (100 + i) else None |}.

Definition grid_range : list N := [100; 101; 102; 103].

Definition grid_env : Env :=
  {| view := grid_view;
     weights := None;
     find_global_indices := λ range, (λ e, e - 100) <$> range;
     METIS_PartGraphRecursive := λ n xadj adjncy vwgt nparts i,
       Z.to_N (Z.of_nat i `mod` nparts);
     METIS_PartGraphKway := λ n xadj adjncy vwgt nparts i,
       Z.to_N (Z.of_nat i `mod` nparts);
     broadcast_received := [0; 1; 0; 1];
     SFCPartitioner_partition_range := λ range n_pieces owners, owners |}.

Definition replicated_mesh (rank : N) : Mesh :=
  {| is_serial := true; processor_id := rank; elem_processor_id := ∅ |}.

Definition distributed_mesh (rank : N) : Mesh :=
  {| is_serial := false; processor_id := rank; elem_processor_id := ∅ |}.

(** A distributed mesh on the root in which the element at address 104,
    outside the grid range, is owned by processor 5. *)
Definition owned_mesh : Mesh :=
  {| is_serial := false; processor_id := 0; elem_processor_id := {[104 := 5]} |}.

(** A boundary mesh of two edges, at addresses 200 and 201 with identifiers
    0 and 1, neighbors of each other through side 0; their interior parents,
    at addresses 300 and 301, belong to another mesh. *)
Definition boundary_view : MeshView :=
  {| elem_id := λ e, match e with 200 => 0 | 201 => 1 | 300 => 7 | _ => 8 end;
     active := λ _, true;
     dim := λ e, match e with 200 | 201 => 1 | _ => 2 end;
     n_neighbors := λ e, match e with 200 | 201 => 2%nat | _ => 3%nat end;
     neighbor_ptr := λ e s,
       match e, s with
       | 200, 0%nat => Some 201
       | 201, 0%nat => Some 200
       | _, _ => None
       end;
     which_neighbor_am_i := λ _ _, 0%nat;
     active_family_tree := λ e, [e];
     interior_parent := λ e, match e with 200 => Some 300 | 201 => Some 301 | _ => None end;
     find_interior_neighbors := λ e, match e with 200 => [300] | 201 => [301] | _ => [] end;
     is_spline_node := λ _, false;
     n_nodes := λ e, match e with 200 | 201 => 2 | _ => 3 end;
     query_elem_ptr := λ i, match i with 0 => Some 200 | 1 => Some 201 | _ => None end |}.

Definition boundary_range : list N := [200; 201].

Definition boundary_index_map : vectormap := [(0, 0); (1, 1)].

(** A mesh of mixed dimension: a triangle at address 400 (identifier 0) and
    an edge on its boundary at address 401 (identifier 1), whose interior
    parent is the triangle. Neither has a face neighbor. *)
Definition mixed_view : MeshView :=
  {| elem_id := λ e, e - 400;
     active := λ _, true;
     dim := λ e, match e with 400 => 2 | _ => 1 end;
     n_neighbors := λ e, match e with 400 => 3%nat | _ => 2%nat end;
     neighbor_ptr := λ _ _, None;
     which_neighbor_am_i := λ _ _, 0%nat;
     active_family_tree := λ e, [e];
     interior_parent := λ e, match e with 401 => Some 400 | _ => None end;
     find_interior_neighbors := λ e, match e with 401 => [400] | _ => [] end;
     is_spline_node := λ _, false;
     n_nodes := λ e, match e with 400 => 3 | _ => 2 end;
     query_elem_ptr := λ i, match i with 0 => Some 400 | 1 => Some 401 | _ => None end |}.

Definition mixed_range : list N := [400; 401].

Definition mixed_index_map : vectormap := [(0, 0); (1, 1)].

Definition mixed_env : Env :=
  {| view := mixed_view;
     weights := None;
     find_global_indices := λ range, (λ e, e - 400) <$> range;
     METIS_PartGraphRecursive := λ n xadj adjncy vwgt nparts i,
       Z.to_N (Z.of_nat i `mod` nparts);
     METIS_PartGraphKway := λ n xadj adjncy vwgt nparts i,
       Z.to_N (Z.of_nat i `mod` nparts);
     broadcast_received := [1; 0];
     SFCPartitioner_partition_range := λ range n_pieces owners,
       foldl (λ o e, <[e := 0]> o) owners range |}.

(** A triangle at address 500 (identifier 0) with two edges on its
    boundary, at addresses 501 and 502 (identifiers 1 and 2), whose interior
    parent is the triangle. No element has a face neighbor. *)
Definition fan_view : MeshView :=
  {| elem_id := λ e, e - 500;
     active := λ _, true;
     dim := λ e, match e with 500 => 2 | _ => 1 end;
     n_neighbors := λ e, match e with 500 => 3%nat | _ => 2%nat end;
     neighbor_ptr := λ _ _, None;
     which_neighbor_am_i := λ _ _, 0%nat;
     active_family_tree := λ e, [e];
     interior_parent := λ e, match e with 501 | 502 => Some 500 | _ => None end;
     find_interior_neighbors := λ e, match e with 501 | 502 => [500] | _ => [] end;
     is_spline_node := λ _, false;
     n_nodes := λ e, match e with 500 => 3 | _ => 2 end;
     query_elem_ptr := λ i, if bool_decide (i < 3) then Some (500 + i) else None |}.

Definition fan_range : list N := [500; 501; 502].

Definition fan_env : Env :=
  {| view := fan_view;
     weights := None;
     find_global_indices := λ range, N.of_nat <$> seq 0 (length range);
     METIS_PartGraphRecursive := λ n xadj adjncy vwgt nparts i,
       Z.to_N (Z.of_nat i `mod` nparts);
     METIS_PartGraphKway := λ n xadj adjncy vwgt nparts i,
       Z.to_N (Z.of_nat i `mod` nparts);
     broadcast_received := [0; 1; 0];
     SFCPartitioner_partition_range := λ range n_pieces owners, owners |}.

(** The mixed mesh with collaborators that number the elements of a range
    by position. *)
Definition positional_env : Env :=
  {| view := mixed_view;
     weights := None;
     find_global_indices := λ range, N.of_nat <$> seq 0 (length range);
     METIS_PartGraphRecursive := λ n xadj adjncy vwgt nparts i,
       Z.to_N (Z.of_nat i `mod` nparts);
     METIS_PartGraphKway := λ n xadj adjncy vwgt nparts i,
       Z.to_N (Z.of_nat i `mod` nparts);
     broadcast_received := [0];
     SFCPartitioner_partition_range := λ range n_pieces owners, owners |}.

(** A build without the Metis library. *)
Definition build_without_metis : Build :=
  {| LIBMESH_HAVE_METIS := false; LIBMESH_ENABLE_UNIQUE_ID := true;
     LIBMESH_ENABLE_AMR := true; NDEBUG := false; DEBUG := false;
     LIBMESH_DIM := 3; processor_id_bits := 32; IDXTYPEWIDTH := 32;
     unordered_multimap_order := in_insertion_order |}.

(** * Properties *)

(** ** The result monad *)

Lemma libmesh_assert_true b line : libmesh_assert b line true = Ok tt.
Proof. unfold libmesh_assert. by destruct (NDEBUG b). Qed.

Lemma libmesh_assert_decide b line (P : Prop) `{!Decision P} :
  P → libmesh_assert b line (bool_decide P) = Ok tt.
Proof. intros HP. rewrite bool_decide_eq_true_2 by done. apply libmesh_assert_true. Qed.

Lemma static_cast_idx_t_fits b v :
  (0 ≤ v)%Z → fits_idx_t b v → static_cast_idx_t b v = v.
Proof.
  intros Hpos [_ Hlt]. unfold static_cast_idx_t.
  destruct (decide (Z.of_N (IDXTYPEWIDTH b) = 0%Z)) as [H0|H0].
  { rewrite H0 in Hlt. simpl in Hlt. lia. }
  assert (2 ^ Z.of_N (IDXTYPEWIDTH b) = 2 * 2 ^ (Z.of_N (IDXTYPEWIDTH b) - 1))%Z as Hpow.
  { rewrite <- Z.pow_succ_r by lia. f_equal. lia. }
  rewrite Z.mod_small by lia. by rewrite bool_decide_eq_true_2 by lia.
Qed.

Lemma vec_at_lookup {A} line (v : list A) i x : v !! i = Some x → vec_at line v i = Ok x.
Proof. unfold vec_at. by intros ->. Qed.

(** ** vectormap lookups *)

Lemma vm_find_list_to_map (m : vectormap) k :
  vm_find m k = (list_to_map m : gmap N N) !! k.
Proof.
  induction m as [|[k' v] m IH]; simpl; [done|].
  rewrite lookup_insert. by repeat case_decide.
Qed.

Lemma vm_find_elem_of (m : vectormap) k v :
  NoDup m.*1 → (k, v) ∈ m → vm_find m k = Some v.
Proof. intros Hnd Hin. rewrite vm_find_list_to_map. by apply elem_of_list_to_map. Qed.

Lemma vm_find_Some_elem_of (m : vectormap) k v : vm_find m k = Some v → (k, v) ∈ m.
Proof. rewrite vm_find_list_to_map. apply elem_of_list_to_map_2. Qed.

Lemma vm_find_is_Some (m : vectormap) k : is_Some (vm_find m k) ↔ k ∈ m.*1.
Proof.
  split.
  - intros [v Hv%vm_find_Some_elem_of]. apply list_elem_of_fmap. by exists (k, v).
  - induction m as [|[k' v] m IH]; simpl; [by intros ?%elem_of_nil|].
    case_decide; [by eexists|]. intros [?|?]%elem_of_cons; [done|by apply IH].
Qed.

Lemma vm_find_Permutation (m1 m2 : vectormap) k :
  NoDup m1.*1 → m1 ≡ₚ m2 → vm_find m1 k = vm_find m2 k.
Proof.
  intros Hnd Hp. rewrite !vm_find_list_to_map.
  by rewrite (list_to_map_proper m1 m2).
Qed.

(** ** Global index assigner *)

Module GlobalIndexFacts.
Import GlobalIndex GlobalIndexSpec.

Lemma emplace_by_position_zip line ids global_index cnt m :
  (cnt + length ids ≤ length global_index)%nat →
  emplace_by_position line ids global_index cnt m = Ok (m ++ zip ids (drop cnt global_index)).
Proof.
  revert cnt m. induction ids as [|id ids IH]; intros cnt m Hlen; simpl in *.
  - by rewrite app_nil_r.
  - destruct (lookup_lt_is_Some_2 global_index cnt) as [gi Hgi]; [lia|].
    rewrite (vec_at_lookup _ _ _ _ Hgi). simpl.
    rewrite IH by lia. unfold vm_emplace. rewrite <- app_assoc. simpl.
    by rewrite (drop_S _ _ _ Hgi).
Qed.

Lemma collect_inverses_foldl ids global_index cnt inv found :
  (cnt + length ids ≤ length global_index)%nat →
  collect_inverses ids global_index cnt inv found =
    Ok (foldl push_inverse (inv, found) (zip ids (drop cnt global_index))).
Proof.
  revert cnt inv found. induction ids as [|id ids IH]; intros cnt inv found Hlen; simpl in *.
  - done.
  - destruct (lookup_lt_is_Some_2 global_index cnt) as [gi Hgi]; [lia|].
    rewrite (vec_at_lookup _ _ _ _ Hgi). simpl.
    rewrite IH by lia. by rewrite (drop_S _ _ _ Hgi).
Qed.

Lemma bucket_of_cons p l h :
  bucket_of (p :: l) h = if decide (p.2 = h) then p.1 :: bucket_of l h else bucket_of l h.
Proof. unfold bucket_of. rewrite filter_cons. by case_decide. Qed.

Lemma foldl_push_inverse_lookup l inv found h :
  (foldl push_inverse (inv, found) l).1 !! h =
    match bucket_of l h with
    | [] => inv !! h
    | v => Some (default [] (inv !! h) ++ v)
    end.
Proof.
  revert inv found. induction l as [|p l IH]; intros inv found; [done|].
  simpl. unfold push_inverse at 2. simpl. rewrite IH, bucket_of_cons.
  case_decide as Hh.
  - subst h. rewrite lookup_insert_eq. simpl.
    destruct (bucket_of l p.2); simpl; [done|]. by rewrite <- app_assoc.
  - by rewrite lookup_insert_ne.
Qed.

Lemma collect_lookup l h :
  (foldl push_inverse (∅, false) l).1 !! h =
    match bucket_of l h with [] => None | v => Some v end.
Proof. rewrite foldl_push_inverse_lookup, lookup_empty. by destruct (bucket_of l h). Qed.

Lemma push_inverse_inv st p : inverses_inv st → inverses_inv (push_inverse st p).
Proof.
  destruct st as [inv found], p as [id g]. intros [Hne Hfound]. simpl in *.
  unfold push_inverse; simpl. split; simpl.
  - intros h v. rewrite lookup_insert. case_decide; [|by apply Hne].
    intros [= <-]. by destruct (default [] (inv !! g)).
  - destruct (inv !! g) as [vec|] eqn:Hg; simpl.
    + specialize (Hne _ _ Hg). rewrite bool_decide_eq_false_2 by done.
      split; [intros _|done]. exists g, (vec ++ [id]). rewrite lookup_insert_eq.
      split; [done|]. rewrite length_app. simpl. destruct vec; simpl; [done|lia].
    + rewrite Hfound. split.
      * intros (h & v & Hv & Hlen). exists h, v. split; [|done].
        rewrite lookup_insert_ne; [done|]. intros <-. congruence.
      * intros (h & v & Hv & Hlen). rewrite lookup_insert in Hv. case_decide.
        -- simplify_eq. simpl in Hlen. lia.
        -- by exists h, v.
Qed.

Lemma foldl_push_inverse_inv l st : inverses_inv st → inverses_inv (foldl push_inverse st l).
Proof. revert st. induction l; simpl; auto using push_inverse_inv. Qed.

Lemma collect_inv l : inverses_inv (foldl push_inverse (∅, false) l).
Proof.
  apply foldl_push_inverse_inv. split; simpl.
  - intros h v. by rewrite lookup_empty.
  - split; [done|]. intros (h & v & Hv & _). by rewrite lookup_empty in Hv.
Qed.

Lemma bucket_of_elem_of l h : h ∈ l.*2 → bucket_of l h ≠ [].
Proof.
  induction l as [|p l IH]; [by intros ?%elem_of_nil|].
  rewrite fmap_cons, bucket_of_cons. intros [->|Hin]%elem_of_cons.
  - by rewrite decide_True.
  - case_decide; [done|by apply IH].
Qed.

Lemma bucket_short_NoDup l : (∀ h, (length (bucket_of l h) ≤ 1)%nat) → NoDup l.*2.
Proof.
  induction l as [|p l IH]; intros Hshort; [constructor|].
  rewrite fmap_cons. constructor.
  - intros Hin%bucket_of_elem_of. specialize (Hshort p.2).
    rewrite bucket_of_cons, decide_True in Hshort by done.
    destruct (bucket_of l p.2); simpl in *; [done|lia].
  - apply IH. intros h. specialize (Hshort h). rewrite bucket_of_cons in Hshort.
    case_decide; simpl in *; lia.
Qed.

Lemma collect_no_duplicate l :
  (foldl push_inverse (∅, false) l).2 = false → NoDup l.*2.
Proof.
  intros Hfalse. apply bucket_short_NoDup. intros h.
  destruct (decide (length (bucket_of l h) ≤ 1)%nat) as [|Hlong]; [done|].
  destruct (collect_inv l) as [_ Hiff].
  assert ((foldl push_inverse (∅, false) l).2 = true) as Htrue; [|congruence].
  apply Hiff. exists h, (bucket_of l h). split; [|lia].
  rewrite collect_lookup. destruct (bucket_of l h); simpl in *; [lia|done].
Qed.

Lemma push_inverse_concat inv found p :
  concat (map_to_list (push_inverse (inv, found) p).1).*2
    ≡ₚ p.1 :: concat (map_to_list inv).*2.
Proof.
  unfold push_inverse; simpl. destruct (inv !! p.2) as [vec|] eqn:Hg; simpl.
  - rewrite <- (insert_delete_eq inv p.2 (vec ++ [p.1])).
    rewrite map_to_list_insert by apply lookup_delete_eq.
    rewrite <- (insert_delete_id inv p.2 vec) at 2 by done.
    rewrite (map_to_list_insert (delete p.2 inv)) by apply lookup_delete_eq.
    simpl. rewrite <- app_assoc. simpl.
    by rewrite <- Permutation_middle.
  - by rewrite map_to_list_insert.
Qed.

Lemma foldl_push_inverse_concat l inv found :
  concat (map_to_list (foldl push_inverse (inv, found) l).1).*2
    ≡ₚ concat (map_to_list inv).*2 ++ l.*1.
Proof.
  revert inv found. induction l as [|p l IH]; intros inv found; simpl.
  - by rewrite app_nil_r.
  - destruct (push_inverse (inv, found) p) as [inv' found'] eqn:Hpush.
    rewrite IH. replace inv' with (push_inverse (inv, found) p).1 by by rewrite Hpush.
    rewrite push_inverse_concat. by rewrite <- Permutation_middle.
Qed.

Lemma sorted_inverses_concat inv :
  concat (sorted_inverses inv).*2 ≡ₚ concat (map_to_list inv).*2.
Proof. unfold sorted_inverses. by rewrite merge_sort_Permutation. Qed.

Lemma numbered_app c ids1 ids2 :
  numbered c (ids1 ++ ids2) = numbered c ids1 ++ numbered (c + N.of_nat (length ids1)) ids2.
Proof.
  unfold numbered. rewrite imap_app. f_equal. apply imap_ext. intros i x _. simpl.
  f_equal. lia.
Qed.

Lemma renumber_bucket_numbered m c ids :
  renumber_bucket (m, c) ids = (m ++ numbered c ids, c + N.of_nat (length ids)).
Proof.
  unfold renumber_bucket. revert m c. induction ids as [|id ids IH]; intros m c; simpl.
  - rewrite app_nil_r. f_equal. lia.
  - rewrite IH. unfold vm_emplace. rewrite <- app_assoc. f_equal.
    + f_equal. change (id :: ids) with ([id] ++ ids). rewrite numbered_app. simpl.
      f_equal; f_equal; lia.
    + lia.
Qed.

Lemma foldl_renumber_numbered (sorted : list (N * list N)) m c :
  foldl (λ st entry, renumber_bucket st entry.2) (m, c) sorted =
    (m ++ numbered c (concat sorted.*2), c + N.of_nat (length (concat sorted.*2))).
Proof.
  revert m c. induction sorted as [|[h ids] sorted IH]; intros m c; simpl.
  - rewrite app_nil_r. f_equal. lia.
  - rewrite renumber_bucket_numbered, IH, numbered_app, length_app, <- app_assoc.
    f_equal. by rewrite Nat2N.inj_add, N.add_assoc.
Qed.

Lemma renumber_numbered (sorted : list (N * list N)) : renumber sorted = numbered 0 (concat sorted.*2).
Proof. unfold renumber. by rewrite foldl_renumber_numbered. Qed.

Lemma numbered_fst c ids : (numbered c ids).*1 = ids.
Proof.
  unfold numbered. rewrite fmap_imap.
  rewrite (imap_ext _ (const id)) by done. rewrite imap_const. apply list_fmap_id.
Qed.

Lemma numbered_snd ids : (numbered 0 ids).*2 = N.of_nat <$> seq 0 (length ids).
Proof.
  unfold numbered. rewrite fmap_imap.
  rewrite (imap_ext _ (λ i _, N.of_nat i)) by (intros; simpl; lia).
  by rewrite imap_seq_0.
Qed.

Lemma numbered_lookup ids i id :
  NoDup ids → ids !! i = Some id → vm_find (numbered 0 ids) id = Some (N.of_nat i).
Proof.
  intros Hnd Hi. apply vm_find_elem_of; [by rewrite numbered_fst|].
  unfold numbered. replace (N.of_nat i) with (0 + N.of_nat i) by lia.
  by apply (elem_of_lookup_imap_2 (λ i id, (id, 0 + N.of_nat i))).
Qed.

(** Distinct hints below [n], one per element, are exactly [0 .. n-1]. *)
Lemma dense_indices (global_index : list N) :
  NoDup global_index →
  Forall (λ g, g < N.of_nat (length global_index)) global_index →
  global_index ≡ₚ N.of_nat <$> seq 0 (length global_index).
Proof.
  intros Hnd Hlt. apply submseteq_length_Permutation.
  - apply NoDup_submseteq; [done|]. intros g Hg.
    rewrite Forall_forall in Hlt. specialize (Hlt g Hg).
    apply list_elem_of_fmap. exists (N.to_nat g). split; [lia|].
    apply elem_of_seq. lia.
  - by rewrite length_fmap, length_seq.
Qed.

Lemma NoDup_dense n : NoDup (N.of_nat <$> seq 0 n).
Proof. apply NoDup_fmap_2; [apply _|apply NoDup_seq]. Qed.

(** The checks of lines 176-186 pass on a bijection onto [0 .. n-1]. *)
Lemma checks_pass b n (m : vectormap) :
  NoDup m.*1 → NoDup m.*2 → length m = n →
  (_ ← libmesh_assert b 176 (bool_decide (length m = n));
   _ ← debug_checks b n m; Ok m) = Ok m.
Proof.
  intros Hnd1 Hnd2 Hlen. rewrite libmesh_assert_decide by done. simpl.
  unfold debug_checks. destruct (DEBUG b); [|done].
  rewrite !libmesh_assert_decide; [done| |].
  - rewrite size_list_to_set by done. by rewrite length_fmap.
  - rewrite size_list_to_set by done. by rewrite length_fmap.
Qed.

Lemma bijection_by_position ids global_index :
  length global_index = length ids → NoDup global_index →
  Forall (λ g, g < N.of_nat (length ids)) global_index →
  bijection_onto_range ids (zip ids global_index).
Proof.
  intros Hlen Hnd Hlt. split.
  - rewrite fst_zip by lia. done.
  - rewrite snd_zip by lia. rewrite <- Hlen. apply dense_indices; [done|].
    by rewrite Hlen.
Qed.

Lemma bijection_renumbered ids global_index :
  length global_index = length ids →
  bijection_onto_range ids
    (renumber (sorted_inverses (foldl push_inverse (∅, false) (zip ids global_index)).1)).
Proof.
  intros Hlen. rewrite renumber_numbered.
  assert (concat (sorted_inverses
            (foldl push_inverse (∅, false) (zip ids global_index)).1).*2 ≡ₚ ids) as Hperm.
  { rewrite sorted_inverses_concat, foldl_push_inverse_concat.
    rewrite map_to_list_empty. simpl. by rewrite fst_zip by lia. }
  split.
  - by rewrite numbered_fst.
  - rewrite numbered_snd. by rewrite Hperm.
Qed.

Lemma bijection_checks_pass b ids (m : vectormap) :
  NoDup ids → bijection_onto_range ids m →
  (_ ← libmesh_assert b 176 (bool_decide (length m = length ids));
   _ ← debug_checks b (length ids) m; Ok m) = Ok m.
Proof.
  intros Hnd [H1 H2]. apply checks_pass.
  - by rewrite H1.
  - rewrite H2. apply NoDup_dense.
  - rewrite <- (length_fmap fst m). by rewrite H1.
Qed.

Lemma build_global_index_map_ok b ids global_index :
  NoDup ids → hints_ok b ids global_index →
  ∃ m, build_global_index_map b ids global_index = Ok m ∧ bijection_onto_range ids m.
Proof.
  intros Hnd (Hlen & Hlt & Huniq). unfold build_global_index_map.
  rewrite libmesh_assert_decide by done. simpl.
  destruct (LIBMESH_ENABLE_UNIQUE_ID b) eqn:Hu.
  - rewrite emplace_by_position_zip, drop_0 by (simpl; lia). simpl.
    assert (bijection_onto_range ids (zip ids global_index)) as Hbij
      by (apply bijection_by_position; auto).
    eexists; split; [|done]. by apply bijection_checks_pass.
  - rewrite collect_inverses_foldl, drop_0 by (simpl; lia). simpl.
    destruct (foldl push_inverse (∅, false) (zip ids global_index)) as [inv found] eqn:Hfold.
    destruct found.
    + pose proof (bijection_renumbered ids global_index Hlen) as Hbij.
      rewrite Hfold in Hbij. simpl in *.
      eexists; split; [|done]. by apply bijection_checks_pass.
    + rewrite emplace_by_position_zip, drop_0 by (simpl; lia). simpl.
      assert (NoDup global_index) as Hnd'.
      { rewrite <- (snd_zip ids global_index) by lia.
        apply collect_no_duplicate. by rewrite Hfold. }
      assert (bijection_onto_range ids (zip ids global_index)) as Hbij
        by (apply bijection_by_position; auto).
      eexists; split; [|done]. by apply bijection_checks_pass.
Qed.

(** *** Dependence on the iteration order *)

Lemma checks_cases b n m : checks b n m = Ok m ∨ ∃ h, checks b n m = Halted h.
Proof.
  unfold checks, debug_checks.
  destruct (libmesh_assert b 176 _) as [[]|h]; simpl; [|by eauto].
  destruct (DEBUG b); [|by left].
  destruct (libmesh_assert b 185 _) as [[]|h]; simpl; [|by eauto].
  destruct (libmesh_assert b 186 _) as [[]|h]; simpl; by eauto.
Qed.

Lemma checks_gate b n m :
  checks b n m = gate b n (length m) (list_to_set m.*2) (list_to_set m.*1) ≫= λ _, Ok m.
Proof.
  unfold checks, gate, debug_checks.
  destruct (libmesh_assert b 176 _) as [[]|h]; simpl; [|done].
  destruct (DEBUG b); [|done].
  destruct (libmesh_assert b 185 _) as [[]|h]; simpl; [|done].
  by destruct (libmesh_assert b 186 _) as [[]|h].
Qed.

Lemma checks_Permutation b n m1 m2 :
  NoDup m1.*1 → m1 ≡ₚ m2 → same_mapping (checks b n m1) (checks b n m2).
Proof.
  intros Hnd Hp. rewrite !checks_gate.
  rewrite <- (Permutation_length Hp).
  rewrite <- (list_to_set_perm_L (C:=gset N) _ _ (fmap_Permutation snd _ _ Hp)).
  rewrite <- (list_to_set_perm_L (C:=gset N) _ _ (fmap_Permutation fst _ _ Hp)).
  destruct (gate b n _ _ _) as [[]|h]; simpl; [|done].
  split; [done|]. intros id. by apply vm_find_Permutation.
Qed.

Lemma assign_unfold b l :
  assign b l =
    if LIBMESH_ENABLE_UNIQUE_ID b then checks b (length l) l
    else if (foldl push_inverse (∅, false) l).2
         then checks b (length l)
                (renumber (sorted_inverses (foldl push_inverse (∅, false) l).1))
         else checks b (length l) l.
Proof.
  unfold assign, build_global_index_map, checks.
  rewrite libmesh_assert_decide by by rewrite !length_fmap. simpl.
  rewrite !length_fmap.
  rewrite collect_inverses_foldl, !emplace_by_position_zip, !drop_0, !zip_fst_snd
    by (rewrite ?length_fmap; simpl; lia).
  destruct (LIBMESH_ENABLE_UNIQUE_ID b); [done|]. simpl.
  destruct (foldl push_inverse (∅, false) l) as [inv []]; done.
Qed.

Lemma same_buckets l1 l2 :
  same_order_of_colliding l1 l2 →
  foldl push_inverse (∅, false) l1 = foldl push_inverse (∅, false) l2.
Proof.
  intros Hsame.
  assert ((foldl push_inverse (∅, false) l1).1 = (foldl push_inverse (∅, false) l2).1) as Hinv.
  { apply map_eq. intros h. rewrite !collect_lookup. unfold bucket_of. by rewrite Hsame. }
  pose proof (collect_inv l1) as [_ H1]. pose proof (collect_inv l2) as [_ H2].
  destruct (foldl push_inverse (∅, false) l1) as [inv1 f1].
  destruct (foldl push_inverse (∅, false) l2) as [inv2 f2].
  simpl in *. subst inv2. f_equal.
  destruct f1, f2; try done.
  - symmetry. apply H2, H1. done.
  - apply H1, H2. done.
Qed.

Lemma assign_same_mapping b l1 l2 :
  NoDup l1.*1 → l1 ≡ₚ l2 → same_order_of_colliding l1 l2 →
  same_mapping (assign b l1) (assign b l2).
Proof.
  intros Hnd Hp Hsame.
  rewrite !assign_unfold, <- (same_buckets l1 l2 Hsame), <- (Permutation_length Hp).
  destruct (LIBMESH_ENABLE_UNIQUE_ID b); [by apply checks_Permutation|].
  destruct (foldl push_inverse (∅, false) l1) as [inv []]; simpl.
  - destruct (checks_cases b (length l1) (renumber (sorted_inverses inv))) as [->|[h ->]];
      simpl; done.
  - by apply checks_Permutation.
Qed.

Lemma checks_Ok b n m m' : checks b n m = Ok m' → m' = m.
Proof. destruct (checks_cases b n m) as [->|[h ->]]; congruence. Qed.

Lemma bucket_positions (l : list (N * N)) i j a c :
  l !! i = Some a → l !! j = Some c → (i < j)%nat → a.2 = c.2 →
  ∃ B1 B2 B3, bucket_of l a.2 = B1 ++ a.1 :: B2 ++ c.1 :: B3.
Proof.
  intros Hi Hj Hlt Heq.
  rewrite <- (take_drop_middle l i a Hi).
  assert (drop (S i) l !! (j - S i)%nat = Some c) as Hj'.
  { rewrite lookup_drop. rewrite <- Hj. f_equal. lia. }
  rewrite <- (take_drop_middle _ _ _ Hj').
  unfold bucket_of. rewrite filter_app, filter_cons, decide_True by done.
  rewrite filter_app, filter_cons, decide_True by done.
  rewrite fmap_app, fmap_cons, fmap_app, fmap_cons. eauto.
Qed.

Lemma sorted_inverses_split inv h v :
  inv !! h = Some v → ∃ S1 S2, sorted_inverses inv = S1 ++ (h, v) :: S2.
Proof.
  intros Hv. apply list_elem_of_split. unfold sorted_inverses.
  rewrite merge_sort_Permutation. by apply elem_of_map_to_list.
Qed.

Lemma colliding_in_iteration_order b (l : list (N * N)) m i j a c :
  LIBMESH_ENABLE_UNIQUE_ID b = false → NoDup l.*1 → assign b l = Ok m →
  l !! i = Some a → l !! j = Some c → (i < j)%nat → a.2 = c.2 →
  vm_at m a.1 < vm_at m c.1.
Proof.
  intros Hu Hnd Hrun Hi Hj Hlt Heq. rewrite assign_unfold, Hu in Hrun.
  destruct (foldl push_inverse (∅, false) l) as [inv found] eqn:Hfold. simpl in Hrun.
  destruct found.
  - apply checks_Ok in Hrun. subst m. rewrite renumber_numbered.
    destruct (bucket_positions l i j a c Hi Hj Hlt Heq) as (B1 & B2 & B3 & HB).
    assert (inv !! a.2 = Some (bucket_of l a.2)) as Hinv.
    { replace inv with (foldl push_inverse (∅, false) l).1 by by rewrite Hfold.
      rewrite collect_lookup, HB. by destruct B1. }
    destruct (sorted_inverses_split _ _ _ Hinv) as (S1 & S2 & HS).
    assert (NoDup (concat (sorted_inverses inv).*2)) as Hnd'.
    { rewrite sorted_inverses_concat.
      replace inv with (foldl push_inverse (∅, false) l).1 by by rewrite Hfold.
      rewrite foldl_push_inverse_concat, map_to_list_empty. done. }
    revert Hnd'. rewrite HS, fmap_app, fmap_cons, concat_app, concat_cons. simpl.
    rewrite HB. intros Hnd'. unfold vm_at.
    rewrite (numbered_lookup _ (length (concat S1.*2 ++ B1)) a.1 Hnd').
    2:{ rewrite <- !app_assoc, app_assoc. simpl. apply list_lookup_middle. done. }
    rewrite (numbered_lookup _ (length (concat S1.*2 ++ B1 ++ a.1 :: B2)) c.1 Hnd').
    2:{ replace (concat S1.*2 ++ (B1 ++ a.1 :: B2 ++ c.1 :: B3) ++ concat S2.*2)
          with ((concat S1.*2 ++ B1 ++ a.1 :: B2) ++ c.1 :: B3 ++ concat S2.*2).
        - by apply list_lookup_middle.
        - rewrite <- !app_assoc. simpl. rewrite <- !app_assoc. done. }
    cbn [default]. rewrite !length_app. cbn [length].
    unfold id. lia.
  - exfalso. assert (NoDup l.*2) as Hnd2.
    { apply collect_no_duplicate. by rewrite Hfold. }
    assert (i = j); [|lia].
    apply (NoDup_lookup l.*2 i j a.2 Hnd2).
    + by rewrite list_lookup_fmap, Hi.
    + by rewrite list_lookup_fmap, Hj, Heq.
Qed.

End GlobalIndexFacts.

(** ** CSR graph *)

Module CSRFacts.
Import CSR CSRSpec.

Lemma length_partial_sum_from acc l : length (partial_sum_from acc l) = length l.
Proof. revert acc. induction l; intros; simpl; auto. Qed.

Lemma last_partial_sum_from acc l d :
  l ≠ [] → List.last (partial_sum_from acc l) d = acc + sumN l.
Proof.
  revert acc. induction l as [|x l IH]; intros acc Hne; [done|].
  destruct l as [|y l].
  - simpl. lia.
  - change (partial_sum_from acc (x :: y :: l))
      with ((acc + x) :: partial_sum_from (acc + x) (y :: l)).
    assert (∀ (a : N) l', l' ≠ [] → List.last (a :: l') d = List.last l' d) as Hlast
      by (intros ? [|??]; done).
    rewrite Hlast.
    + rewrite IH by done. simpl. lia.
    + simpl. done.
Qed.

Lemma lookup_partial_sum_from acc l i :
  (i < length l)%nat →
  partial_sum_from acc l !! i = Some (acc + sumN (take (S i) l)).
Proof.
  revert acc i. induction l as [|x l IH]; intros acc i Hi; simpl in *; [lia|].
  destruct i as [|i]; simpl.
  - destruct l; simpl; f_equal; lia.
  - rewrite IH by lia. f_equal. simpl. lia.
Qed.

Lemma sumN_app l1 l2 : sumN (l1 ++ l2) = sumN l1 + sumN l2.
Proof. induction l1; simpl; lia. Qed.

Lemma sumN_take_le l i : sumN (take i l) ≤ sumN l.
Proof. rewrite <- (take_drop i l) at 2. rewrite sumN_app. lia. Qed.

Lemma sumN_take_S l i x :
  l !! i = Some x → sumN (take (S i) l) = sumN (take i l) + x.
Proof.
  intros Hi. rewrite (take_S_r _ _ _ Hi), sumN_app. simpl. lia.
Qed.

Lemma sumN_insert l i x :
  l !! i = Some 0 → sumN (<[i := x]> l) = sumN l + x.
Proof.
  revert i. induction l as [|y l IH]; intros [|i] Hi; simpl in *; try done.
  - simplify_eq. lia.
  - rewrite IH by done. lia.
Qed.

Lemma sumN_replicate n : sumN (replicate n 0) = 0.
Proof. induction n; simpl; lia. Qed.

(** C6 on the container itself: the value array has one slot per counted
    edge, or a single dummy slot when no edge was counted. *)
Lemma prepare_for_use_vals g :
  offsets g ≠ [] →
  length (vals (prepare_for_use g)) = Nat.max (N.to_nat (sumN (offsets g))) 1.
Proof.
  intros Hne. unfold prepare_for_use, partial_sum. simpl.
  rewrite last_partial_sum_from by done. rewrite N.add_0_l.
  destruct (N.to_nat (sumN (offsets g))) as [|k] eqn:Hk; simpl; [done|].
  rewrite length_replicate. lia.
Qed.

Lemma prepare_for_use_offsets g : offsets (prepare_for_use g) = partial_sum (offsets g).
Proof. done. Qed.

Lemma set_entry_ok b line g row nonzero value o :
  offsets g !! N.to_nat row = Some o →
  (N.to_nat o + nonzero < length (vals g))%nat →
  ∃ g', set_entry b line g row nonzero value = Ok g' ∧
        offsets g' = offsets g ∧ length (vals g') = length (vals g).
Proof.
  intros Ho Hlt. unfold set_entry. rewrite (vec_at_lookup _ _ _ _ Ho). simpl.
  rewrite libmesh_assert_decide by done. simpl.
  unfold vec_set. rewrite bool_decide_eq_true_2 by done. simpl.
  eexists; split; [done|]. simpl. by rewrite length_insert.
Qed.

Lemma set_entry_shape b line g row nonzero value g' :
  set_entry b line g row nonzero value = Ok g' →
  offsets g' = offsets g ∧ length (vals g') = length (vals g).
Proof.
  unfold set_entry, vec_set. destruct (vec_at _ _ _) as [o|]; simpl; [|done].
  destruct (libmesh_assert _ _ _); simpl; [|done].
  case_bool_decide; simpl; [|done]. intros [= <-]. simpl. by rewrite length_insert.
Qed.

End CSRFacts.

(** ** CSR graph builder: the two passes *)

Module GraphFacts.
Import CSR Graph CSRSpec CSRFacts.

Section passes.
Context (b : Build) (view : MeshView) (global_index_map : vectormap).
Context (interior_to_boundary_map : list (N * N)).

Local Abbreviation in_range := (Graph.in_range view global_index_map).
Local Abbreviation index_of := (Graph.index_of view global_index_map).
Local Abbreviation connected_offspring := (GraphSpec.connected_offspring view global_index_map).
Local Abbreviation side_width := (GraphSpec.side_width b view global_index_map).
Local Abbreviation face_width := (GraphSpec.face_width b view global_index_map).
Local Abbreviation interior_in_mesh := (GraphSpec.interior_in_mesh view).
Local Abbreviation row_width := (GraphSpec.row_width b view global_index_map interior_to_boundary_map).
Local Abbreviation row_written := (GraphSpec.row_written b view global_index_map interior_to_boundary_map).
Local Abbreviation links_consistent := (GraphSpec.links_consistent view).
Local Abbreviation interior_neighbors_in_range := (GraphSpec.interior_neighbors_in_range view global_index_map).
Local Abbreviation widths_offsets := (GraphSpec.widths_offsets b view global_index_map interior_to_boundary_map).
Local Abbreviation total_edge_count := (GraphSpec.total_edge_count b view global_index_map interior_to_boundary_map).
Local Abbreviation range_ok := (GraphSpec.range_ok view global_index_map).
Local Abbreviation same_shape := GraphSpec.same_shape.

Lemma face_width_cons elem neighbor rest :
  face_width elem (neighbor :: rest) = (side_width elem neighbor + face_width elem rest)%nat.
Proof. done. Qed.

Lemma row_written_le elem : (row_written elem ≤ row_width elem)%nat.
Proof.
  unfold GraphSpec.row_written, GraphSpec.row_width, GraphSpec.interior_in_mesh.
  destruct (has_interior_parent b view elem); [|lia].
  pose proof (length_filter
    (λ neighbor, query_elem_ptr view (elem_id view neighbor) = Some neighbor)
    (find_interior_neighbors view elem)). lia.
Qed.

(** *** Pass 1 *)

Lemma count_offspring_ok elem ns offspring k :
  (∀ child, child ∈ offspring → neighbor_ptr view child ns = Some elem →
     active view child = true) →
  count_offspring b view global_index_map elem ns offspring k
    = Ok (k + length (connected_offspring elem ns offspring))%nat.
Proof.
  revert k. induction offspring as [|child rest IH]; intros k Hact; simpl.
  - f_equal. unfold GraphSpec.connected_offspring. simpl. lia.
  - unfold GraphSpec.connected_offspring. rewrite filter_cons.
    fold (connected_offspring elem ns rest).
    assert (∀ c, c ∈ rest → neighbor_ptr view c ns = Some elem → active view c = true)
      as Hrest by (intros; apply Hact; [by right|done]).
    destruct (in_range child) eqn:Hin; simpl.
    + case_bool_decide as Hnb.
      * rewrite decide_True by done. rewrite Hact; [|by left|done].
        rewrite libmesh_assert_true. simpl. rewrite IH by done. f_equal. simpl. lia.
      * rewrite decide_False by (intros [_ ?]; done). by apply IH.
    + by apply IH.
Qed.

Lemma count_face_neighbors_ok elem neighbors k :
  (∀ neighbor, Some neighbor ∈ neighbors → active view neighbor = false →
     (which_neighbor_am_i view neighbor elem < n_neighbors view neighbor)%nat ∧
     ∀ child, child ∈ active_family_tree view neighbor →
       neighbor_ptr view child (which_neighbor_am_i view neighbor elem) = Some elem →
       active view child = true) →
  count_face_neighbors b view global_index_map elem neighbors k
    = Ok (k + face_width elem neighbors)%nat.
Proof.
  revert k. induction neighbors as [|[neighbor|] rest IH]; intros k Hcons.
  - simpl. f_equal. unfold GraphSpec.face_width. simpl. lia.
  - assert (∀ nb, Some nb ∈ rest → active view nb = false →
      (which_neighbor_am_i view nb elem < n_neighbors view nb)%nat ∧
      ∀ child, child ∈ active_family_tree view nb →
        neighbor_ptr view child (which_neighbor_am_i view nb elem) = Some elem →
        active view child = true) as Hrest by (intros; apply Hcons; [by right|done]).
    rewrite face_width_cons. cbn [count_face_neighbors GraphSpec.side_width].
    destruct (active view neighbor) eqn:Hact; simpl.
    + destruct (in_range neighbor); simpl; rewrite IH by done; f_equal; lia.
    + destruct (LIBMESH_ENABLE_AMR b).
      * destruct (Hcons neighbor) as [Hns Hchildren]; [by left|done|].
        rewrite libmesh_assert_decide by done. simpl.
        rewrite count_offspring_ok by done. simpl.
        rewrite IH by done. f_equal. lia.
      * rewrite IH by done. f_equal; lia.
  - rewrite face_width_cons. cbn [count_face_neighbors GraphSpec.side_width].
    rewrite IH; [f_equal; lia|]. intros; apply Hcons; [by right|done].
Qed.

Lemma count_neighbors_ok elem :
  links_consistent elem →
  count_neighbors b view global_index_map interior_to_boundary_map elem = Ok (row_width elem).
Proof.
  intros Hcons. unfold count_neighbors.
  rewrite count_face_neighbors_ok by exact Hcons. simpl. unfold GraphSpec.row_width.
  destruct (has_interior_parent b view elem); f_equal; lia.
Qed.

(** *** Pass 2 *)

Lemma same_shape_refl g : same_shape g g.
Proof. done. Qed.

Lemma same_shape_trans g1 g2 g3 : same_shape g1 g2 → same_shape g2 g3 → same_shape g1 g3.
Proof. intros [??] [??]. split; congruence. Qed.

Lemma set_entry_room line g elem c value o :
  offsets g !! N.to_nat (index_of elem) = Some o →
  (N.to_nat o + c < length (vals g))%nat →
  ∃ g', set_entry b line g (index_of elem) c value = Ok g' ∧ same_shape g g'.
Proof. intros Ho Hlt. by apply set_entry_ok with o. Qed.

Lemma fill_offspring_ok elem ns offspring g c o :
  offsets g !! N.to_nat (index_of elem) = Some o →
  (N.to_nat o + c + length (connected_offspring elem ns offspring) ≤ length (vals g))%nat →
  (∀ child, child ∈ offspring → neighbor_ptr view child ns = Some elem →
     active view child = true) →
  ∃ g', fill_offspring b view global_index_map elem ns offspring (g, c)
          = Ok (g', (c + length (connected_offspring elem ns offspring))%nat)
        ∧ same_shape g g'.
Proof.
  revert g c. induction offspring as [|child rest IH]; intros g c Ho Hroom Hact.
  - simpl. exists g. split; [|done]. do 2 f_equal. unfold GraphSpec.connected_offspring. simpl. lia.
  - assert (∀ c, c ∈ rest → neighbor_ptr view c ns = Some elem → active view c = true)
      as Hrest by (intros; apply Hact; [by right|done]).
    revert Hroom. unfold GraphSpec.connected_offspring. rewrite filter_cons.
    fold (connected_offspring elem ns rest). cbn [fill_offspring].
    destruct (in_range child) eqn:Hin; cbn [negb].
    + case_bool_decide as Hnb.
      * rewrite decide_True by done. cbn [length]. intros Hroom.
        rewrite Hact; [|by left|done]. rewrite libmesh_assert_true. cbn [mbind res_bind fst snd].
        destruct (set_entry_room 438 g elem c (index_of child) o Ho) as (g1 & -> & Hs1); [lia|].
        cbn [mbind res_bind].
        destruct (IH g1 (S c)) as (g2 & -> & Hs2); [by rewrite (proj1 Hs1)| |done|].
        { rewrite (proj2 Hs1). lia. }
        exists g2. split; [do 2 f_equal; lia|by eapply same_shape_trans].
      * rewrite decide_False by (intros [_ ?]; done). intros Hroom. by apply IH.
    + rewrite decide_False by (intros [? _]; done). intros Hroom. by apply IH.
Qed.

Lemma fill_face_neighbors_ok elem neighbors g c o :
  offsets g !! N.to_nat (index_of elem) = Some o →
  (N.to_nat o + c + face_width elem neighbors ≤ length (vals g))%nat →
  (∀ neighbor, Some neighbor ∈ neighbors → active view neighbor = false →
     (which_neighbor_am_i view neighbor elem < n_neighbors view neighbor)%nat ∧
     ∀ child, child ∈ active_family_tree view neighbor →
       neighbor_ptr view child (which_neighbor_am_i view neighbor elem) = Some elem →
       active view child = true) →
  ∃ g', fill_face_neighbors b view global_index_map elem neighbors (g, c)
          = Ok (g', (c + face_width elem neighbors)%nat)
        ∧ same_shape g g'.
Proof.
  revert g c. induction neighbors as [|[neighbor|] rest IH]; intros g c Ho Hroom Hcons.
  - simpl. exists g. split; [|done]. do 2 f_equal. unfold GraphSpec.face_width. simpl. lia.
  - assert (∀ nb, Some nb ∈ rest → active view nb = false →
      (which_neighbor_am_i view nb elem < n_neighbors view nb)%nat ∧
      ∀ child, child ∈ active_family_tree view nb →
        neighbor_ptr view child (which_neighbor_am_i view nb elem) = Some elem →
        active view child = true) as Hrest by (intros; apply Hcons; [by right|done]).
    revert Hroom. rewrite face_width_cons. cbn [fill_face_neighbors GraphSpec.side_width].
    destruct (active view neighbor) eqn:Hact; cbn [andb].
    + destruct (in_range neighbor); cbn [negb]; intros Hroom.
      * cbn [fst snd].
        destruct (set_entry_room 403 g elem c (index_of neighbor) o Ho) as (g1 & -> & Hs1);
          [lia|]. cbn [mbind res_bind].
        destruct (IH g1 (S c)) as (g2 & -> & Hs2); [by rewrite (proj1 Hs1)| |done|].
        { rewrite (proj2 Hs1). lia. }
        exists g2. split; [do 2 f_equal; lia|by eapply same_shape_trans].
      * destruct (IH g c) as (g2 & -> & Hs2); [done|lia|done|].
        exists g2. split; [do 2 f_equal; lia|done].
    + destruct (LIBMESH_ENABLE_AMR b); intros Hroom.
      * destruct (Hcons neighbor) as [Hns Hchildren]; [by left|done|].
        rewrite libmesh_assert_decide by done. cbn [mbind res_bind].
        destruct (fill_offspring_ok elem (which_neighbor_am_i view neighbor elem)
                    (active_family_tree view neighbor) g c o Ho) as (g1 & -> & Hs1);
          [lia|done|]. cbn [mbind res_bind].
        destruct (IH g1 (c + length (connected_offspring elem
                    (which_neighbor_am_i view neighbor elem)
                    (active_family_tree view neighbor)))%nat)
          as (g2 & -> & Hs2); [by rewrite (proj1 Hs1)| |done|].
        { rewrite (proj2 Hs1). lia. }
        exists g2. split; [do 2 f_equal; lia|by eapply same_shape_trans].
      * destruct (IH g c) as (g2 & -> & Hs2); [done|lia|done|].
        exists g2. split; [do 2 f_equal; lia|done].
  - revert Hroom. rewrite face_width_cons. cbn [fill_face_neighbors GraphSpec.side_width]. intros Hroom.
    destruct (IH g c) as (g2 & -> & Hs2); [done|lia| |].
    { intros; apply Hcons; [by right|done]. }
    exists g2. split; [do 2 f_equal; lia|done].
Qed.

Lemma fill_interior_neighbors_ok elem neighbor_set g c o :
  offsets g !! N.to_nat (index_of elem) = Some o →
  (N.to_nat o + c + length (interior_in_mesh neighbor_set) ≤ length (vals g))%nat →
  (∀ neighbor, neighbor ∈ neighbor_set →
     query_elem_ptr view (elem_id view neighbor) = Some neighbor → in_range neighbor = true) →
  ∃ g', fill_interior_neighbors b view global_index_map elem neighbor_set (g, c)
          = Ok (g', (c + length (interior_in_mesh neighbor_set))%nat)
        ∧ same_shape g g'.
Proof.
  revert g c. induction neighbor_set as [|neighbor rest IH]; intros g c Ho Hroom Hin.
  - simpl. exists g. split; [|done]. do 2 f_equal. unfold GraphSpec.interior_in_mesh. simpl. lia.
  - assert (∀ nb, nb ∈ rest → query_elem_ptr view (elem_id view nb) = Some nb →
              in_range nb = true) as Hrest by (intros; apply Hin; [by right|done]).
    revert Hroom. unfold GraphSpec.interior_in_mesh. rewrite filter_cons.
    fold (interior_in_mesh rest). cbn [fill_interior_neighbors].
    case_bool_decide as Hq.
    + rewrite decide_True by done. cbn [length]. intros Hroom.
      assert (in_range neighbor = true) as Hr by (apply Hin; [by left|done]).
      unfold Graph.in_range, vm_count in Hr. apply bool_decide_eq_true in Hr as [gi Hgi].
      unfold libmesh_map_find. rewrite Hgi. cbn [mbind res_bind fst snd].
      destruct (set_entry_room 468 g elem c gi o Ho) as (g1 & -> & Hs1); [lia|].
      cbn [mbind res_bind].
      destruct (IH g1 (S c)) as (g2 & -> & Hs2); [by rewrite (proj1 Hs1)| |done|].
      { rewrite (proj2 Hs1). lia. }
      exists g2. split; [do 2 f_equal; lia|by eapply same_shape_trans].
    + rewrite decide_False by done. intros Hroom. by apply IH.
Qed.

Lemma fill_boundary_neighbors_ok elem entries g c o :
  offsets g !! N.to_nat (index_of elem) = Some o →
  (N.to_nat o + c + length entries ≤ length (vals g))%nat →
  ∃ g', fill_boundary_neighbors b view global_index_map elem entries (g, c)
          = Ok (g', (c + length entries)%nat)
        ∧ same_shape g g'.
Proof.
  revert g c. induction entries as [|pr rest IH]; intros g c Ho Hroom.
  - simpl. exists g. split; [|done]. do 2 f_equal. lia.
  - cbn [fill_boundary_neighbors length fst snd] in *.
    destruct (set_entry_room 477 g elem c (index_of pr.2) o Ho) as (g1 & -> & Hs1); [lia|].
    cbn [mbind res_bind].
    destruct (IH g1 (S c)) as (g2 & -> & Hs2); [by rewrite (proj1 Hs1)| |].
    { rewrite (proj2 Hs1). lia. }
    exists g2. split; [do 2 f_equal; lia|by eapply same_shape_trans].
Qed.

Lemma fill_row_ok elem g o :
  links_consistent elem → interior_neighbors_in_range elem →
  offsets g !! N.to_nat (index_of elem) = Some o →
  (N.to_nat o + row_written elem ≤ length (vals g))%nat →
  ∃ g', fill_row b view global_index_map interior_to_boundary_map g elem
          = Ok (g', row_written elem)
        ∧ same_shape g g'.
Proof.
  intros Hcons Hint Ho Hroom. unfold fill_row, GraphSpec.row_written in *.
  destruct (fill_face_neighbors_ok elem (neighbor_ptr_range view elem) g 0 o Ho)
    as (g1 & -> & Hs1); [lia|exact Hcons|]. cbn [mbind res_bind].
  destruct (has_interior_parent b view elem).
  - destruct (fill_interior_neighbors_ok elem (find_interior_neighbors view elem) g1
                (0 + face_width elem (neighbor_ptr_range view elem))%nat o)
      as (g2 & -> & Hs2); [by rewrite (proj1 Hs1)| |exact Hint|].
    { rewrite (proj2 Hs1). lia. }
    cbn [mbind res_bind].
    destruct (fill_boundary_neighbors_ok elem (equal_range b interior_to_boundary_map elem) g2
                (0 + face_width elem (neighbor_ptr_range view elem)
                 + length (interior_in_mesh (find_interior_neighbors view elem)))%nat o)
      as (g3 & -> & Hs3).
    { rewrite (proj1 Hs2), (proj1 Hs1). done. }
    { rewrite (proj2 Hs2), (proj2 Hs1). lia. }
    exists g3. split; [do 2 f_equal; lia|].
    eapply same_shape_trans; [|done]. by eapply same_shape_trans.
  - cbn [mbind res_bind].
    destruct (fill_boundary_neighbors_ok elem (equal_range b interior_to_boundary_map elem) g1
                (0 + face_width elem (neighbor_ptr_range view elem))%nat o)
      as (g3 & -> & Hs3).
    { by rewrite (proj1 Hs1). }
    { rewrite (proj2 Hs1). lia. }
    exists g3. split; [do 2 f_equal; lia|]. by eapply same_shape_trans.
Qed.

(** Where every interior neighbor belongs to this mesh, pass 2 writes as
    many entries as pass 1 counted. *)
Lemma row_written_full elem :
  (∀ neighbor, neighbor ∈ find_interior_neighbors view elem →
     query_elem_ptr view (elem_id view neighbor) = Some neighbor) →
  row_written elem = row_width elem.
Proof.
  intros Hin. unfold GraphSpec.row_written, GraphSpec.row_width, GraphSpec.interior_in_mesh.
  destruct (has_interior_parent b view elem); [|done]. do 2 f_equal.
  induction (find_interior_neighbors view elem) as [|x l IH]; [done|].
  rewrite filter_cons, decide_True by (apply Hin; by left).
  simpl. f_equal. apply IH. intros; apply Hin; by right.
Qed.

(** An interior neighbor that belongs to another mesh is counted by pass 1
    and not written by pass 2. *)
Lemma row_written_short elem neighbor :
  has_interior_parent b view elem = true →
  neighbor ∈ find_interior_neighbors view elem →
  query_elem_ptr view (elem_id view neighbor) ≠ Some neighbor →
  (row_written elem < row_width elem)%nat.
Proof.
  intros Hip Hin Hq. unfold GraphSpec.row_written, GraphSpec.row_width, GraphSpec.interior_in_mesh.
  rewrite Hip.
  pose proof (length_filter_lt
    (λ nb, query_elem_ptr view (elem_id view nb) = Some nb) _ _ Hin Hq). lia.
Qed.

(** *** The passes over the range *)

Lemma length_widths_offsets range offs : length (widths_offsets range offs) = length offs.
Proof.
  revert offs. induction range as [|e rest IH]; intros offs; simpl; [done|].
  by rewrite IH, length_insert.
Qed.

Lemma widths_offsets_other range offs k :
  (∀ e, e ∈ range → index_of e ≠ k) →
  widths_offsets range offs !! (N.to_nat k + 1)%nat = offs !! (N.to_nat k + 1)%nat.
Proof.
  revert offs. induction range as [|e rest IH]; intros offs Hne; simpl; [done|].
  rewrite IH by (intros; apply Hne; by right).
  apply list_lookup_insert_ne. specialize (Hne e (list_elem_of_here _ _)). lia.
Qed.

Lemma NoDup_index_cons e rest :
  NoDup (Graph.index_of view global_index_map <$> e :: rest) →
  (∀ e', e' ∈ rest → index_of e' ≠ index_of e) ∧
  NoDup (Graph.index_of view global_index_map <$> rest).
Proof.
  rewrite fmap_cons. intros [Hnotin Hnd]%NoDup_cons. split; [|done].
  intros e' He' Heq. apply Hnotin. rewrite <- Heq. by apply list_elem_of_fmap_2.
Qed.

Lemma widths_offsets_lookup range offs e :
  NoDup (Graph.index_of view global_index_map <$> range) → e ∈ range →
  (N.to_nat (index_of e) + 1 < length offs)%nat →
  widths_offsets range offs !! (N.to_nat (index_of e) + 1)%nat = Some (N.of_nat (row_width e)).
Proof.
  revert offs. induction range as [|e0 rest IH]; intros offs Hnd Hin Hlen.
  - by apply elem_of_nil in Hin.
  - apply NoDup_index_cons in Hnd as [Hne Hnd]. simpl.
    apply elem_of_cons in Hin as [->|Hin].
    + rewrite widths_offsets_other by done. by apply list_lookup_insert_eq.
    + apply IH; [done|done|]. by rewrite length_insert.
Qed.

Lemma widths_offsets_sum range offs :
  NoDup (Graph.index_of view global_index_map <$> range) →
  (∀ e, e ∈ range → offs !! (N.to_nat (index_of e) + 1)%nat = Some 0) →
  sumN (widths_offsets range offs) = sumN offs + N.of_nat (total_edge_count range).
Proof.
  revert offs. induction range as [|e rest IH]; intros offs Hnd Hzero.
  - simpl. unfold GraphSpec.total_edge_count. simpl. lia.
  - apply NoDup_index_cons in Hnd as [Hne Hnd]. simpl. rewrite IH; [|done|].
    + rewrite sumN_insert by (apply Hzero; by left).
      unfold GraphSpec.total_edge_count. rewrite fmap_cons. simpl.
      fold (total_edge_count rest). lia.
    + intros e' He'. rewrite list_lookup_insert_ne; [apply Hzero; by right|].
      specialize (Hne e' He'). lia.
Qed.

Lemma first_pass_step_ok weights st elem :
  links_consistent elem →
  (N.to_nat (index_of elem) < length (vwgt st))%nat →
  offsets (csr_graph st) !! (N.to_nat (index_of elem) + 1)%nat = Some 0 →
  first_pass_step b view global_index_map interior_to_boundary_map weights st elem =
    Ok {| csr_graph :=
            {| offsets := <[(N.to_nat (index_of elem) + 1)%nat := N.of_nat (row_width elem)]>
                            (offsets (csr_graph st));
               vals := vals (csr_graph st) |};
          vwgt := <[N.to_nat (index_of elem) := vertex_weight b view weights elem]> (vwgt st);
          graph_size := (graph_size st + row_width elem)%nat |}.
Proof.
  intros Hcons Hlt Hzero. apply lookup_lt_Some in Hzero as Hlen.
  unfold first_pass_step, prep_n_nonzeros, vec_set.
  rewrite count_neighbors_ok by done.
  rewrite !libmesh_assert_decide by done.
  rewrite !bool_decide_eq_true_2 by done. done.
Qed.

Lemma first_pass_ok weights range st :
  (∀ e, e ∈ range → links_consistent e) →
  (∀ e, e ∈ range → (N.to_nat (index_of e) < length (vwgt st))%nat) →
  NoDup (Graph.index_of view global_index_map <$> range) →
  (∀ e, e ∈ range → offsets (csr_graph st) !! (N.to_nat (index_of e) + 1)%nat = Some 0) →
  ∃ st', first_pass b view global_index_map interior_to_boundary_map weights range st = Ok st' ∧
         offsets (csr_graph st') = widths_offsets range (offsets (csr_graph st)) ∧
         vals (csr_graph st') = vals (csr_graph st) ∧
         graph_size st' = (graph_size st + total_edge_count range)%nat ∧
         length (vwgt st') = length (vwgt st).
Proof.
  revert st. induction range as [|e rest IH]; intros st Hcons Hlt Hnd Hzero.
  - exists st. unfold GraphSpec.total_edge_count. simpl. repeat split; try done; lia.
  - apply NoDup_index_cons in Hnd as [Hne Hnd]. cbn [first_pass].
    rewrite first_pass_step_ok; [|apply Hcons; by left|apply Hlt; by left|apply Hzero; by left].
    cbn [mbind res_bind].
    destruct (IH {| csr_graph :=
            {| offsets := <[(N.to_nat (index_of e) + 1)%nat := N.of_nat (row_width e)]>
                            (offsets (csr_graph st));
               vals := vals (csr_graph st) |};
          vwgt := <[N.to_nat (index_of e) := vertex_weight b view weights e]> (vwgt st);
          graph_size := (graph_size st + row_width e)%nat |})
      as (st' & -> & Hoffs & Hvals & Hsize & Hvw); simpl.
    + intros; apply Hcons; by right.
    + intros. rewrite length_insert. apply Hlt; by right.
    + done.
    + intros e' He'. rewrite list_lookup_insert_ne; [apply Hzero; by right|].
      specialize (Hne e' He'). lia.
    + exists st'. simpl in *. repeat split; try done.
      * rewrite Hsize. unfold GraphSpec.total_edge_count. rewrite fmap_cons. simpl. lia.
      * by rewrite Hvw, length_insert.
Qed.

Lemma second_pass_ok range g :
  (∀ e, e ∈ range → links_consistent e ∧ interior_neighbors_in_range e ∧
     ∃ o, offsets g !! N.to_nat (index_of e) = Some o ∧
          (N.to_nat o + row_written e ≤ length (vals g))%nat) →
  ∃ g', second_pass b view global_index_map interior_to_boundary_map range g = Ok g' ∧
        same_shape g g'.
Proof.
  revert g. induction range as [|e rest IH]; intros g Hok.
  - by exists g.
  - cbn [second_pass].
    destruct (Hok e) as (Hcons & Hint & o & Ho & Hroom); [by left|].
    destruct (fill_row_ok e g o Hcons Hint Ho Hroom) as (g1 & -> & Hs1).
    cbn [mbind res_bind fst].
    destruct (IH g1) as (g2 & -> & Hs2).
    + intros e' He'. destruct (Hok e') as (? & ? & o' & ? & ?); [by right|].
      split; [done|]. split; [done|]. exists o'. by rewrite (proj1 Hs1), (proj2 Hs1).
    + exists g2. split; [done|]. by eapply same_shape_trans.
Qed.

Lemma build_graph_ok weights range :
  range_ok range →
  ∃ g vw, build_graph b view global_index_map interior_to_boundary_map weights range
            = Ok (g, vw) ∧
          length (vals g) = Nat.max (total_edge_count range) 1 ∧
          length (offsets g) = S (length range) ∧
          length vw = length range.
Proof.
  intros (Hwf & Hnd & Hlt). unfold build_graph.
  destruct (first_pass_ok weights range
    {| csr_graph := {| offsets := replicate (length range + 1) 0; vals := [] |};
       vwgt := replicate (length range) 0%Z; graph_size := 0 |})
    as (st & -> & Hoffs & Hvals & Hsize & Hvw); simpl.
  { intros; by apply Hwf. }
  { intros. rewrite length_replicate. by apply Hlt. }
  { done. }
  { intros e He. apply lookup_replicate_2. specialize (Hlt e He). lia. }
  simpl in *. cbn [mbind res_bind].
  set (raw := widths_offsets range (replicate (length range + 1) 0)) in *.
  assert (length raw = S (length range)) as Hraw
    by (unfold raw; rewrite length_widths_offsets, length_replicate; lia).
  assert (sumN raw = N.of_nat (total_edge_count range)) as Hsum.
  { unfold raw. rewrite widths_offsets_sum, sumN_replicate; [lia|done|].
    intros e He. apply lookup_replicate_2. specialize (Hlt e He). lia. }
  assert (offsets (csr_graph st) ≠ []) as Hne
    by (rewrite Hoffs; intros Heq; by rewrite Heq in Hraw).
  pose proof (prepare_for_use_vals (csr_graph st) Hne) as Hlen.
  rewrite Hoffs, Hsum, Nat2N.id in Hlen.
  destruct (second_pass_ok range (prepare_for_use (csr_graph st))) as (g & -> & Hs).
  { intros e He. destruct (Hwf e He) as [Hcons Hint]. split; [done|]. split; [done|].
    specialize (Hlt e He).
    exists (0 + sumN (take (S (N.to_nat (index_of e))) raw)). split.
    - rewrite prepare_for_use_offsets, Hoffs. apply lookup_partial_sum_from. lia.
    - rewrite Hlen.
      assert (raw !! (N.to_nat (index_of e) + 1)%nat = Some (N.of_nat (row_width e))) as Hw.
      { unfold raw. apply widths_offsets_lookup; [done|done|].
        rewrite length_replicate. lia. }
      replace (N.to_nat (index_of e) + 1)%nat with (S (N.to_nat (index_of e))) in Hw by lia.
      pose proof (sumN_take_S raw _ _ Hw) as Hstep.
      pose proof (sumN_take_le raw (S (S (N.to_nat (index_of e))))) as Hle.
      pose proof (row_written_le e). lia. }
  cbn [mbind res_bind]. destruct Hs as [Hs1 Hs2].
  rewrite libmesh_assert_decide by (rewrite Hs2, Hlen, Hsize; done).
  cbn [mbind res_bind]. exists g, (vwgt st). repeat split.
  - by rewrite Hs2.
  - rewrite Hs1, prepare_for_use_offsets, Hoffs. unfold partial_sum.
    by rewrite length_partial_sum_from.
  - by rewrite Hvw, length_replicate.
Qed.

End passes.
End GraphFacts.

(** ** The facade *)

Module PartitionFacts.
Import GlobalIndexSpec GraphSpec PartitionSpec.

(** *** Owners written by a loop over the range *)

Lemma foldl_insert_lookup (f : N → N) (range : list N) (owners : gmap N N) e :
  foldl (λ o x, <[x := f x]> o) owners range !! e =
    if decide (e ∈ range) then Some (f e) else owners !! e.
Proof.
  revert owners. induction range as [|x rest IH]; intros owners; cbn [foldl].
  - by rewrite decide_False by apply not_elem_of_nil.
  - rewrite IH. destruct (decide (e ∈ rest)) as [Hin|Hnotin].
    + by rewrite decide_True by by right.
    + destruct (decide (e = x)) as [->|Hne].
      * rewrite decide_True by by left. apply lookup_insert_eq.
      * rewrite decide_False by (intros [?|?]%elem_of_cons; done).
        by apply lookup_insert_ne.
Qed.

Lemma with_owners_id m : with_owners m (elem_processor_id m) = m.
Proof. by destruct m. Qed.

Lemma single_partition_range_run range p m :
  single_partition_range range (p, m) =
    ((p, with_owners m (foldl (λ o x, <[x := 0]> o) (elem_processor_id m) range)), Ok tt).
Proof.
  revert m. induction range as [|e rest IH]; intros m; simpl.
  - by rewrite with_owners_id.
  - unfold mbind, prog_bind, set_elem_processor_id. simpl. by rewrite IH.
Qed.

(** *** What a step leaves alone *)

Lemma quiet_refl k st : quiet k st st.
Proof. exists [], []. by rewrite !app_nil_r. Qed.

Lemma quiet_trans k st1 st2 st3 : quiet k st1 st2 → quiet k st2 st3 → quiet k st1 st3.
Proof.
  intros (nc1 & no1 & Hc1 & Ho1 & Hfc1 & Hfo1 & Hs1) (nc2 & no2 & Hc2 & Ho2 & Hfc2 & Hfo2 & Hs2).
  exists (nc1 ++ nc2), (no1 ++ no2). rewrite Hc2, Hc1, Ho2, Ho1, Hs2, Hs1, !app_assoc.
  repeat split; try done; by apply Forall_app.
Qed.

Lemma frame_ret {A} k (a : A) : frame k (mret a).
Proof. intros st. apply quiet_refl. Qed.

Lemma frame_lift {A} k (r : res A) : frame k (lift r).
Proof. intros st. apply quiet_refl. Qed.

Lemma frame_get_mesh k : frame k get_mesh.
Proof. intros st. apply quiet_refl. Qed.

Lemma frame_bind {A B} k (f : prog A) (g : A → prog B) :
  frame k f → (∀ a, frame k (g a)) → frame k (f ≫= g).
Proof.
  intros Hf Hg st. unfold mbind, prog_bind. specialize (Hf st).
  destruct (f st) as [st' [a|h]]; [|done]. eapply quiet_trans; [done|apply Hg].
Qed.

Lemma frame_record k c :
  c ≠ call_allgather → (∀ e, engine_of c = Some e → e = engine_for k) → frame k (record c).
Proof.
  intros Hc He st. exists [c], []. simpl. rewrite app_nil_r. repeat split; try done.
  by repeat constructor.
Qed.

Lemma frame_print k msg : msg ≠ WARNING_forced_to_gather → frame k (print msg).
Proof.
  intros Hmsg st. exists [], [msg]. simpl. rewrite app_nil_r. repeat split; try done.
  by repeat constructor.
Qed.

Lemma frame_set_elem_processor_id k elem procid : frame k (set_elem_processor_id elem procid).
Proof. intros st. exists [], []. simpl. by rewrite !app_nil_r. Qed.

Lemma frame_assign_processor_ids k b view gim part range :
  frame k (assign_processor_ids b view gim part range).
Proof.
  induction range as [|e rest IH]; simpl; [apply frame_ret|].
  repeat (apply frame_bind; [first [apply frame_lift|apply frame_set_elem_processor_id]|intros ?]).
  done.
Qed.

Lemma frame_invoke_engine k b env n g vwgt : frame k (invoke_engine b env n g vwgt k).
Proof.
  unfold invoke_engine. case_bool_decide as Hk.
  - apply frame_bind; [|intros; apply frame_ret]. apply frame_record; [done|].
    intros e [= <-]. unfold engine_for. by rewrite bool_decide_eq_true_2.
  - apply frame_bind; [|intros; apply frame_ret]. apply frame_record; [done|].
    intros e [= <-]. unfold engine_for. by rewrite bool_decide_eq_false_2.
Qed.

Lemma frame_broadcast k env part : frame k (broadcast env part).
Proof.
  unfold broadcast. apply frame_bind; [apply frame_get_mesh|intros m].
  apply frame_bind; [|intros; apply frame_ret]. by apply frame_record.
Qed.

Lemma frame_metis_partition_range k b env range : frame k (metis_partition_range b env range k).
Proof.
  unfold metis_partition_range.
  apply frame_bind; [by apply frame_record|intros _].
  apply frame_bind; [apply frame_lift|intros gim].
  apply frame_bind; [apply frame_get_mesh|intros m].
  apply frame_bind; [|intros part].
  - case_bool_decide; [|apply frame_ret].
    apply frame_bind; [apply frame_lift|intros gw]. apply frame_invoke_engine.
  - apply frame_bind; [apply frame_broadcast|intros part'].
    apply frame_assign_processor_ids.
Qed.

Lemma frame_fallback k env range :
  frame k (_ ← libmesh_do_once (print ERROR_built_without_Metis);
           _ ← record (call_SFCPartitioner_partition_range range k);
           sfc_partition_range env range k).
Proof.
  apply frame_bind; [|intros _; apply frame_bind; [by apply frame_record|intros _]].
  - intros st. unfold libmesh_do_once. destruct (once_done st.1); [apply quiet_refl|].
    exists [], [ERROR_built_without_Metis]. simpl. rewrite app_nil_r.
    repeat split; try done. by repeat constructor.
  - intros st. exists [], []. simpl. by rewrite !app_nil_r.
Qed.

Lemma frame_after_gather k b env range : frame k (after_gather b env range k).
Proof.
  unfold after_gather. destruct (LIBMESH_HAVE_METIS b);
    [apply frame_metis_partition_range|apply frame_fallback].
Qed.

Lemma partition_range_general b env range k st :
  range ≠ [] → k ≠ 1 → (NDEBUG b = false → 0 < k) →
  partition_range b env range k st = after_gather b env range k (gathered st).
Proof.
  intros Hne Hk Hpos. unfold partition_range.
  rewrite bool_decide_eq_false_2 by done. rewrite bool_decide_eq_false_2 by done.
  unfold mbind at 1, prog_bind at 1, lift.
  assert (libmesh_assert b 84 (bool_decide (0 < k)) = Ok tt) as ->.
  { unfold libmesh_assert. destruct (NDEBUG b); [done|]. by rewrite bool_decide_eq_true_2 by auto. }
  unfold mbind at 1, prog_bind at 1, get_mesh.
  unfold mbind at 1, prog_bind at 1. unfold gathered.
  destruct (is_serial st.2); [done|].
  unfold mbind, prog_bind, print, record, allgather. simpl. done.
Qed.

Lemma partition_range_single b env range st :
  range ≠ [] → partition_range b env range 1 st = single_partition_range range st.
Proof. intros Hne. unfold partition_range. by rewrite bool_decide_eq_false_2 by done. Qed.

Lemma partition_range_assertion b env range st :
  range ≠ [] → NDEBUG b = false →
  partition_range b env range 0 st = (st, Halted (assertion_failed 84)).
Proof.
  intros Hne Hnd. unfold partition_range. rewrite bool_decide_eq_false_2 by done.
  simpl. unfold mbind, prog_bind, lift, libmesh_assert. by rewrite Hnd.
Qed.

Lemma partition_range_cases b env range k st :
  partition_range b env range k st = (st, Ok tt) ∨
  partition_range b env range k st = single_partition_range range st ∨
  partition_range b env range k st = (st, Halted (assertion_failed 84)) ∨
  partition_range b env range k st = after_gather b env range k (gathered st).
Proof.
  destruct (decide (range = [])) as [->|Hne]; [by left|].
  destruct (decide (k = 1)) as [->|Hk]; [right; left; by apply partition_range_single|].
  destruct (NDEBUG b) eqn:Hnd.
  - do 3 right. apply partition_range_general; [done|done|congruence].
  - destruct (decide (0 < k)) as [Hpos|Hzero].
    + do 3 right. by apply partition_range_general.
    + assert (k = 0) as -> by lia. do 2 right. left. by apply partition_range_assertion.
Qed.

Lemma new_calls_app p (outcome : (Process * Mesh) * res unit) nc :
  calls outcome.1.1 = calls p ++ nc → new_calls p outcome = nc.
Proof. intros Hc. unfold new_calls. by rewrite Hc, drop_app_length. Qed.

Lemma new_out_app p (outcome : (Process * Mesh) * res unit) no :
  out outcome.1.1 = out p ++ no → new_out p outcome = no.
Proof. intros Ho. unfold new_out. by rewrite Ho, drop_app_length. Qed.

(** *** The pipeline on a consistent mesh *)

Section pipeline.
Context (b : Build) (env : Env) (range : list N).

Local Abbreviation ids := (elem_id (view env) <$> range).
Local Abbreviation mesh_consistent := (PartitionSpec.mesh_consistent env range).
Local Abbreviation engine_contract := (PartitionSpec.engine_contract env).
Local Abbreviation received_contract := (PartitionSpec.received_contract env range).
Local Abbreviation owner_from := (PartitionSpec.owner_from b env).
Local Abbreviation engine_part := (PartitionSpec.engine_part b env range).

Lemma pair_values_inj (l : list (N * N)) a c v :
  NoDup l.*2 → (a, v) ∈ l → (c, v) ∈ l → a = c.
Proof.
  intros Hnd [i Hi]%list_elem_of_lookup [j Hj]%list_elem_of_lookup.
  assert (i = j) as <-; [|congruence].
  apply (NoDup_lookup l.*2 i j v Hnd); rewrite list_lookup_fmap; [by rewrite Hi|by rewrite Hj].
Qed.

Lemma bijection_lookup gim id :
  NoDup ids → GlobalIndexSpec.bijection_onto_range ids gim → id ∈ ids →
  ∃ v, vm_find gim id = Some v ∧ (id, v) ∈ gim ∧ (N.to_nat v < length range)%nat.
Proof.
  intros Hnd [H1 H2] Hid. rewrite <- H1 in Hid.
  apply list_elem_of_fmap in Hid as ([id' v] & -> & Hin). simpl.
  exists v. split; [|split; [done|]].
  - apply vm_find_elem_of; [by rewrite H1|done].
  - assert (v ∈ gim.*2) as Hv by (apply list_elem_of_fmap; by exists (id', v)).
    rewrite H2, length_fmap in Hv. apply list_elem_of_fmap in Hv as (i & -> & Hi).
    apply elem_of_seq in Hi. lia.
Qed.

Lemma bijection_range_indices gim :
  NoDup ids → GlobalIndexSpec.bijection_onto_range ids gim →
  NoDup (Graph.index_of (view env) gim <$> range) ∧
  ∀ e, e ∈ range →
    Graph.in_range (view env) gim e = true ∧
    (N.to_nat (Graph.index_of (view env) gim e) < length range)%nat.
Proof.
  intros Hnd Hbij. split.
  - assert (Graph.index_of (view env) gim <$> range = vm_at gim <$> ids) as ->
      by by rewrite <- list_fmap_compose.
    apply NoDup_fmap_2_strong; [|done].
    intros id1 id2 Hin1 Hin2 Heq.
    destruct (bijection_lookup gim id1 Hnd Hbij Hin1) as (v1 & Hf1 & Hp1 & _).
    destruct (bijection_lookup gim id2 Hnd Hbij Hin2) as (v2 & Hf2 & Hp2 & _).
    unfold vm_at in Heq. rewrite Hf1, Hf2 in Heq. simpl in Heq. subst v2.
    apply (pair_values_inj gim id1 id2 v1); [|done|done].
    rewrite (proj2 Hbij). apply GlobalIndexFacts.NoDup_dense.
  - intros e He.
    destruct (bijection_lookup gim (elem_id (view env) e) Hnd Hbij) as (v & Hf & _ & Hlt).
    { by apply list_elem_of_fmap_2. }
    unfold Graph.in_range, Graph.index_of, vm_count, vm_at. rewrite Hf. simpl. done.
Qed.

Lemma range_ok_of_bijection gim :
  NoDup ids → GlobalIndexSpec.bijection_onto_range ids gim → mesh_consistent →
  GraphSpec.range_ok (view env) gim range.
Proof.
  intros Hnd Hbij Hmesh. destruct (bijection_range_indices gim Hnd Hbij) as [Hnd' Hidx].
  split; [|split; [done|intros e He; by apply Hidx]].
  intros e He. destruct (Hmesh e He) as [Hlinks Hint]. split; [done|].
  intros neighbor Hin Hq. specialize (Hint neighbor Hin Hq).
  destruct (bijection_lookup gim _ Hnd Hbij Hint) as (v & Hf & _).
  unfold Graph.in_range, vm_count. rewrite Hf. by apply bool_decide_eq_true_2.
Qed.

Lemma assign_processor_ids_run gim part rest p m :
  (∀ e, e ∈ rest →
     Graph.in_range (view env) gim e = true ∧
     (N.to_nat (Graph.index_of (view env) gim e) < length part)%nat) →
  assign_processor_ids b (view env) gim part rest (p, m) =
    ((p, with_owners m (foldl (λ o e, <[e := owner_from gim part e]> o)
                          (elem_processor_id m) rest)), Ok tt).
Proof.
  revert m. induction rest as [|e rest IH]; intros m Hok.
  - simpl. by rewrite with_owners_id.
  - destruct (Hok e) as [Hin Hlt]; [by left|].
    destruct (lookup_lt_is_Some_2 _ _ Hlt) as [v Hv].
    cbn [assign_processor_ids]. rewrite Hin, libmesh_assert_true.
    rewrite libmesh_assert_decide by done. rewrite (vec_at_lookup _ _ _ _ Hv).
    unfold mbind, prog_bind, lift, set_elem_processor_id. cbn [fst snd].
    rewrite IH by (intros; apply Hok; by right). cbn [foldl].
    assert (owner_from gim part e = v `mod` 2 ^ processor_id_bits b) as ->
      by (unfold PartitionSpec.owner_from; by rewrite Hv).
    done.
Qed.

Lemma length_engine_part g vw k : length (engine_part g vw k) = length range.
Proof. unfold PartitionSpec.engine_part. by rewrite length_fmap, length_seq. Qed.

Lemma engine_part_bound g vw k :
  engine_contract (static_cast_idx_t b (Z.of_N k)) →
  Forall (λ v, (Z.of_N v < static_cast_idx_t b (Z.of_N k))%Z) (engine_part g vw k).
Proof.
  intros Hc. unfold PartitionSpec.engine_part. apply Forall_fmap, Forall_forall. intros i _. simpl.
  case_bool_decide; apply Hc.
Qed.

Lemma invoke_engine_run g vw k p m :
  ∃ c, invoke_engine b env (length range) g vw k (p, m)
         = ((add_call p c, m), Ok (engine_part g vw k)).
Proof.
  unfold invoke_engine, PartitionSpec.engine_part. case_bool_decide; eexists; reflexivity.
Qed.

(** The run of the branch with the Metis library on a consistent mesh. *)
Lemma metis_partition_range_ok k p m :
  NoDup ids →
  GlobalIndexSpec.hints_ok b ids (find_global_indices env range) →
  mesh_consistent →
  (processor_id m ≠ 0 → length (broadcast_received env) = length range) →
  ∃ gim part p',
    GlobalIndex.build_global_index_map b ids (find_global_indices env range) = Ok gim ∧
    GlobalIndexSpec.bijection_onto_range ids gim ∧
    length part = length range ∧
    (processor_id m = 0 → ∃ g vw, part = engine_part g vw k) ∧
    (processor_id m ≠ 0 → part = broadcast_received env) ∧
    metis_partition_range b env range k (p, m) =
      ((p', with_owners m (foldl (λ o e, <[e := owner_from gim part e]> o)
                             (elem_processor_id m) range)), Ok tt) ∧
    out p' = out p ∧
    ∃ cs, calls p' = calls p ++ cs ++ [call_broadcast part].
Proof.
  intros Hnd Hhints Hmesh Hrecv.
  destruct (GlobalIndexFacts.build_global_index_map_ok b ids _ Hnd Hhints) as (gim & Hgim & Hbij).
  destruct (bijection_range_indices gim Hnd Hbij) as [_ Hidx].
  unfold metis_partition_range.
  unfold mbind at 1, prog_bind at 1, record. cbn [fst snd].
  unfold mbind at 1, prog_bind at 1, lift. rewrite Hgim.
  unfold mbind at 1, prog_bind at 1, get_mesh. cbn [fst snd].
  unfold mbind at 1, prog_bind at 1.
  destruct (decide (processor_id m = 0)) as [Hroot|Hother].
  - rewrite (bool_decide_eq_true_2 _ Hroot).
    destruct (GraphFacts.build_graph_ok b (view env) gim
                (Graph.build_interior_to_boundary_map b (view env) range) (weights env) range)
      as (g & vw & Hg & _); [by apply range_ok_of_bijection|].
    unfold mbind at 1, prog_bind at 1, lift. rewrite Hg. cbn [fst snd].
    destruct (invoke_engine_run g vw k
                (add_call p (call_find_global_indices range)) m) as [c ->].
    unfold broadcast, mbind, prog_bind, get_mesh, record, mret, prog_ret. cbn [fst snd].
    rewrite (bool_decide_eq_true_2 _ Hroot). cbv beta iota.
    rewrite assign_processor_ids_run
      by (intros e He; rewrite length_engine_part; by apply Hidx).
    exists gim, (engine_part g vw k). eexists. split; [done|]. split; [done|].
    split; [apply length_engine_part|]. split; [by eauto|]. split; [done|].
    split; [done|]. split; [done|].
    exists [call_find_global_indices range; c]. simpl. by rewrite <- !app_assoc.
  - rewrite (bool_decide_eq_false_2 _ Hother).
    unfold broadcast, mbind, prog_bind, get_mesh, record, mret, prog_ret. cbn [fst snd].
    rewrite (bool_decide_eq_false_2 _ Hother). cbv beta iota.
    rewrite assign_processor_ids_run
      by (intros e He; rewrite Hrecv by done; by apply Hidx).
    exists gim, (broadcast_received env). eexists. split; [done|]. split; [done|].
    split; [by apply Hrecv|]. split; [done|]. split; [done|].
    split; [done|]. split; [done|].
    exists [call_find_global_indices range]. simpl. by rewrite <- !app_assoc.
Qed.

End pipeline.

End PartitionFacts.

(** * Further lemmas on the components *)

Import GlobalIndexSpec CSRSpec GraphSpec PartitionSpec.
Import GlobalIndexFacts GraphFacts PartitionFacts.

(** ** Global index assigner *)

Module GlobalIndexMore.
Import GlobalIndex GlobalIndexSpec GlobalIndexFacts.

#[global] Instance key_le_total : Total key_le.
Proof. intros a c. unfold key_le. lia. Qed.

#[global] Instance key_le_trans : Transitive key_le.
Proof. intros a c d. unfold key_le. lia. Qed.

Lemma bucket_of_nonempty l h : bucket_of l h ≠ [] → h ∈ l.*2.
Proof.
  induction l as [|p l IH]; [done|]. rewrite bucket_of_cons, fmap_cons.
  case_decide as Hp; [subst; intros _; by left|]. intros ?%IH. by right.
Qed.

Lemma bucket_short_of_NoDup l h : NoDup l.*2 → (length (bucket_of l h) ≤ 1)%nat.
Proof.
  induction l as [|p l IH]; [simpl; lia|].
  rewrite fmap_cons. intros [Hnotin Hnd]%NoDup_cons. rewrite bucket_of_cons.
  case_decide as Hp; [|by apply IH]. subst h.
  destruct (bucket_of l p.2) eqn:Hb; [simpl; lia|].
  exfalso. apply Hnotin, bucket_of_nonempty. by rewrite Hb.
Qed.

Lemma collect_duplicate l :
  (foldl push_inverse (∅, false) l).2 = true → ¬ NoDup l.*2.
Proof.
  intros Htrue Hnd. destruct (collect_inv l) as [_ Hiff].
  apply Hiff in Htrue as (h & v & Hv & Hlen).
  rewrite collect_lookup in Hv. pose proof (bucket_short_of_NoDup l h Hnd) as Hshort.
  destruct (bucket_of l h); [done|]. simplify_eq. lia.
Qed.

Lemma elem_of_bucket_of (l : list (N * N)) a : a ∈ l → a.1 ∈ bucket_of l a.2.
Proof.
  intros Hin. unfold bucket_of. apply list_elem_of_fmap. exists a. split; [done|].
  by apply list_elem_of_filter.
Qed.

Lemma sorted_inverses_order inv h1 v1 h2 v2 :
  inv !! h1 = Some v1 → inv !! h2 = Some v2 → h1 < h2 →
  ∃ S1 S2 S3, sorted_inverses inv = S1 ++ (h1, v1) :: S2 ++ (h2, v2) :: S3.
Proof.
  intros H1 H2 Hlt.
  destruct (sorted_inverses_split inv h1 v1 H1) as (S1 & S2' & HS).
  assert ((h2, v2) ∈ sorted_inverses inv) as Hin.
  { unfold sorted_inverses. rewrite merge_sort_Permutation. by apply elem_of_map_to_list. }
  assert (StronglySorted key_le (sorted_inverses inv)) as Hsorted
    by (apply StronglySorted_merge_sort; apply _).
  rewrite HS in Hin, Hsorted.
  apply elem_of_app in Hin as [Hin|Hin].
  - exfalso.
    pose proof (StronglySorted_app_1_elem_of key_le S1 ((h1, v1) :: S2') (h2, v2) (h1, v1)
                  Hsorted Hin (list_elem_of_here _ _)) as Hle.
    unfold key_le in Hle. simpl in Hle. lia.
  - apply elem_of_cons in Hin as [Heq|Hin]; [simplify_eq; lia|].
    apply list_elem_of_split in Hin as (S2 & S3 & ->). by exists S1, S2, S3.
Qed.

Lemma assign_monotone b (l : list (N * N)) m a c :
  NoDup l.*1 → assign b l = Ok m → a ∈ l → c ∈ l → a.2 < c.2 →
  vm_at m a.1 < vm_at m c.1.
Proof.
  intros Hnd Hrun Ha Hc Hlt.
  assert (∀ x, x ∈ l → vm_at l x.1 = x.2) as Hplain.
  { intros [x1 x2] Hx. unfold vm_at. simpl. by rewrite (vm_find_elem_of l x1 x2 Hnd Hx). }
  rewrite assign_unfold in Hrun.
  destruct (LIBMESH_ENABLE_UNIQUE_ID b).
  { apply checks_Ok in Hrun as ->. by rewrite !Hplain. }
  destruct (foldl push_inverse (∅, false) l) as [inv found] eqn:Hfold. simpl in Hrun.
  destruct found; [|apply checks_Ok in Hrun as ->; by rewrite !Hplain].
  apply checks_Ok in Hrun. subst m. rewrite renumber_numbered.
  assert (∀ x, x ∈ l → inv !! x.2 = Some (bucket_of l x.2)) as Hinv.
  { intros x Hx. replace inv with (foldl push_inverse (∅, false) l).1 by by rewrite Hfold.
    rewrite collect_lookup. pose proof (elem_of_bucket_of l x Hx) as Hb.
    destruct (bucket_of l x.2); [by apply elem_of_nil in Hb|done]. }
  destruct (sorted_inverses_order inv _ _ _ _ (Hinv a Ha) (Hinv c Hc) Hlt)
    as (S1 & S2 & S3 & HS).
  assert (NoDup (concat (sorted_inverses inv).*2)) as Hnd'.
  { rewrite sorted_inverses_concat.
    replace inv with (foldl push_inverse (∅, false) l).1 by by rewrite Hfold.
    rewrite foldl_push_inverse_concat, map_to_list_empty. done. }
  destruct (list_elem_of_split _ _ (elem_of_bucket_of l a Ha)) as (A1 & A2 & HA).
  destruct (list_elem_of_split _ _ (elem_of_bucket_of l c Hc)) as (C1 & C2 & HC).
  revert Hnd'. rewrite HS, !fmap_app, !fmap_cons, !concat_app, !concat_cons.
  rewrite !fmap_app, !concat_app, !fmap_cons, !concat_cons. cbn [snd].
  rewrite HA, HC. intros Hnd'. unfold vm_at.
  rewrite (numbered_lookup _ (length (concat S1.*2 ++ A1)) a.1 Hnd').
  2:{ rewrite <- !app_assoc, app_assoc. simpl. by apply list_lookup_middle. }
  rewrite (numbered_lookup _
             (length (concat S1.*2 ++ (A1 ++ a.1 :: A2) ++ concat S2.*2 ++ C1)) c.1 Hnd').
  2:{ replace (concat S1.*2 ++ (A1 ++ a.1 :: A2) ++ concat S2.*2
                 ++ (C1 ++ c.1 :: C2) ++ concat S3.*2)
        with ((concat S1.*2 ++ (A1 ++ a.1 :: A2) ++ concat S2.*2 ++ C1)
                ++ c.1 :: C2 ++ concat S3.*2).
      - by apply list_lookup_middle.
      - rewrite <- !app_assoc. simpl. rewrite <- ?app_assoc. done. }
  cbn [default]. rewrite !length_app. cbn [length]. unfold id. lia.
Qed.

Lemma size_list_to_set_le (l : list N) : (size (list_to_set l : gset N) ≤ length l)%nat.
Proof.
  induction l as [|x l IH]; [done|]. cbn [list_to_set length].
  rewrite size_union_alt, size_singleton.
  pose proof (subseteq_size (list_to_set l ∖ {[x]}) (list_to_set l : gset N)) as Hsub.
  assert (size (list_to_set l ∖ {[x]} : gset N) ≤ size (list_to_set l : gset N))%nat
    by (by apply Hsub, subseteq_difference_l). lia.
Qed.

Lemma NoDup_of_size (l : list N) : size (list_to_set l : gset N) = length l → NoDup l.
Proof.
  induction l as [|x l IH]; [constructor|]. cbn [list_to_set length]. intros Hsize.
  pose proof (size_list_to_set_le l) as Hle.
  destruct (decide (x ∈ l)) as [Hin|Hnotin].
  - exfalso. assert ({[x]} ∪ list_to_set l = (list_to_set l : gset N)) as Heq.
    { apply subseteq_union_1_L, singleton_subseteq_l, elem_of_list_to_set, Hin. }
    rewrite Heq in Hsize. lia.
  - constructor; [done|]. apply IH.
    rewrite size_union, size_singleton in Hsize; [lia|].
    apply disjoint_singleton_l. by rewrite elem_of_list_to_set.
Qed.

Lemma checks_debug b n m :
  DEBUG b = true → NDEBUG b = false → checks b n m = Ok m →
  length m = n ∧ NoDup m.*1 ∧ NoDup m.*2.
Proof.
  intros Hd Hn. unfold checks, debug_checks, libmesh_assert. rewrite Hd, Hn.
  repeat case_bool_decide; simpl; try done. intros _.
  split; [done|]. split; apply NoDup_of_size; rewrite length_fmap; congruence.
Qed.

Lemma build_global_index_map_checks b ids global_index m :
  build_global_index_map b ids global_index = Ok m → checks b (length ids) m = Ok m.
Proof.
  unfold build_global_index_map, checks.
  destruct (libmesh_assert b 127 _) as [[]|h]; simpl; [|done].
  destruct (if LIBMESH_ENABLE_UNIQUE_ID b then _ else _) as [m'|h]; simpl; [|done].
  intros Hrun. assert (m' = m) as ->; [|done].
  fold (checks b (length ids) m') in Hrun. by apply checks_Ok in Hrun.
Qed.

Lemma assign_returns b (l : list (N * N)) :
  NoDup l.*1 → (LIBMESH_ENABLE_UNIQUE_ID b = true → NoDup l.*2) →
  ∃ m, assign b l = Ok m.
Proof.
  intros Hnd Huniq. rewrite assign_unfold. unfold checks.
  destruct (LIBMESH_ENABLE_UNIQUE_ID b).
  { exists l. apply checks_pass; auto. }
  destruct (foldl push_inverse (∅, false) l) as [inv found] eqn:Hfold. cbn [fst snd].
  destruct found.
  - eexists. replace (length l) with (length l.*1) by apply length_fmap.
    apply bijection_checks_pass; [done|].
    pose proof (bijection_renumbered l.*1 l.*2) as Hbij.
    rewrite zip_fst_snd, Hfold in Hbij. apply Hbij. by rewrite !length_fmap.
  - exists l. apply checks_pass; [done| |done].
    apply collect_no_duplicate. by rewrite Hfold.
Qed.

Lemma assign_by_position b (l : list (N * N)) :
  NoDup l.*1 → NoDup l.*2 → assign b l = Ok l.
Proof.
  intros Hnd1 Hnd2. rewrite assign_unfold.
  assert (checks b (length l) l = Ok l) as Hchecks by (by apply checks_pass).
  destruct (LIBMESH_ENABLE_UNIQUE_ID b); [done|].
  destruct (foldl push_inverse (∅, false) l).2 eqn:Hfound; [|done].
  by apply collect_duplicate in Hfound.
Qed.

Lemma assign_keys b (l : list (N * N)) m : assign b l = Ok m → m.*1 ≡ₚ l.*1.
Proof.
  rewrite assign_unfold.
  destruct (LIBMESH_ENABLE_UNIQUE_ID b); [by intros ->%checks_Ok|].
  destruct (foldl push_inverse (∅, false) l) as [inv found] eqn:Hfold. cbn [fst snd].
  destruct found; [|by intros ->%checks_Ok].
  intros ->%checks_Ok. rewrite renumber_numbered, numbered_fst, sorted_inverses_concat.
  replace inv with (foldl push_inverse (∅, false) l).1 by by rewrite Hfold.
  by rewrite foldl_push_inverse_concat, map_to_list_empty.
Qed.

Lemma build_global_index_map_length b ids global_index m :
  NDEBUG b = false → build_global_index_map b ids global_index = Ok m →
  length global_index = length ids.
Proof.
  intros Hn. unfold build_global_index_map, libmesh_assert. rewrite Hn.
  case_bool_decide; [done|]. simpl. done.
Qed.

Lemma shared_hints_bijection b (ids global_index : list N) :
  LIBMESH_ENABLE_UNIQUE_ID b = false →
  NoDup ids → length global_index = length ids → ¬ NoDup global_index →
  builds_bijection b ids global_index.
Proof.
  intros Hu Hnd Hlen Hdup.
  pose proof (assign_unfold b (zip ids global_index)) as Hun. unfold assign in Hun.
  rewrite fst_zip, snd_zip in Hun by lia. rewrite Hu in Hun.
  destruct (foldl push_inverse (∅, false) (zip ids global_index)).2 eqn:Hfound.
  - pose proof (bijection_renumbered ids global_index Hlen) as Hbij.
    eexists. split; [|exact Hbij].
    rewrite Hun. unfold checks.
    replace (length (zip ids global_index)) with (length ids)
      by (rewrite length_zip_with; lia).
    by apply bijection_checks_pass.
  - exfalso. apply Hdup. rewrite <- (snd_zip ids global_index) by lia.
    by apply collect_no_duplicate.
Qed.

(** The map built without a collision is the hints by position. *)
Lemma build_global_index_map_copies b (ids global_index : list N) m :
  length global_index = length ids →
  (LIBMESH_ENABLE_UNIQUE_ID b = false → NoDup global_index) →
  build_global_index_map b ids global_index = Ok m → m = zip ids global_index.
Proof.
  intros Hlen Hcopy Hm.
  pose proof (assign_unfold b (zip ids global_index)) as Hun. unfold assign in Hun.
  rewrite fst_zip, snd_zip in Hun by lia. rewrite Hm in Hun. symmetry in Hun.
  destruct (LIBMESH_ENABLE_UNIQUE_ID b); [by apply checks_Ok in Hun|].
  destruct (foldl push_inverse (∅, false) (zip ids global_index)).2 eqn:Hfound;
    [|by apply checks_Ok in Hun].
  exfalso. apply collect_duplicate in Hfound. apply Hfound.
  rewrite snd_zip by lia. by apply Hcopy.
Qed.

(** The assigner builds a bijection onto [0 .. n-1] exactly for the hints
    that are admissible. *)
Lemma builds_bijection_iff b (ids global_index : list N) :
  NoDup ids → length global_index = length ids →
  builds_bijection b ids global_index ↔ hints_admissible b ids global_index.
Proof.
  intros Hnd Hlen. split.
  - intros (m & Hm & _ & Hdense).
    assert ((LIBMESH_ENABLE_UNIQUE_ID b = false → NoDup global_index) →
            global_index ≡ₚ N.of_nat <$> seq 0 (length ids)) as Hcopied.
    { intros Hcopy.
      rewrite (build_global_index_map_copies b ids global_index m Hlen Hcopy Hm) in Hdense.
      by rewrite snd_zip in Hdense by lia. }
    split.
    + intros Hu. rewrite Hcopied; [apply NoDup_dense|]. intros Hu'. congruence.
    + intros Hnd'. apply Forall_forall. intros g Hg. rewrite Hcopied in Hg by done.
      apply list_elem_of_fmap in Hg as (i & -> & Hi). apply elem_of_seq in Hi. lia.
  - intros [Huniq Hbound].
    destruct (decide (NoDup global_index)) as [Hnd'|Hdup].
    + apply build_global_index_map_ok; [done|]. split; [done|]. split; [by apply Hbound|done].
    + apply shared_hints_bijection; [|done|done|done].
      destruct (LIBMESH_ENABLE_UNIQUE_ID b); [|done]. exfalso. by apply Hdup, Huniq.
Qed.

End GlobalIndexMore.

(** ** The rows of the finished graph *)

Module RowsFacts.
Import CSR Graph CSRSpec GraphSpec RowsSpec CSRFacts GraphFacts.

Lemma length_splice l s vs :
  (s + length vs ≤ length l)%nat → length (splice l s vs) = length l.
Proof.
  intros Hle. unfold splice. rewrite !length_app, length_take, length_drop. lia.
Qed.

Lemma splice_nil l s : splice l s [] = l.
Proof. unfold splice. simpl. rewrite Nat.add_0_r. apply take_drop. Qed.

Lemma splice_insert_cons l s v vs :
  (s < length l)%nat → splice (<[s := v]> l) (S s) vs = splice l s (v :: vs).
Proof.
  intros Hlt. unfold splice.
  rewrite (take_S_r _ _ v) by by apply list_lookup_insert_eq.
  rewrite take_insert_ge by lia. rewrite drop_insert_lt by lia.
  replace (s + length (v :: vs))%nat with (S s + length vs)%nat by (simpl; lia).
  by rewrite <- app_assoc.
Qed.

Lemma insert_splice l s v : (s < length l)%nat → <[s := v]> l = splice l s [v].
Proof. intros Hlt. by rewrite <- splice_insert_cons, splice_nil. Qed.

Lemma splice_lookup_in l s vs k v :
  (s ≤ length l)%nat → vs !! k = Some v → splice l s vs !! (s + k)%nat = Some v.
Proof.
  intros Hle Hk. unfold splice.
  rewrite lookup_app_r by (rewrite length_take; lia).
  rewrite length_take_le by lia. replace (s + k - s)%nat with k by lia.
  rewrite lookup_app_l by by eapply lookup_lt_Some. done.
Qed.

Lemma splice_lookup_out l s vs j :
  (s + length vs ≤ length l)%nat → (j < s ∨ s + length vs ≤ j)%nat →
  splice l s vs !! j = l !! j.
Proof.
  intros Hle [Hj|Hj]; unfold splice.
  - rewrite lookup_app_l by (rewrite length_take; lia). by apply lookup_take_lt.
  - rewrite lookup_app_r by (rewrite length_take; lia).
    rewrite length_take_le by lia.
    rewrite lookup_app_r by lia. rewrite lookup_drop. f_equal. lia.
Qed.

Lemma splice_splice l s vs1 vs2 :
  (s + length vs1 ≤ length l)%nat →
  splice (splice l s vs1) (s + length vs1) vs2 = splice l s (vs1 ++ vs2).
Proof.
  intros Hle.
  assert (length (take s l ++ vs1) = (s + length vs1)%nat) as Hlen
    by (rewrite length_app, length_take_le; lia).
  unfold splice. rewrite (app_assoc (take s l) vs1).
  rewrite take_app_length' by done.
  rewrite drop_app_ge by lia. rewrite Hlen.
  rewrite drop_drop, length_app, <- !app_assoc.
  do 4 f_equal. lia.
Qed.

Lemma Forall_splice (P : N → Prop) l s vs :
  Forall P l → Forall P vs → Forall P (splice l s vs).
Proof.
  intros Hl Hvs. unfold splice. apply Forall_app. split; [by apply Forall_take|].
  apply Forall_app. split; [done|by apply Forall_drop].
Qed.

Lemma set_entry_content b line g row c value o :
  offsets g !! N.to_nat row = Some o →
  (N.to_nat o + c < length (vals g))%nat →
  set_entry b line g row c value
    = Ok {| offsets := offsets g; vals := <[(N.to_nat o + c)%nat := value]> (vals g) |}.
Proof.
  intros Ho Hlt. unfold set_entry. rewrite (vec_at_lookup _ _ _ _ Ho). simpl.
  rewrite libmesh_assert_decide by done. simpl.
  unfold vec_set. by rewrite bool_decide_eq_true_2 by done.
Qed.

Section rows.
Context (b : Build) (view : MeshView) (global_index_map : vectormap).
Context (interior_to_boundary_map : list (N * N)).

Local Abbreviation in_range := (Graph.in_range view global_index_map).
Local Abbreviation index_of := (Graph.index_of view global_index_map).
Local Abbreviation connected_offspring := (GraphSpec.connected_offspring view global_index_map).
Local Abbreviation side_width := (GraphSpec.side_width b view global_index_map).
Local Abbreviation face_width := (GraphSpec.face_width b view global_index_map).
Local Abbreviation interior_in_mesh := (GraphSpec.interior_in_mesh view).
Local Abbreviation row_width :=
  (GraphSpec.row_width b view global_index_map interior_to_boundary_map).
Local Abbreviation row_written :=
  (GraphSpec.row_written b view global_index_map interior_to_boundary_map).
Local Abbreviation links_consistent := (GraphSpec.links_consistent view).
Local Abbreviation interior_neighbors_in_range :=
  (GraphSpec.interior_neighbors_in_range view global_index_map).
Local Abbreviation side_values := (RowsSpec.side_values b view global_index_map).
Local Abbreviation face_values := (RowsSpec.face_values b view global_index_map).
Local Abbreviation row_values :=
  (RowsSpec.row_values b view global_index_map interior_to_boundary_map).
Local Abbreviation row_start := (RowsSpec.row_start view global_index_map).
Local Abbreviation row_of := (RowsSpec.row_of view global_index_map).
Local Abbreviation rows_apart :=
  (RowsSpec.rows_apart b view global_index_map interior_to_boundary_map).

Lemma length_side_values elem neighbor :
  length (side_values elem neighbor) = side_width elem neighbor.
Proof.
  unfold RowsSpec.side_values, GraphSpec.side_width. destruct neighbor as [nb|]; [|done].
  destruct (active view nb && negb (in_range nb)); [done|].
  destruct (active view nb); [done|].
  destruct (LIBMESH_ENABLE_AMR b); [|done]. by rewrite length_fmap.
Qed.

Lemma length_face_values elem neighbors :
  length (face_values elem neighbors) = face_width elem neighbors.
Proof.
  induction neighbors as [|nb rest IH]; [done|].
  rewrite face_width_cons. unfold RowsSpec.face_values in *. rewrite bind_cons, length_app.
  by rewrite IH, length_side_values.
Qed.

Lemma length_row_values elem : length (row_values elem) = row_written elem.
Proof.
  unfold RowsSpec.row_values, GraphSpec.row_written.
  rewrite !length_app, length_face_values, length_fmap.
  destruct (has_interior_parent b view elem); [rewrite length_fmap|simpl]; lia.
Qed.

(** Each loop of pass 2 writes its values into consecutive slots of the row,
    from the slot [connection] stands at. *)
Lemma fill_offspring_content elem ns offspring g c o :
  offsets g !! N.to_nat (index_of elem) = Some o →
  (N.to_nat o + c + length (connected_offspring elem ns offspring) ≤ length (vals g))%nat →
  (∀ child, child ∈ offspring → neighbor_ptr view child ns = Some elem →
     active view child = true) →
  ∃ g', fill_offspring b view global_index_map elem ns offspring (g, c)
          = Ok (g', (c + length (connected_offspring elem ns offspring))%nat)
        ∧ offsets g' = offsets g
        ∧ vals g' = splice (vals g) (N.to_nat o + c)
                      (index_of <$> connected_offspring elem ns offspring).
Proof.
  revert g c. induction offspring as [|child rest IH]; intros g c Ho Hroom Hact.
  - simpl. exists g. rewrite splice_nil. split; [|done]. do 2 f_equal.
    unfold GraphSpec.connected_offspring. simpl. lia.
  - assert (∀ c, c ∈ rest → neighbor_ptr view c ns = Some elem → active view c = true)
      as Hrest by (intros; apply Hact; [by right|done]).
    revert Hroom. unfold GraphSpec.connected_offspring. rewrite filter_cons.
    fold (connected_offspring elem ns rest). cbn [fill_offspring].
    destruct (in_range child) eqn:Hin; cbn [negb].
    + case_bool_decide as Hnb.
      * rewrite decide_True by done. cbn [length]. intros Hroom.
        rewrite Hact; [|by left|done]. rewrite libmesh_assert_true. cbn [mbind res_bind fst snd].
        rewrite (set_entry_content b 438 g _ c (index_of child) o Ho) by lia.
        cbn [mbind res_bind].
        destruct (IH {| offsets := offsets g;
                        vals := <[(N.to_nat o + c)%nat := index_of child]> (vals g) |} (S c))
          as (g2 & -> & Ho2 & Hv2); [done|simpl; rewrite length_insert; lia|done|].
        exists g2. split; [do 2 f_equal; lia|]. split; [done|].
        rewrite Hv2. cbn [vals]. rewrite fmap_cons.
        replace (N.to_nat o + S c)%nat with (S (N.to_nat o + c)) by lia.
        apply splice_insert_cons. lia.
      * rewrite decide_False by (intros [_ ?]; done). intros Hroom. by apply IH.
    + rewrite decide_False by (intros [? _]; done). intros Hroom. by apply IH.
Qed.

Lemma fill_face_neighbors_content elem neighbors g c o :
  offsets g !! N.to_nat (index_of elem) = Some o →
  (N.to_nat o + c + face_width elem neighbors ≤ length (vals g))%nat →
  (∀ neighbor, Some neighbor ∈ neighbors → active view neighbor = false →
     (which_neighbor_am_i view neighbor elem < n_neighbors view neighbor)%nat ∧
     ∀ child, child ∈ active_family_tree view neighbor →
       neighbor_ptr view child (which_neighbor_am_i view neighbor elem) = Some elem →
       active view child = true) →
  ∃ g', fill_face_neighbors b view global_index_map elem neighbors (g, c)
          = Ok (g', (c + face_width elem neighbors)%nat)
        ∧ offsets g' = offsets g
        ∧ vals g' = splice (vals g) (N.to_nat o + c) (face_values elem neighbors).
Proof.
  revert g c. induction neighbors as [|nb rest IH]; intros g c Ho Hroom Hcons.
  - simpl. exists g. rewrite splice_nil. split; [|done]. do 2 f_equal.
    unfold GraphSpec.face_width. simpl. lia.
  - assert (∀ nb, Some nb ∈ rest → active view nb = false →
      (which_neighbor_am_i view nb elem < n_neighbors view nb)%nat ∧
      ∀ child, child ∈ active_family_tree view nb →
        neighbor_ptr view child (which_neighbor_am_i view nb elem) = Some elem →
        active view child = true) as Hrest by (intros; apply Hcons; [by right|done]).
    revert Hroom. rewrite face_width_cons. intros Hroom.
    assert (∃ g1, offsets g1 = offsets g ∧
              vals g1 = splice (vals g) (N.to_nat o + c) (side_values elem nb) ∧
              fill_face_neighbors b view global_index_map elem (nb :: rest) (g, c)
                = fill_face_neighbors b view global_index_map elem rest
                    (g1, (c + side_width elem nb)%nat)) as (g1 & Ho1 & Hv1 & ->).
    { destruct nb as [neighbor|]; cbn [fill_face_neighbors].
      2:{ exists g. rewrite splice_nil. split; [done|]. split; [done|].
          do 2 f_equal. simpl. lia. }
      revert Hroom. unfold GraphSpec.side_width, RowsSpec.side_values.
      destruct (active view neighbor) eqn:Hact; cbn [andb].
      - destruct (in_range neighbor); cbn [negb]; intros Hroom.
        + cbn [fst snd].
          rewrite (set_entry_content b 403 g _ c (index_of neighbor) o Ho) by lia.
          cbn [mbind res_bind].
          exists {| offsets := offsets g;
                    vals := <[(N.to_nat o + c)%nat := index_of neighbor]> (vals g) |}.
          split; [done|]. split.
          * cbn [vals]. apply insert_splice. lia.
          * do 2 f_equal. lia.
        + exists g. rewrite splice_nil. split; [done|]. split; [done|]. do 2 f_equal. lia.
      - destruct (LIBMESH_ENABLE_AMR b); intros Hroom.
        + destruct (Hcons neighbor) as [Hns Hchildren]; [by left|done|].
          rewrite libmesh_assert_decide by done. cbn [mbind res_bind].
          destruct (fill_offspring_content elem (which_neighbor_am_i view neighbor elem)
                      (active_family_tree view neighbor) g c o Ho) as (g1 & -> & Ho1 & Hv1);
            [lia|done|]. cbn [mbind res_bind]. by exists g1.
        + exists g. rewrite splice_nil. split; [done|]. split; [done|]. do 2 f_equal. lia. }
    assert (length (side_values elem nb) = side_width elem nb) as Hlen
      by apply length_side_values.
    destruct (IH g1 (c + side_width elem nb)%nat) as (g2 & -> & Ho2 & Hv2);
      [by rewrite Ho1| |done|].
    { rewrite Hv1, length_splice by lia. lia. }
    exists g2. split; [do 2 f_equal; lia|]. split; [congruence|].
    rewrite Hv2, Hv1. unfold RowsSpec.face_values. rewrite bind_cons.
    rewrite <- splice_splice by lia. rewrite Hlen. f_equal. lia.
Qed.

Lemma fill_interior_neighbors_content elem neighbor_set g c o :
  offsets g !! N.to_nat (index_of elem) = Some o →
  (N.to_nat o + c + length (interior_in_mesh neighbor_set) ≤ length (vals g))%nat →
  (∀ neighbor, neighbor ∈ neighbor_set →
     query_elem_ptr view (elem_id view neighbor) = Some neighbor → in_range neighbor = true) →
  ∃ g', fill_interior_neighbors b view global_index_map elem neighbor_set (g, c)
          = Ok (g', (c + length (interior_in_mesh neighbor_set))%nat)
        ∧ offsets g' = offsets g
        ∧ vals g' = splice (vals g) (N.to_nat o + c)
                      (index_of <$> interior_in_mesh neighbor_set).
Proof.
  revert g c. induction neighbor_set as [|neighbor rest IH]; intros g c Ho Hroom Hin.
  - simpl. exists g. rewrite splice_nil. split; [|done]. do 2 f_equal.
    unfold GraphSpec.interior_in_mesh. simpl. lia.
  - assert (∀ nb, nb ∈ rest → query_elem_ptr view (elem_id view nb) = Some nb →
              in_range nb = true) as Hrest by (intros; apply Hin; [by right|done]).
    revert Hroom. unfold GraphSpec.interior_in_mesh. rewrite filter_cons.
    fold (interior_in_mesh rest). cbn [fill_interior_neighbors].
    case_bool_decide as Hq.
    + rewrite decide_True by done. cbn [length]. intros Hroom.
      assert (in_range neighbor = true) as Hr by (apply Hin; [by left|done]).
      unfold Graph.in_range, vm_count in Hr. apply bool_decide_eq_true in Hr as [gi Hgi].
      assert (index_of neighbor = gi) as Hidx by (unfold Graph.index_of, vm_at; by rewrite Hgi).
      unfold libmesh_map_find. rewrite Hgi. cbn [mbind res_bind fst snd].
      rewrite (set_entry_content b 468 g _ c gi o Ho) by lia.
      cbn [mbind res_bind].
      destruct (IH {| offsets := offsets g;
                      vals := <[(N.to_nat o + c)%nat := gi]> (vals g) |} (S c))
        as (g2 & -> & Ho2 & Hv2); [done|simpl; rewrite length_insert; lia|done|].
      exists g2. split; [do 2 f_equal; lia|]. split; [done|].
      rewrite Hv2. cbn [vals]. rewrite fmap_cons, Hidx.
      replace (N.to_nat o + S c)%nat with (S (N.to_nat o + c)) by lia.
      apply splice_insert_cons. lia.
    + rewrite decide_False by done. intros Hroom. by apply IH.
Qed.

Lemma fill_boundary_neighbors_content elem entries g c o :
  offsets g !! N.to_nat (index_of elem) = Some o →
  (N.to_nat o + c + length entries ≤ length (vals g))%nat →
  ∃ g', fill_boundary_neighbors b view global_index_map elem entries (g, c)
          = Ok (g', (c + length entries)%nat)
        ∧ offsets g' = offsets g
        ∧ vals g' = splice (vals g) (N.to_nat o + c)
                      ((λ pr : N * N, index_of pr.2) <$> entries).
Proof.
  revert g c. induction entries as [|pr rest IH]; intros g c Ho Hroom.
  - simpl. exists g. rewrite splice_nil. split; [|done]. do 2 f_equal. lia.
  - cbn [fill_boundary_neighbors length fst snd] in *.
    rewrite (set_entry_content b 477 g _ c (index_of pr.2) o Ho) by lia.
    cbn [mbind res_bind].
    destruct (IH {| offsets := offsets g;
                    vals := <[(N.to_nat o + c)%nat := index_of pr.2]> (vals g) |} (S c))
      as (g2 & -> & Ho2 & Hv2); [done|simpl; rewrite length_insert; lia|].
    exists g2. split; [do 2 f_equal; lia|]. split; [done|].
    rewrite Hv2. cbn [vals]. rewrite fmap_cons.
    replace (N.to_nat o + S c)%nat with (S (N.to_nat o + c)) by lia.
    apply splice_insert_cons. lia.
Qed.

(** Pass 2 on one element writes its row, and nothing else. *)
Lemma fill_row_content elem g o :
  links_consistent elem → interior_neighbors_in_range elem →
  offsets g !! N.to_nat (index_of elem) = Some o →
  (N.to_nat o + row_written elem ≤ length (vals g))%nat →
  ∃ g', fill_row b view global_index_map interior_to_boundary_map g elem
          = Ok (g', row_written elem)
        ∧ offsets g' = offsets g
        ∧ vals g' = splice (vals g) (N.to_nat o) (row_values elem).
Proof.
  intros Hcons Hint Ho Hroom. pose proof (length_row_values elem) as Hlen.
  revert Hlen Hroom. unfold fill_row, GraphSpec.row_written, RowsSpec.row_values.
  rewrite !length_app, length_fmap. intros Hlen Hroom.
  pose proof (length_face_values elem (neighbor_ptr_range view elem)) as Hface.
  destruct (fill_face_neighbors_content elem (neighbor_ptr_range view elem) g 0 o Ho)
    as (g1 & -> & Ho1 & Hv1); [lia|exact Hcons|]. cbn [mbind res_bind].
  rewrite Nat.add_0_r in Hv1.
  destruct (has_interior_parent b view elem).
  - rewrite length_fmap in Hlen.
    destruct (fill_interior_neighbors_content elem (find_interior_neighbors view elem) g1
                (0 + face_width elem (neighbor_ptr_range view elem))%nat o)
      as (g2 & -> & Ho2 & Hv2); [by rewrite Ho1| |exact Hint|].
    { rewrite Hv1, length_splice by lia. lia. }
    cbn [mbind res_bind].
    destruct (fill_boundary_neighbors_content elem
                (equal_range b interior_to_boundary_map elem) g2
                (0 + face_width elem (neighbor_ptr_range view elem)
                 + length (interior_in_mesh (find_interior_neighbors view elem)))%nat o)
      as (g3 & -> & Ho3 & Hv3).
    { by rewrite Ho2, Ho1. }
    { rewrite Hv2, length_splice, Hv1, length_splice; rewrite ?length_fmap; try lia.
      rewrite Hv1, length_splice; lia. }
    exists g3. split; [do 2 f_equal; lia|]. split; [congruence|].
    rewrite Hv3, Hv2, Hv1.
    replace (N.to_nat o + (0 + face_width elem (neighbor_ptr_range view elem)))%nat
      with (N.to_nat o + length (face_values elem (neighbor_ptr_range view elem)))%nat by lia.
    rewrite splice_splice by lia.
    replace (N.to_nat o + (0 + face_width elem (neighbor_ptr_range view elem)
               + length (interior_in_mesh (find_interior_neighbors view elem))))%nat
      with (N.to_nat o + length (face_values elem (neighbor_ptr_range view elem)
               ++ (index_of <$> interior_in_mesh (find_interior_neighbors view elem))))%nat
      by (rewrite length_app, length_fmap; lia).
    rewrite splice_splice by (rewrite length_app, length_fmap; lia).
    by rewrite <- app_assoc.
  - cbn [mbind res_bind]. simpl in Hlen.
    destruct (fill_boundary_neighbors_content elem
                (equal_range b interior_to_boundary_map elem) g1
                (0 + face_width elem (neighbor_ptr_range view elem))%nat o)
      as (g3 & -> & Ho3 & Hv3).
    { by rewrite Ho1. }
    { rewrite Hv1, length_splice by lia. lia. }
    exists g3. split; [do 2 f_equal; lia|]. split; [congruence|].
    rewrite Hv3, Hv1.
    replace (N.to_nat o + (0 + face_width elem (neighbor_ptr_range view elem)))%nat
      with (N.to_nat o + length (face_values elem (neighbor_ptr_range view elem)))%nat by lia.
    by rewrite splice_splice by lia.
Qed.

Lemma second_pass_content range g :
  (∀ e, e ∈ range → links_consistent e ∧ interior_neighbors_in_range e ∧
     ∃ o, offsets g !! N.to_nat (index_of e) = Some o ∧
          (N.to_nat o + row_written e ≤ length (vals g))%nat) →
  NoDup (Graph.index_of view global_index_map <$> range) →
  rows_apart g range →
  ∃ g', second_pass b view global_index_map interior_to_boundary_map range g = Ok g' ∧
        offsets g' = offsets g ∧
        (∀ e k v, e ∈ range → row_values e !! k = Some v →
           vals g' !! (row_start g e + k)%nat = Some v) ∧
        (∀ j, (∀ e, e ∈ range →
                 (j < row_start g e ∨ row_start g e + row_written e ≤ j)%nat) →
           vals g' !! j = vals g !! j) ∧
        (∀ P : N → Prop, Forall P (vals g) → (∀ e, e ∈ range → Forall P (row_values e)) →
           Forall P (vals g')).
Proof.
  revert g. induction range as [|e rest IH]; intros g Hok Hnd Hapart.
  - exists g. split; [done|]. split; [done|]. split; [|done].
    intros e k v Hin. by apply elem_of_nil in Hin.
  - destruct (Hok e) as (Hcons & Hint & o & Ho & Hroom); [by left|].
    destruct (fill_row_content e g o Hcons Hint Ho Hroom) as (g1 & Hrow & Ho1 & Hv1).
    apply NoDup_index_cons in Hnd as [Hne Hnd].
    assert (∀ x, row_start g1 x = row_start g x) as Hstart
      by (intros x; unfold RowsSpec.row_start; by rewrite Ho1).
    assert (row_start g e = N.to_nat o) as Hse
      by (unfold RowsSpec.row_start; by rewrite Ho).
    pose proof (length_row_values e) as Hlen.
    assert (length (vals g1) = length (vals g)) as Hl1
      by (rewrite Hv1; apply length_splice; lia).
    destruct (IH g1) as (g2 & Hrest & Ho2 & Hslices & Hframe & HP).
    { intros e' He'. destruct (Hok e') as (? & ? & o' & ? & ?); [by right|].
      split; [done|]. split; [done|]. exists o'. by rewrite Ho1, Hl1. }
    { done. }
    { intros x y Hx Hy Hxy. rewrite !Hstart. apply Hapart; [by right|by right|done]. }
    exists g2. split; [cbn [second_pass]; rewrite Hrow; exact Hrest|].
    split; [congruence|]. split; [|split].
    + intros e' k v [-> | Hin]%elem_of_cons Hk.
      * rewrite Hframe.
        -- rewrite Hv1, Hse. apply splice_lookup_in; [lia|done].
        -- intros e'' He''. rewrite Hstart. apply lookup_lt_Some in Hk.
           destruct (Hapart e e'') as [Hle|Hle];
             [by left|by right|intros Heq; by apply (Hne e'')|lia|lia].
      * rewrite <- Hstart. by apply Hslices.
    + intros j Hj. rewrite Hframe.
      * rewrite Hv1. apply splice_lookup_out; [lia|].
        destruct (Hj e) as [?|?]; [by left|lia|lia].
      * intros e' He'. rewrite Hstart. apply Hj. by right.
    + intros P Hg Hrows. apply HP.
      * rewrite Hv1. apply Forall_splice; [done|]. apply Hrows. by left.
      * intros e' He'. apply Hrows. by right.
Qed.

(** *** The finished graph *)

Lemma sumN_take_mono l i j : (i ≤ j)%nat → sumN (take i l) ≤ sumN (take j l).
Proof.
  intros Hij. replace (take i l) with (take i (take j l)); [apply sumN_take_le|].
  rewrite take_take. f_equal. lia.
Qed.

Lemma prepare_for_use_zeros g0 :
  vals (prepare_for_use g0) = replicate (length (vals (prepare_for_use g0))) 0.
Proof.
  unfold prepare_for_use. cbn [vals]. case_bool_decide; [done|].
  by rewrite length_replicate.
Qed.

Lemma widths_offsets_first range offs :
  GraphSpec.widths_offsets b view global_index_map interior_to_boundary_map range offs !! 0%nat
    = offs !! 0%nat.
Proof.
  revert offs. induction range as [|e rest IH]; intros offs; simpl; [done|].
  rewrite IH. apply list_lookup_insert_ne. lia.
Qed.

Lemma index_of_inj range e e' :
  NoDup (Graph.index_of view global_index_map <$> range) →
  e ∈ range → e' ∈ range → index_of e = index_of e' → e = e'.
Proof.
  intros Hnd [i Hi]%list_elem_of_lookup [j Hj]%list_elem_of_lookup Heq.
  assert (i = j) as <-; [|congruence].
  apply (NoDup_lookup _ i j (index_of e) Hnd); rewrite list_lookup_fmap;
    [by rewrite Hi|rewrite Hj; simpl; by rewrite Heq].
Qed.

Lemma first_pass_vwgt weights range st st' :
  (∀ e, e ∈ range → links_consistent e) →
  (∀ e, e ∈ range → (N.to_nat (index_of e) < length (vwgt st))%nat) →
  NoDup (Graph.index_of view global_index_map <$> range) →
  (∀ e, e ∈ range → offsets (csr_graph st) !! (N.to_nat (index_of e) + 1)%nat = Some 0) →
  first_pass b view global_index_map interior_to_boundary_map weights range st = Ok st' →
  (∀ e, e ∈ range →
     vwgt st' !! N.to_nat (index_of e) = Some (vertex_weight b view weights e)) ∧
  (∀ i, (∀ e, e ∈ range → N.to_nat (index_of e) ≠ i) → vwgt st' !! i = vwgt st !! i).
Proof.
  revert st. induction range as [|e rest IH]; intros st Hcons Hlt Hnd Hzero.
  - intros [= <-]. split; [|done]. intros e He. by apply elem_of_nil in He.
  - apply NoDup_index_cons in Hnd as [Hne Hnd]. cbn [first_pass].
    rewrite first_pass_step_ok; [|apply Hcons; by left|apply Hlt; by left|apply Hzero; by left].
    cbn [mbind res_bind]. intros Hrun.
    apply IH in Hrun as [Hin Hout]; cbn [vwgt csr_graph offsets].
    + split.
      * intros e' [-> | He']%elem_of_cons; [|by apply Hin].
        rewrite Hout.
        -- cbn [vwgt]. apply list_lookup_insert_eq. apply Hlt. by left.
        -- intros e'' He'' Heq. apply (Hne e'' He''). lia.
      * intros i Hi. rewrite Hout by (intros; apply Hi; by right).
        cbn [vwgt]. apply list_lookup_insert_ne. apply Hi. by left.
    + intros; apply Hcons; by right.
    + intros. rewrite length_insert. apply Hlt; by right.
    + done.
    + intros e' He'. rewrite list_lookup_insert_ne; [apply Hzero; by right|].
      specialize (Hne e' He'). lia.
Qed.

(** The graph handed to the engine: the offsets are the running sums of the
    row widths pass 1 counted; the row of each element holds the values pass 2
    wrote for it, followed by zeros where pass 1 counted more than pass 2
    wrote; the vertex weights are those of the elements. *)
Lemma build_graph_content weights range :
  GraphSpec.range_ok view global_index_map range →
  ∃ g vw, build_graph b view global_index_map interior_to_boundary_map weights range
            = Ok (g, vw) ∧
    offsets g !! 0%nat = Some 0 ∧
    (∀ e, e ∈ range → ∃ o,
       offsets g !! N.to_nat (index_of e) = Some o ∧
       offsets g !! (N.to_nat (index_of e) + 1)%nat = Some (o + N.of_nat (row_width e)) ∧
       (N.to_nat o + row_width e ≤ length (vals g))%nat) ∧
    (∀ e e', e ∈ range → e' ∈ range → index_of e < index_of e' →
       (row_start g e + row_width e ≤ row_start g e')%nat) ∧
    (∀ e, e ∈ range →
       row_of g e = row_values e ++ replicate (row_width e - row_written e) 0) ∧
    (∀ e, e ∈ range →
       vw !! N.to_nat (index_of e) = Some (vertex_weight b view weights e)) ∧
    length vw = length range ∧
    (∀ P : N → Prop, P 0 → (∀ e, e ∈ range → Forall P (row_values e)) →
       Forall P (vals g)).
Proof.
  intros (Hwf & Hnd & Hlt). unfold build_graph.
  set (st0 := {| csr_graph := {| offsets := replicate (length range + 1) 0; vals := [] |};
                 vwgt := replicate (length range) 0%Z; graph_size := 0 |}).
  assert (∀ e, e ∈ range → links_consistent e) as Hcons by (intros; by apply Hwf).
  assert (∀ e, e ∈ range → (N.to_nat (index_of e) < length (vwgt st0))%nat) as Hlt0
    by (intros; simpl; rewrite length_replicate; by apply Hlt).
  assert (∀ e, e ∈ range →
            offsets (csr_graph st0) !! (N.to_nat (index_of e) + 1)%nat = Some 0) as Hzero.
  { intros e He. simpl. apply lookup_replicate_2. specialize (Hlt e He). lia. }
  destruct (first_pass_ok b view global_index_map interior_to_boundary_map weights range st0
              Hcons Hlt0 Hnd Hzero) as (st & Hfp & Hoffs & Hvals & Hsize & Hvw).
  destruct (first_pass_vwgt weights range st0 st Hcons Hlt0 Hnd Hzero Hfp) as [Hweights _].
  rewrite Hfp. cbn [mbind res_bind]. simpl in Hoffs, Hsize, Hvw.
  set (raw := GraphSpec.widths_offsets b view global_index_map interior_to_boundary_map range
                (replicate (length range + 1) 0)) in *.
  assert (length raw = S (length range)) as Hraw
    by (unfold raw; rewrite length_widths_offsets, length_replicate; lia).
  assert (sumN raw = N.of_nat (GraphSpec.total_edge_count b view global_index_map
                                 interior_to_boundary_map range)) as Hsum.
  { unfold raw. rewrite widths_offsets_sum, sumN_replicate; [lia|done|].
    intros e He. apply lookup_replicate_2. specialize (Hlt e He). lia. }
  assert (offsets (csr_graph st) ≠ []) as Hne
    by (rewrite Hoffs; intros Heq; by rewrite Heq in Hraw).
  pose proof (prepare_for_use_vals (csr_graph st) Hne) as Hlen.
  rewrite Hoffs, Hsum, Nat2N.id in Hlen.
  pose proof (prepare_for_use_zeros (csr_graph st)) as Hzeros.
  set (g0 := prepare_for_use (csr_graph st)) in *.
  assert (offsets g0 = partial_sum raw) as Hg0
    by (unfold g0; by rewrite prepare_for_use_offsets, Hoffs).
  assert (∀ e, e ∈ range →
            raw !! S (N.to_nat (index_of e)) = Some (N.of_nat (row_width e))) as Hw.
  { intros e He. unfold raw.
    replace (S (N.to_nat (index_of e))) with (N.to_nat (index_of e) + 1)%nat by lia.
    apply widths_offsets_lookup; [done|done|].
    rewrite length_replicate. specialize (Hlt e He). lia. }
  assert (∀ e, e ∈ range →
            offsets g0 !! N.to_nat (index_of e)
              = Some (sumN (take (S (N.to_nat (index_of e))) raw)) ∧
            offsets g0 !! (N.to_nat (index_of e) + 1)%nat
              = Some (sumN (take (S (N.to_nat (index_of e))) raw) + N.of_nat (row_width e)) ∧
            (N.to_nat (sumN (take (S (N.to_nat (index_of e))) raw)) + row_width e
               ≤ length (vals g0))%nat) as Hrows.
  { intros e He. specialize (Hlt e He). rewrite Hg0. unfold partial_sum.
    rewrite !lookup_partial_sum_from by lia. rewrite !N.add_0_l.
    replace (N.to_nat (index_of e) + 1)%nat with (S (N.to_nat (index_of e))) by lia.
    rewrite (sumN_take_S raw _ _ (Hw e He)). split; [done|]. split; [done|].
    pose proof (sumN_take_S raw _ _ (Hw e He)) as Hstep.
    pose proof (sumN_take_le raw (S (S (N.to_nat (index_of e))))) as Hle.
    rewrite Hlen. lia. }
  assert (∀ e, e ∈ range →
            row_start g0 e = N.to_nat (sumN (take (S (N.to_nat (index_of e))) raw))) as Hstart.
  { intros e He. unfold RowsSpec.row_start. by rewrite (proj1 (Hrows e He)). }
  assert (∀ e e', e ∈ range → e' ∈ range → index_of e < index_of e' →
            (row_start g0 e + row_width e ≤ row_start g0 e')%nat) as Hord.
  { intros e e' He He' Hee. rewrite !Hstart by done.
    pose proof (sumN_take_S raw _ _ (Hw e He)) as Hstep.
    pose proof (sumN_take_mono raw (S (S (N.to_nat (index_of e))))
                  (S (N.to_nat (index_of e'))) ltac:(lia)) as Hmono.
    lia. }
  destruct (second_pass_content range g0) as (g & Hsp & Ho & Hslices & Hframe & HP).
  { intros e He. destruct (Hwf e He) as [? Hint]. split; [done|]. split; [done|].
    destruct (Hrows e He) as (Ho & _ & Hroom). eexists. split; [exact Ho|].
    pose proof (row_written_le b view global_index_map interior_to_boundary_map e). lia. }
  { done. }
  { intros e e' He He' Hee.
    pose proof (row_written_le b view global_index_map interior_to_boundary_map e).
    pose proof (row_written_le b view global_index_map interior_to_boundary_map e').
    destruct (decide (index_of e < index_of e')) as [Hl|Hl].
    - left. specialize (Hord e e' He He' Hl). lia.
    - right. assert (index_of e' < index_of e) as Hl' by lia.
      specialize (Hord e' e He' He Hl'). lia. }
  destruct (second_pass_ok b view global_index_map interior_to_boundary_map range g0)
    as (g' & Hsp' & Hs1 & Hs2).
  { intros e He. destruct (Hwf e He) as [? Hint]. split; [done|]. split; [done|].
    destruct (Hrows e He) as (Ho' & _ & Hroom). eexists. split; [exact Ho'|].
    pose proof (row_written_le b view global_index_map interior_to_boundary_map e). lia. }
  rewrite Hsp in Hsp'. injection Hsp' as <-.
  rewrite Hsp. cbn [mbind res_bind].
  rewrite libmesh_assert_decide by (rewrite Hs2, Hlen, Hsize; done).
  cbn [mbind res_bind]. exists g, (vwgt st). split; [done|].
  assert (∀ x, row_start g x = row_start g0 x) as Hsame
    by (intros x; unfold RowsSpec.row_start; by rewrite Ho).
  split; [|split; [|split; [|split; [|split; [|split]]]]].
  - rewrite Ho, Hg0. unfold partial_sum. rewrite lookup_partial_sum_from by lia.
    assert (raw !! 0%nat = Some 0) as H0.
    { unfold raw. rewrite widths_offsets_first. apply lookup_replicate_2. lia. }
    destruct raw as [|x raw']; [done|]. simpl in H0. simplify_eq. simpl. done.
  - intros e He. destruct (Hrows e He) as (H1 & H2 & H3). eexists. rewrite Ho, Hs2. done.
  - intros e e' He He' Hee. rewrite !Hsame. by apply Hord.
  - intros e He. destruct (Hrows e He) as (H1 & H2 & H3).
    pose proof (row_written_le b view global_index_map interior_to_boundary_map e) as Hle.
    pose proof (length_row_values e) as Hrl.
    unfold RowsSpec.row_of. rewrite Hsame, Hstart by done. rewrite Ho, H2. cbn [default from_option id].
    replace (N.to_nat (sumN (take (S (N.to_nat (index_of e))) raw) + N.of_nat (row_width e))
             - N.to_nat (sumN (take (S (N.to_nat (index_of e))) raw)))%nat
      with (row_width e) by lia.
    apply list_eq. intros k.
    destruct (decide (k < row_written e)%nat) as [Hk|Hk].
    + rewrite lookup_take_lt by lia. rewrite lookup_drop, lookup_app_l by lia.
      destruct (lookup_lt_is_Some_2 (row_values e) k) as [v Hv]; [lia|].
      rewrite Hv. rewrite <- (Hstart e He). by apply Hslices.
    + destruct (decide (k < row_width e)%nat) as [Hk'|Hk'].
      * rewrite lookup_take_lt by lia. rewrite lookup_drop, lookup_app_r by lia.
        rewrite lookup_replicate_2 by lia. rewrite Hframe.
        -- rewrite Hzeros. apply lookup_replicate_2. lia.
        -- intros e' He'. rewrite <- (Hstart e He).
           pose proof (row_written_le b view global_index_map interior_to_boundary_map e').
           destruct (decide (index_of e' = index_of e)) as [Heq|Hneq].
           ++ assert (e' = e) as -> by by apply (index_of_inj range).
              right. lia.
           ++ destruct (decide (index_of e' < index_of e)) as [Hl|Hl].
              ** right. specialize (Hord e' e He' He Hl). lia.
              ** left. assert (index_of e < index_of e') as Hl' by lia.
                 specialize (Hord e e' He He' Hl'). lia.
      * rewrite lookup_take_ge by lia. symmetry. apply lookup_ge_None_2.
        rewrite length_app, length_replicate. lia.
  - done.
  - by rewrite Hvw, length_replicate.
  - intros P HP0 Hall. apply HP; [|done]. rewrite Hzeros.
    apply Forall_forall. intros x [-> _]%elem_of_replicate. done.
Qed.

End rows.
End RowsFacts.

(** ** The runs of the facade *)

Module RunFacts.
Import RunSpec.

(** *** What a run leaves alone outside its range *)

Section kept.
Context (range : list N).

Lemma outside_kept_refl st : outside_kept range st st.
Proof. by split. Qed.

Lemma outside_kept_trans st1 st2 st3 :
  outside_kept range st1 st2 → outside_kept range st2 st3 → outside_kept range st1 st3.
Proof.
  intros [H1 H2] [H3 H4]. split; [congruence|]. intros e He. by rewrite H4, H2.
Qed.

Lemma keeps_bind {A B} (f : prog A) (g : A → prog B) :
  keeps (outside_kept range) f → (∀ a, keeps (outside_kept range) (g a)) →
  keeps (outside_kept range) (f ≫= g).
Proof.
  intros Hf Hg st. unfold mbind, prog_bind. specialize (Hf st).
  destruct (f st) as [st' [a|h]]; [|done]. eapply outside_kept_trans; [done|apply Hg].
Qed.

Lemma keeps_mesh {A} (f : prog A) :
  (∀ st, elem_processor_id (f st).1.2 = elem_processor_id st.2 ∧
         processor_id (f st).1.2 = processor_id st.2) →
  keeps (outside_kept range) f.
Proof. intros H st. destruct (H st) as [H1 H2]. split; [done|]. intros. by rewrite H1. Qed.

Lemma keeps_ret {A} (a : A) : keeps (outside_kept range) (mret a).
Proof. by apply keeps_mesh. Qed.

Lemma keeps_lift {A} (r : res A) : keeps (outside_kept range) (lift r).
Proof. by apply keeps_mesh. Qed.

Lemma keeps_get_mesh : keeps (outside_kept range) get_mesh.
Proof. by apply keeps_mesh. Qed.

Lemma keeps_record c : keeps (outside_kept range) (record c).
Proof. by apply keeps_mesh. Qed.

Lemma keeps_print msg : keeps (outside_kept range) (print msg).
Proof. by apply keeps_mesh. Qed.

Lemma keeps_allgather : keeps (outside_kept range) allgather.
Proof. by apply keeps_mesh. Qed.

Lemma keeps_set_elem_processor_id elem procid :
  elem ∈ range → keeps (outside_kept range) (set_elem_processor_id elem procid).
Proof.
  intros Hin st. split; [done|]. intros e He. simpl.
  apply lookup_insert_ne. intros ->. done.
Qed.

Lemma keeps_single_partition_range rest :
  rest ⊆ range → keeps (outside_kept range) (single_partition_range rest).
Proof.
  induction rest as [|e rest IH]; intros Hsub; simpl; [apply keeps_ret|].
  apply keeps_bind; [|intros _; apply IH].
  - apply keeps_set_elem_processor_id, Hsub. by left.
  - intros x Hx. apply Hsub. by right.
Qed.

Lemma keeps_assign_processor_ids b view gim part rest :
  rest ⊆ range → keeps (outside_kept range) (assign_processor_ids b view gim part rest).
Proof.
  induction rest as [|e rest IH]; intros Hsub; simpl; [apply keeps_ret|].
  apply keeps_bind; [apply keeps_lift|intros _].
  apply keeps_bind; [apply keeps_lift|intros _].
  apply keeps_bind; [apply keeps_lift|intros v].
  apply keeps_bind; [|intros _; apply IH].
  - apply keeps_set_elem_processor_id, Hsub. by left.
  - intros x Hx. apply Hsub. by right.
Qed.

Lemma keeps_invoke_engine b env n g vwgt k :
  keeps (outside_kept range) (invoke_engine b env n g vwgt k).
Proof.
  unfold invoke_engine.
  case_bool_decide; (apply keeps_bind; [apply keeps_record|intros; apply keeps_ret]).
Qed.

Lemma keeps_broadcast env part : keeps (outside_kept range) (broadcast env part).
Proof.
  unfold broadcast. apply keeps_bind; [apply keeps_get_mesh|intros m].
  apply keeps_bind; [apply keeps_record|intros; apply keeps_ret].
Qed.

Lemma keeps_metis_partition_range b env k :
  keeps (outside_kept range) (metis_partition_range b env range k).
Proof.
  unfold metis_partition_range.
  apply keeps_bind; [apply keeps_record|intros _].
  apply keeps_bind; [apply keeps_lift|intros gim].
  apply keeps_bind; [apply keeps_get_mesh|intros m].
  apply keeps_bind; [|intros part].
  - case_bool_decide; [|apply keeps_ret].
    apply keeps_bind; [apply keeps_lift|intros gw]. apply keeps_invoke_engine.
  - apply keeps_bind; [apply keeps_broadcast|intros part'].
    by apply keeps_assign_processor_ids.
Qed.

Lemma keeps_partition_range b env k :
  LIBMESH_HAVE_METIS b = true → keeps (outside_kept range) (partition_range b env range k).
Proof.
  intros Hmetis. unfold partition_range.
  case_bool_decide; [apply keeps_ret|].
  case_bool_decide; [by apply keeps_single_partition_range|].
  apply keeps_bind; [apply keeps_lift|intros _].
  apply keeps_bind; [apply keeps_get_mesh|intros m].
  apply keeps_bind; [|intros _].
  - destruct (is_serial m); [apply keeps_ret|].
    apply keeps_bind; [apply keeps_print|intros _].
    apply keeps_bind; [apply keeps_record|intros _]. apply keeps_allgather.
  - rewrite Hmetis. apply keeps_metis_partition_range.
Qed.

End kept.

(** *** The state after the gather *)

Lemma gathered_calls p m : calls (gathered (p, m)).1 = calls p ++ gather_calls m.
Proof.
  unfold gathered, gather_calls. cbn [snd]. destruct (is_serial m); simpl;
    by rewrite ?app_nil_r.
Qed.

Lemma gathered_out p m : out (gathered (p, m)).1 = out p ++ gather_out m.
Proof.
  unfold gathered, gather_out. cbn [snd]. destruct (is_serial m); simpl;
    by rewrite ?app_nil_r.
Qed.

Lemma gathered_once_done p m : once_done (gathered (p, m)).1 = once_done p.
Proof. unfold gathered. cbn [snd]. by destruct (is_serial m). Qed.

Lemma gathered_mesh p m :
  is_serial (gathered (p, m)).2 = true ∧
  processor_id (gathered (p, m)).2 = processor_id m ∧
  elem_processor_id (gathered (p, m)).2 = elem_processor_id m.
Proof. unfold gathered. cbn [snd]. by destruct (is_serial m) eqn:Hs. Qed.

(** *** The branch with the Metis library, call by call *)

Section runs.
Context (b : Build) (env : Env) (range : list N).

Local Abbreviation ids := (elem_id (view env) <$> range).

Lemma invoke_engine_call g vw k p m :
  invoke_engine b env (length range) g vw k (p, m)
    = ((add_call p (engine_call b (length range) g vw k), m),
       Ok (engine_part b env range g vw k)).
Proof.
  unfold invoke_engine, engine_call, engine_part. by case_bool_decide.
Qed.

Lemma metis_partition_range_root k p m gim g vw :
  processor_id m = 0 →
  GlobalIndex.build_global_index_map b ids (find_global_indices env range) = Ok gim →
  Graph.build_graph b (view env) gim (Graph.build_interior_to_boundary_map b (view env) range)
    (weights env) range = Ok (g, vw) →
  (∀ e, e ∈ range →
     Graph.in_range (view env) gim e = true ∧
     (N.to_nat (Graph.index_of (view env) gim e) < length range)%nat) →
  metis_partition_range b env range k (p, m) =
    ((add_call (add_call (add_call p (call_find_global_indices range))
                  (engine_call b (length range) g vw k))
        (call_broadcast (engine_part b env range g vw k)),
      with_owners m
        (foldl (λ o e, <[e := owner_from b env gim (engine_part b env range g vw k) e]> o)
                       (elem_processor_id m) range)), Ok tt).
Proof.
  intros Hroot Hgim Hg Hidx. unfold metis_partition_range.
  unfold mbind at 1, prog_bind at 1, record. cbn [fst snd].
  unfold mbind at 1, prog_bind at 1, lift. rewrite Hgim.
  unfold mbind at 1, prog_bind at 1, get_mesh. cbn [fst snd].
  unfold mbind at 1, prog_bind at 1.
  rewrite (bool_decide_eq_true_2 _ Hroot).
  unfold mbind at 1, prog_bind at 1, lift. rewrite Hg. cbn [fst snd].
  rewrite invoke_engine_call.
  unfold broadcast, mbind, prog_bind, get_mesh, record, mret, prog_ret. cbn [fst snd].
  rewrite (bool_decide_eq_true_2 _ Hroot). cbv beta iota.
  rewrite assign_processor_ids_run
    by (intros e He; rewrite length_engine_part; by apply Hidx).
  done.
Qed.

Lemma metis_partition_range_other k p m gim :
  processor_id m ≠ 0 →
  GlobalIndex.build_global_index_map b ids (find_global_indices env range) = Ok gim →
  (∀ e, e ∈ range →
     Graph.in_range (view env) gim e = true ∧
     (N.to_nat (Graph.index_of (view env) gim e) < length (broadcast_received env))%nat) →
  metis_partition_range b env range k (p, m) =
    ((add_call (add_call p (call_find_global_indices range))
        (call_broadcast (broadcast_received env)),
      with_owners m (foldl (λ o e, <[e := owner_from b env gim (broadcast_received env) e]> o)
                       (elem_processor_id m) range)), Ok tt).
Proof.
  intros Hother Hgim Hidx. unfold metis_partition_range.
  unfold mbind at 1, prog_bind at 1, record. cbn [fst snd].
  unfold mbind at 1, prog_bind at 1, lift. rewrite Hgim.
  unfold mbind at 1, prog_bind at 1, get_mesh. cbn [fst snd].
  unfold mbind at 1, prog_bind at 1.
  rewrite (bool_decide_eq_false_2 _ Hother).
  unfold broadcast, mbind, prog_bind, get_mesh, record, mret, prog_ret. cbn [fst snd].
  rewrite (bool_decide_eq_false_2 _ Hother). cbv beta iota.
  rewrite assign_processor_ids_run by done.
  done.
Qed.

Lemma assign_processor_ids_process gim part rest st :
  (assign_processor_ids b (view env) gim part rest st).1.1 = st.1.
Proof.
  revert st. induction rest as [|e rest IH]; intros st; [done|].
  cbn [assign_processor_ids]. unfold mbind, prog_bind, lift. cbn [fst snd].
  destruct (libmesh_assert b 534 _) as [[]|h]; [|done].
  destruct (libmesh_assert b 539 _) as [[]|h]; [|done].
  destruct (vec_at 541 part _) as [v|h]; [|done].
  unfold set_elem_processor_id. cbn [fst snd]. by rewrite IH.
Qed.

(** What the root has logged and printed once the graph is built, whether
    the applier then returns or stops. *)
Lemma metis_partition_range_root_log k p m gim g vw :
  processor_id m = 0 →
  GlobalIndex.build_global_index_map b ids (find_global_indices env range) = Ok gim →
  Graph.build_graph b (view env) gim (Graph.build_interior_to_boundary_map b (view env) range)
    (weights env) range = Ok (g, vw) →
  (metis_partition_range b env range k (p, m)).1.1 =
    add_call (add_call (add_call p (call_find_global_indices range))
                (engine_call b (length range) g vw k))
      (call_broadcast (engine_part b env range g vw k)).
Proof.
  intros Hroot Hgim Hg. unfold metis_partition_range.
  unfold mbind at 1, prog_bind at 1, record. cbn [fst snd].
  unfold mbind at 1, prog_bind at 1, lift. rewrite Hgim.
  unfold mbind at 1, prog_bind at 1, get_mesh. cbn [fst snd].
  unfold mbind at 1, prog_bind at 1.
  rewrite (bool_decide_eq_true_2 _ Hroot).
  unfold mbind at 1, prog_bind at 1, lift. rewrite Hg. cbn [fst snd].
  rewrite invoke_engine_call.
  unfold broadcast, mbind, prog_bind, get_mesh, record, mret, prog_ret. cbn [fst snd].
  rewrite (bool_decide_eq_true_2 _ Hroot). cbv beta iota.
  by rewrite assign_processor_ids_process.
Qed.

End runs.

End RunFacts.

(** ** The graph builder outside its contract *)

Module GraphMore.
Import CSR Graph RowsSpec CSRFacts RowsFacts.

Section more.
Context (b : Build) (view : MeshView) (global_index_map : vectormap).
Context (interior_to_boundary_map : list (N * N)).

Local Abbreviation in_range := (Graph.in_range view global_index_map).
Local Abbreviation index_of := (Graph.index_of view global_index_map).
Local Abbreviation interior_in_mesh := (GraphSpec.interior_in_mesh view).
Local Abbreviation row_width :=
  (GraphSpec.row_width b view global_index_map interior_to_boundary_map).
Local Abbreviation row_written :=
  (GraphSpec.row_written b view global_index_map interior_to_boundary_map).
Local Abbreviation face_width := (GraphSpec.face_width b view global_index_map).
Local Abbreviation links_consistent := (GraphSpec.links_consistent view).
Local Abbreviation interior_neighbors_in_range :=
  (GraphSpec.interior_neighbors_in_range view global_index_map).

Lemma elem_of_interior_to_boundary_map range neighbor elem :
  (neighbor, elem) ∈ build_interior_to_boundary_map b view range ↔
  elem ∈ range ∧ has_interior_parent b view elem = true ∧
  neighbor ∈ find_interior_neighbors view elem.
Proof.
  unfold build_interior_to_boundary_map. rewrite list_elem_of_bind. split.
  - intros (e & Hin & He). destruct (has_interior_parent b view e) eqn:Hp;
      [|by apply elem_of_nil in Hin].
    apply list_elem_of_fmap in Hin as (nb & [= -> ->] & Hnb). done.
  - intros (He & Hp & Hnb). exists elem. split; [|done]. rewrite Hp.
    apply list_elem_of_fmap. by exists neighbor.
Qed.

(** Pass 1 stops at the assertion of line 260 on the first element whose
    global index is not below the size of the weight vector. *)
Lemma first_pass_out_of_bounds weights range st e :
  NDEBUG b = false →
  (∀ x, x ∈ range → links_consistent x) →
  NoDup (Graph.index_of view global_index_map <$> range) →
  (∀ x, x ∈ range → (N.to_nat (index_of x) < length (vwgt st))%nat →
     offsets (csr_graph st) !! (N.to_nat (index_of x) + 1)%nat = Some 0) →
  e ∈ range → (length (vwgt st) ≤ N.to_nat (index_of e))%nat →
  first_pass b view global_index_map interior_to_boundary_map weights range st
    = Halted (assertion_failed 260).
Proof.
  intros Hn. revert st. induction range as [|x rest IH]; intros st Hcons Hnd Hzero He Hbig.
  - by apply elem_of_nil in He.
  - apply NoDup_index_cons in Hnd as [Hne Hnd]. cbn [first_pass].
    destruct (decide (N.to_nat (index_of x) < length (vwgt st))%nat) as [Hlt|Hge].
    + rewrite first_pass_step_ok;
        [|apply Hcons; by left|done|apply Hzero; [by left|done]].
      cbn [mbind res_bind]. apply IH; cbn [vwgt csr_graph offsets].
      * intros; apply Hcons; by right.
      * done.
      * intros y Hy Hlty. rewrite length_insert in Hlty.
        rewrite list_lookup_insert_ne; [apply Hzero; [by right|done]|].
        specialize (Hne y Hy). lia.
      * apply elem_of_cons in He as [-> | He]; [lia|done].
      * by rewrite length_insert.
    + unfold first_pass_step, libmesh_assert. rewrite Hn.
      by rewrite (bool_decide_eq_false_2 (N.to_nat (index_of x) < length (vwgt st))%nat)
        by done.
Qed.

Lemma second_pass_app range1 range2 g :
  second_pass b view global_index_map interior_to_boundary_map (range1 ++ range2) g
    = second_pass b view global_index_map interior_to_boundary_map range1 g
        ≫= second_pass b view global_index_map interior_to_boundary_map range2.
Proof.
  revert g. induction range1 as [|e rest IH]; intros g; [done|].
  cbn [app second_pass].
  destruct (fill_row b view global_index_map interior_to_boundary_map g e) as [st|h];
    [|done]. cbn [mbind res_bind]. apply IH.
Qed.

(** The loop over the interior neighbors throws at the first one that
    belongs to the mesh and is not in the range. *)
Lemma fill_interior_neighbors_missing elem neighbor_set g c o neighbor :
  offsets g !! N.to_nat (index_of elem) = Some o →
  (N.to_nat o + c + length (interior_in_mesh neighbor_set) ≤ length (vals g))%nat →
  neighbor ∈ neighbor_set →
  query_elem_ptr view (elem_id view neighbor) = Some neighbor →
  in_range neighbor = false →
  fill_interior_neighbors b view global_index_map elem neighbor_set (g, c)
    = Halted (error_thrown 469).
Proof.
  revert g c. induction neighbor_set as [|nb rest IH]; intros g c Ho Hroom Hin Hq Hout.
  - by apply elem_of_nil in Hin.
  - revert Hroom. unfold GraphSpec.interior_in_mesh. rewrite filter_cons.
    fold (interior_in_mesh rest). cbn [fill_interior_neighbors].
    case_bool_decide as Hnb.
    + rewrite decide_True by done. cbn [length]. intros Hroom.
      unfold libmesh_map_find.
      destruct (vm_find global_index_map (elem_id view nb)) as [gi|] eqn:Hgi; [|done].
      cbn [mbind res_bind fst snd].
      rewrite (set_entry_content b 468 g _ c gi o Ho) by lia.
      cbn [mbind res_bind]. apply IH; cbn [offsets vals].
      * done.
      * rewrite length_insert. lia.
      * apply elem_of_cons in Hin as [-> | Hin]; [|done].
        unfold Graph.in_range, vm_count in Hout. rewrite Hgi in Hout.
        by rewrite bool_decide_eq_true_2 in Hout by done.
      * done.
      * done.
    + rewrite decide_False by done. intros Hroom. apply IH; try done.
      apply elem_of_cons in Hin as [-> | Hin]; [done|done].
Qed.

Lemma fill_row_missing elem g o neighbor :
  links_consistent elem →
  offsets g !! N.to_nat (index_of elem) = Some o →
  (N.to_nat o + row_written elem ≤ length (vals g))%nat →
  has_interior_parent b view elem = true →
  neighbor ∈ find_interior_neighbors view elem →
  query_elem_ptr view (elem_id view neighbor) = Some neighbor →
  in_range neighbor = false →
  fill_row b view global_index_map interior_to_boundary_map g elem
    = Halted (error_thrown 469).
Proof.
  intros Hcons Ho Hroom Hp Hin Hq Hout. revert Hroom.
  unfold fill_row, GraphSpec.row_written. rewrite Hp. intros Hroom.
  destruct (fill_face_neighbors_content b view global_index_map elem
              (neighbor_ptr_range view elem) g 0 o Ho)
    as (g1 & -> & Ho1 & Hv1); [lia|exact Hcons|]. cbn [mbind res_bind].
  pose proof (length_face_values b view global_index_map elem
                (neighbor_ptr_range view elem)) as Hface.
  rewrite (fill_interior_neighbors_missing elem _ g1 _ o neighbor); try done.
  - by rewrite Ho1.
  - rewrite Hv1, length_splice by lia. lia.
Qed.

(** Pass 1 on a range whose global indices are distinct and in bounds, and
    the room it leaves for each row. *)
Lemma first_pass_prepared weights range :
  (∀ e, e ∈ range → links_consistent e) →
  NoDup (Graph.index_of view global_index_map <$> range) →
  (∀ e, e ∈ range → (N.to_nat (index_of e) < length range)%nat) →
  ∃ st,
    first_pass b view global_index_map interior_to_boundary_map weights range
      {| csr_graph := {| offsets := replicate (length range + 1) 0; vals := [] |};
         vwgt := replicate (length range) 0%Z; graph_size := 0 |} = Ok st ∧
    ∀ e, e ∈ range → ∃ o,
      offsets (prepare_for_use (csr_graph st)) !! N.to_nat (index_of e) = Some o ∧
      (N.to_nat o + row_width e ≤ length (vals (prepare_for_use (csr_graph st))))%nat.
Proof.
  intros Hcons Hnd Hlt.
  set (st0 := {| csr_graph := {| offsets := replicate (length range + 1) 0; vals := [] |};
                 vwgt := replicate (length range) 0%Z; graph_size := 0 |}).
  assert (∀ e, e ∈ range → (N.to_nat (index_of e) < length (vwgt st0))%nat) as Hlt0
    by (intros; simpl; rewrite length_replicate; by apply Hlt).
  assert (∀ e, e ∈ range →
            offsets (csr_graph st0) !! (N.to_nat (index_of e) + 1)%nat = Some 0) as Hzero.
  { intros e He. simpl. apply lookup_replicate_2. specialize (Hlt e He). lia. }
  destruct (GraphFacts.first_pass_ok b view global_index_map interior_to_boundary_map
              weights range st0 Hcons Hlt0 Hnd Hzero) as (st & Hfp & Hoffs & _).
  exists st. split; [done|]. simpl in Hoffs.
  set (raw := GraphSpec.widths_offsets b view global_index_map interior_to_boundary_map range
                (replicate (length range + 1) 0)) in *.
  assert (length raw = S (length range)) as Hraw
    by (unfold raw; rewrite GraphFacts.length_widths_offsets, length_replicate; lia).
  assert (offsets (csr_graph st) ≠ []) as Hne
    by (rewrite Hoffs; intros Heq; by rewrite Heq in Hraw).
  pose proof (prepare_for_use_vals (csr_graph st) Hne) as Hlen. rewrite Hoffs in Hlen.
  intros e He. specialize (Hlt e He).
  exists (0 + CSRSpec.sumN (take (S (N.to_nat (index_of e))) raw)). split.
  - rewrite prepare_for_use_offsets, Hoffs. apply lookup_partial_sum_from. lia.
  - rewrite Hlen.
    assert (raw !! S (N.to_nat (index_of e)) = Some (N.of_nat (row_width e))) as Hw.
    { unfold raw.
      replace (S (N.to_nat (index_of e))) with (N.to_nat (index_of e) + 1)%nat by lia.
      apply GraphFacts.widths_offsets_lookup; [done|done|].
      rewrite length_replicate. lia. }
    pose proof (sumN_take_S raw _ _ Hw) as Hstep.
    pose proof (sumN_take_le raw (S (S (N.to_nat (index_of e))))) as Hle. lia.
Qed.

(** The offsets of the finished graph are the running sums of the widths
    pass 1 stored. *)
Lemma build_graph_offsets weights range :
  GraphSpec.range_ok view global_index_map range →
  ∃ g vw, build_graph b view global_index_map interior_to_boundary_map weights range
            = Ok (g, vw) ∧
    offsets g = partial_sum
                  (GraphSpec.widths_offsets b view global_index_map interior_to_boundary_map
                     range (replicate (length range + 1) 0)) ∧
    CSRSpec.sumN (GraphSpec.widths_offsets b view global_index_map interior_to_boundary_map
                    range (replicate (length range + 1) 0))
      = N.of_nat (GraphSpec.total_edge_count b view global_index_map
                    interior_to_boundary_map range) ∧
    length (vals g)
      = Nat.max (GraphSpec.total_edge_count b view global_index_map
                   interior_to_boundary_map range) 1.
Proof.
  intros Hok.
  destruct (GraphFacts.build_graph_ok b view global_index_map interior_to_boundary_map
              weights range Hok) as (g & vw & Hg & Hlv & _).
  exists g, vw. split; [done|]. destruct Hok as (Hwf & Hnd & Hlt).
  set (st0 := {| csr_graph := {| offsets := replicate (length range + 1) 0; vals := [] |};
                 vwgt := replicate (length range) 0%Z; graph_size := 0 |}).
  assert (∀ e, e ∈ range → links_consistent e) as Hcons by (intros; by apply Hwf).
  assert (∀ e, e ∈ range → (N.to_nat (index_of e) < length (vwgt st0))%nat) as Hlt0
    by (intros; simpl; rewrite length_replicate; by apply Hlt).
  assert (∀ e, e ∈ range →
            offsets (csr_graph st0) !! (N.to_nat (index_of e) + 1)%nat = Some 0) as Hzero.
  { intros e He. simpl. apply lookup_replicate_2. specialize (Hlt e He). lia. }
  destruct (GraphFacts.first_pass_ok b view global_index_map interior_to_boundary_map
              weights range st0 Hcons Hlt0 Hnd Hzero) as (st & Hfp & Hoffs & _).
  destruct (first_pass_prepared weights range Hcons Hnd Hlt) as (st' & Hfp' & Hroom).
  fold st0 in Hfp'. rewrite Hfp in Hfp'. injection Hfp' as <-.
  simpl in Hoffs. split; [|split; [|done]].
  - destruct (GraphFacts.second_pass_ok b view global_index_map interior_to_boundary_map
                range (prepare_for_use (csr_graph st))) as (g' & Hsp & Hs & _).
    { intros e He. destruct (Hwf e He) as [? ?]. split; [done|]. split; [done|].
      destruct (Hroom e He) as (o & Ho & Hr). exists o. split; [done|].
      pose proof (GraphFacts.row_written_le b view global_index_map
                    interior_to_boundary_map e). lia. }
    revert Hg. unfold build_graph. fold st0. rewrite Hfp. cbn [mbind res_bind].
    rewrite Hsp. cbn [mbind res_bind].
    destruct (libmesh_assert b 484 _) as [[]|h]; [|done]. cbn [mbind res_bind].
    intros [= <- _]. by rewrite Hs, prepare_for_use_offsets, Hoffs.
  - rewrite GraphFacts.widths_offsets_sum, sumN_replicate; [lia|done|].
    intros e He. apply lookup_replicate_2. specialize (Hlt e He). lia.
Qed.

(** *** The entries of a key in the reverse map *)

Lemma equal_range_Permutation (m : list (N * N)) key :
  equal_range b m key ≡ₚ filter (λ pr, pr.1 = key) m.
Proof. unfold equal_range. by case_bool_decide. Qed.

Lemma elem_of_equal_range (m : list (N * N)) key pr :
  pr ∈ equal_range b m key ↔ pr.1 = key ∧ pr ∈ m.
Proof.
  rewrite equal_range_Permutation.
  apply (list_elem_of_filter (λ pr : N * N, pr.1 = key)).
Qed.

(** *** The builder on a range closed under the interior neighbors it reads *)

Lemma fill_row_ok_guarded elem g o :
  links_consistent elem →
  (has_interior_parent b view elem = true → interior_neighbors_in_range elem) →
  offsets g !! N.to_nat (index_of elem) = Some o →
  (N.to_nat o + row_written elem ≤ length (vals g))%nat →
  ∃ g', fill_row b view global_index_map interior_to_boundary_map g elem
          = Ok (g', row_written elem)
        ∧ GraphSpec.same_shape g g'.
Proof.
  intros Hcons Hint Ho Hroom.
  destruct (has_interior_parent b view elem) eqn:Hp;
    [by apply (GraphFacts.fill_row_ok b view global_index_map interior_to_boundary_map
                 elem g o); auto|].
  revert Hroom. unfold fill_row, GraphSpec.row_written. rewrite Hp. intros Hroom.
  destruct (GraphFacts.fill_face_neighbors_ok b view global_index_map elem
              (neighbor_ptr_range view elem) g 0 o Ho)
    as (g1 & -> & Hs1); [lia|exact Hcons|]. cbn [mbind res_bind].
  destruct (GraphFacts.fill_boundary_neighbors_ok b view global_index_map elem
              (equal_range b interior_to_boundary_map elem) g1
              (0 + face_width elem (neighbor_ptr_range view elem))%nat o)
    as (g3 & -> & Hs3).
  { by rewrite (proj1 Hs1). }
  { rewrite (proj2 Hs1). lia. }
  exists g3. split; [do 2 f_equal; lia|]. by eapply GraphFacts.same_shape_trans.
Qed.

Lemma second_pass_ok_guarded range g :
  (∀ e, e ∈ range →
     links_consistent e ∧
     (has_interior_parent b view e = true → interior_neighbors_in_range e) ∧
     ∃ o, offsets g !! N.to_nat (index_of e) = Some o ∧
          (N.to_nat o + row_written e ≤ length (vals g))%nat) →
  ∃ g', second_pass b view global_index_map interior_to_boundary_map range g = Ok g' ∧
        GraphSpec.same_shape g g'.
Proof.
  revert g. induction range as [|e rest IH]; intros g Hok.
  - by exists g.
  - cbn [second_pass].
    destruct (Hok e) as (Hcons & Hint & o & Ho & Hroom); [by left|].
    destruct (fill_row_ok_guarded e g o Hcons Hint Ho Hroom) as (g1 & -> & Hs1).
    cbn [mbind res_bind fst].
    destruct (IH g1) as (g2 & -> & Hs2).
    + intros e' He'. destruct (Hok e') as (? & ? & o' & ? & ?); [by right|].
      split; [done|]. split; [done|]. exists o'. by rewrite (proj1 Hs1), (proj2 Hs1).
    + exists g2. split; [done|]. by eapply GraphFacts.same_shape_trans.
Qed.

(** The graph is built on every range whose global indices are distinct and
    in bounds, on which the structural assertions hold, and in which each
    element with an interior parent has its interior neighbors that belong to
    the mesh in the range. *)
Lemma build_graph_ok_guarded weights range :
  (∀ e, e ∈ range → links_consistent e) →
  (∀ e, e ∈ range → has_interior_parent b view e = true → interior_neighbors_in_range e) →
  NoDup (Graph.index_of view global_index_map <$> range) →
  (∀ e, e ∈ range → (N.to_nat (index_of e) < length range)%nat) →
  ∃ g vw, build_graph b view global_index_map interior_to_boundary_map weights range
            = Ok (g, vw).
Proof.
  intros Hcons Hint Hnd Hlt. unfold build_graph.
  set (st0 := {| csr_graph := {| offsets := replicate (length range + 1) 0; vals := [] |};
                 vwgt := replicate (length range) 0%Z; graph_size := 0 |}).
  assert (∀ e, e ∈ range → (N.to_nat (index_of e) < length (vwgt st0))%nat) as Hlt0
    by (intros; simpl; rewrite length_replicate; by apply Hlt).
  assert (∀ e, e ∈ range →
            offsets (csr_graph st0) !! (N.to_nat (index_of e) + 1)%nat = Some 0) as Hzero.
  { intros e He. simpl. apply lookup_replicate_2. specialize (Hlt e He). lia. }
  destruct (GraphFacts.first_pass_ok b view global_index_map interior_to_boundary_map
              weights range st0 Hcons Hlt0 Hnd Hzero) as (st & Hfp & Hoffs & _ & Hsize & _).
  destruct (first_pass_prepared weights range Hcons Hnd Hlt) as (st' & Hfp' & Hroom).
  fold st0 in Hfp'. rewrite Hfp in Hfp'. injection Hfp' as <-.
  rewrite Hfp. cbn [mbind res_bind]. simpl in Hoffs, Hsize.
  set (raw := GraphSpec.widths_offsets b view global_index_map interior_to_boundary_map range
                (replicate (length range + 1) 0)) in *.
  assert (length raw = S (length range)) as Hraw
    by (unfold raw; rewrite GraphFacts.length_widths_offsets, length_replicate; lia).
  assert (CSRSpec.sumN raw
            = N.of_nat (GraphSpec.total_edge_count b view global_index_map
                          interior_to_boundary_map range)) as Hsum.
  { unfold raw. rewrite GraphFacts.widths_offsets_sum, sumN_replicate; [lia|done|].
    intros e He. apply lookup_replicate_2. specialize (Hlt e He). lia. }
  assert (offsets (csr_graph st) ≠ []) as Hne
    by (rewrite Hoffs; intros Heq; by rewrite Heq in Hraw).
  pose proof (prepare_for_use_vals (csr_graph st) Hne) as Hlen.
  rewrite Hoffs, Hsum, Nat2N.id in Hlen.
  destruct (second_pass_ok_guarded range (prepare_for_use (csr_graph st)))
    as (g & -> & Hs1 & Hs2).
  { intros e He. split; [by apply Hcons|]. split; [by apply Hint|].
    destruct (Hroom e He) as (o & Ho & Hr). exists o. split; [done|].
    pose proof (GraphFacts.row_written_le b view global_index_map
                  interior_to_boundary_map e). lia. }
  cbn [mbind res_bind].
  rewrite libmesh_assert_decide by (rewrite Hs2, Hlen, Hsize; done).
  cbn [mbind res_bind]. by exists g, (vwgt st).
Qed.

End more.
End GraphMore.

(** * The claims *)

Import GlobalIndexMore RowsSpec RowsFacts RunSpec RunFacts GraphMore.

(** C1, as stated, fails in three ways. For a single piece the owners are
    written directly and nothing is broadcast. For two pieces, on a range
    that leaves out an interior neighbor of one of its elements although the
    neighbor belongs to the mesh, the call throws at line 469 before anything
    is broadcast, and no owner is written. And when [find_global_indices]
    returns a hint that is not below the number of elements, the call stops
    at the assertion of line 260, again before the broadcast. *)
Lemma C1_not_every_call_assigns_from_the_broadcast :
  ¬ assigned_from_broadcast debug_build grid_env grid_range 1
      (fresh_process, replicated_mesh 0) ∧
  partition_range debug_build positional_env [401] 2 (fresh_process, replicated_mesh 0)
    = ((add_call fresh_process (call_find_global_indices [401]), replicated_mesh 0),
       Halted (error_thrown 469)) ∧
  ¬ assigned_from_broadcast debug_build positional_env [401] 2
      (fresh_process, replicated_mesh 0) ∧
  partition_range debug_build mixed_env [401] 2 (fresh_process, replicated_mesh 0)
    = ((add_call fresh_process (call_find_global_indices [401]), replicated_mesh 0),
       Halted (assertion_failed 260)) ∧
  ¬ assigned_from_broadcast debug_build mixed_env [401] 2
      (fresh_process, replicated_mesh 0).
Proof.
  split; [|split; [|split; [|split]]].
  - intros (gim & part & _ & Hin & _). vm_compute in Hin. by apply elem_of_nil in Hin.
  - by vm_compute.
  - intros (gim & part & _ & Hin & _). vm_compute in Hin.
    apply elem_of_cons in Hin as [Heq|Hin]; [discriminate Heq|by apply elem_of_nil in Hin].
  - by vm_compute.
  - intros (gim & part & _ & Hin & _). vm_compute in Hin.
    apply elem_of_cons in Hin as [Heq|Hin]; [discriminate Heq|by apply elem_of_nil in Hin].
Qed.

(** C1 (amended). For a non-empty range and two or more pieces, in a build
    with the Metis library, [partition_range] returns normally and every
    element of the range has its owner assigned from the broadcast partition
    vector, with a value below [k], provided that: the identifiers of the
    range are distinct; [find_global_indices] returns one hint per element,
    admissible for the build; on the root, the structural assertions hold on
    the range, every element of the range with an interior parent has its
    interior neighbors that belong to the mesh in the range, [k] is a value
    [Metis::idx_t] holds, and the engine returns ids below the [nparts] it is
    given; on the other processes, the received vector has one id below [k]
    per element. For one piece every element is assigned owner 0 and nothing
    is broadcast. No element of the range is skipped. *)
Theorem C1_owners_assigned b env range k p m :
  range ≠ [] → 1 ≤ k →
  let outcome := partition_range b env range k (p, m) in
  (k = 1 →
     outcome.2 = Ok tt ∧ new_calls p outcome = [] ∧
     ∀ e, e ∈ range → elem_processor_id outcome.1.2 !! e = Some 0) ∧
  (k ≠ 1 →
     LIBMESH_HAVE_METIS b = true →
     NoDup (elem_id (view env) <$> range) →
     length (find_global_indices env range) = length range →
     hints_admissible b (elem_id (view env) <$> range) (find_global_indices env range) →
     (processor_id m = 0 →
        (∀ e, e ∈ range → links_consistent (view env) e) ∧
        (∀ e neighbor, e ∈ range → Graph.has_interior_parent b (view env) e = true →
           neighbor ∈ find_interior_neighbors (view env) e →
           query_elem_ptr (view env) (elem_id (view env) neighbor) = Some neighbor →
           elem_id (view env) neighbor ∈ elem_id (view env) <$> range) ∧
        fits_idx_t b (Z.of_N k) ∧
        engine_contract env (Z.of_N k)) →
     (processor_id m ≠ 0 → received_contract env range k) →
     outcome.2 = Ok tt ∧ assigned_from_broadcast b env range k (p, m)).
Proof.
  intros Hne Hk. split.
  - intros ->. rewrite partition_range_single, single_partition_range_run by done.
    cbn [fst snd]. split; [done|]. split.
    + unfold new_calls. cbn [fst snd]. by rewrite drop_all.
    + intros e He. cbn [with_owners elem_processor_id].
      rewrite (foldl_insert_lookup (λ _, 0)). by rewrite decide_True.
  - intros Hk1 Hmetis Hnd Hlen Hhints Hroot Hother.
    assert (builds_bijection b (elem_id (view env) <$> range) (find_global_indices env range))
      as (gim & Hgim & Hbij)
      by (apply builds_bijection_iff; [done|by rewrite length_fmap|done]).
    destruct (bijection_range_indices env range gim Hnd Hbij) as [Hndi Hidx].
    unfold assigned_from_broadcast.
    rewrite partition_range_general by (done || lia).
    unfold after_gather. rewrite Hmetis.
    pose proof (gathered_calls p m) as Hcalls.
    destruct (gathered_mesh p m) as (_ & Hrank & _).
    destruct (gathered (p, m)) as [p' m']. cbn [fst snd] in Hcalls, Hrank.
    assert (∀ part, Forall (λ v, v < k) part → ∀ e, owner_from b env gim part e < k)
      as Hbound.
    { intros part Hpart e. unfold owner_from.
      destruct (part !! N.to_nat (Graph.index_of (view env) gim e)) as [v|] eqn:Hv; simpl.
      - rewrite Forall_lookup in Hpart. specialize (Hpart _ _ Hv).
        pose proof (N.Div0.mod_le v (2 ^ processor_id_bits b)). lia.
      - rewrite N.Div0.mod_0_l. lia. }
    destruct (decide (processor_id m = 0)) as [H0|H0].
    + destruct (Hroot H0) as (Hlinks & Hclosed & Hfits & Hengine).
      destruct (build_graph_ok_guarded b (view env) gim
                  (Graph.build_interior_to_boundary_map b (view env) range)
                  (weights env) range) as (g & vw & Hg); [done| |done|by apply Hidx|].
      { intros e He Hp neighbor Hin Hq.
        destruct (bijection_lookup env range gim _ Hnd Hbij (Hclosed e neighbor He Hp Hin Hq))
          as (v & Hf & _).
        unfold Graph.in_range, vm_count. rewrite Hf. by apply bool_decide_eq_true_2. }
      rewrite (metis_partition_range_root b env range k p' m' gim g vw);
        [|congruence|done|done|done].
      cbn [fst snd]. split; [done|].
      exists gim, (engine_part b env range g vw k). split; [done|]. split.
      * unfold new_calls. cbn [fst snd add_call calls]. rewrite Hcalls.
        rewrite <- !app_assoc, drop_app_length.
        apply elem_of_app. right. apply elem_of_app. right. apply elem_of_app. right.
        by left.
      * intros e He. cbn [with_owners elem_processor_id].
        rewrite (foldl_insert_lookup (owner_from b env gim (engine_part b env range g vw k))).
        rewrite decide_True by done. split; [done|]. apply Hbound.
        pose proof (engine_part_bound b env range g vw k) as Hpart.
        rewrite static_cast_idx_t_fits in Hpart by (done || lia).
        eapply Forall_impl; [by apply Hpart|]. intros v Hv. simpl in Hv. lia.
    + destruct (Hother H0) as [Hlr Hrecv].
      rewrite (metis_partition_range_other b env range k p' m' gim);
        [|congruence|done|intros e He; rewrite Hlr; by apply Hidx].
      cbn [fst snd]. split; [done|].
      exists gim, (broadcast_received env). split; [done|]. split.
      * unfold new_calls. cbn [fst snd add_call calls]. rewrite Hcalls.
        rewrite <- !app_assoc, drop_app_length.
        apply elem_of_app. right. apply elem_of_app. right. by left.
      * intros e He. cbn [with_owners elem_processor_id].
        rewrite (foldl_insert_lookup (owner_from b env gim (broadcast_received env))).
        rewrite decide_True by done. split; [done|]. by apply Hbound.
Qed.

Lemma grid_mesh_consistent : mesh_consistent grid_env grid_range.
Proof.
  intros e He. split.
  - intros neighbor _ Hact. discriminate Hact.
  - intros neighbor Hin. by apply elem_of_nil in Hin.
Qed.

Lemma grid_engine_contract k : (0 < k)%Z → engine_contract grid_env k.
Proof.
  intros Hk n xadj adjncy vwgt i. simpl.
  pose proof (Z.mod_pos_bound (Z.of_nat i) k Hk). split; lia.
Qed.

Lemma grid_hints_ok b :
  hints_ok b (elem_id (view grid_env) <$> grid_range) (find_global_indices grid_env grid_range).
Proof.
  split; [done|]. split.
  - repeat constructor.
  - intros _. compute_done.
Qed.

Lemma grid_hints_admissible b :
  hints_admissible b (elem_id (view grid_env) <$> grid_range)
    (find_global_indices grid_env grid_range).
Proof. split; [intros _; compute_done|intros _; repeat constructor]. Qed.

Lemma C1_owners_assigned_witness :
  grid_range ≠ [] ∧ 1 ≤ 2 ∧
  (partition_range debug_build grid_env grid_range 2 (fresh_process, replicated_mesh 0)).2
    = Ok tt ∧
  assigned_from_broadcast debug_build grid_env grid_range 2 (fresh_process, replicated_mesh 0).
Proof.
  assert (grid_range ≠ []) as Hne by done.
  assert (1 ≤ 2) as Hk by done.
  split; [exact Hne|]. split; [exact Hk|].
  apply (C1_owners_assigned debug_build grid_env grid_range 2 fresh_process
           (replicated_mesh 0) Hne Hk).
  - done.
  - reflexivity.
  - compute_done.
  - reflexivity.
  - apply grid_hints_admissible.
  - intros _. split; [|split; [|split]].
    + intros e _ neighbor _ Hact. discriminate Hact.
    + intros e neighbor _ _ Hin. by apply elem_of_nil in Hin.
    + unfold fits_idx_t. simpl. lia.
    + by apply grid_engine_contract.
  - intros Hrank. by destruct Hrank.
Defined.

(** C2, as stated, fails: the code copies the hints whenever no two elements
    share one, and checks neither that they are below the number of elements
    nor, where elements carry a unique id and assertions are off, that they
    are distinct. With hints 7, 0, 5 for three elements the map is built with
    these indices; with hints 1, 1, 0 in a build with unique ids two elements
    get the same index. *)
Lemma C2_hints_are_copied_unchecked :
  GlobalIndex.build_global_index_map debug_build [10; 11; 12] [7; 0; 5]
    = Ok [(10, 7); (11, 0); (12, 5)] ∧
  ¬ builds_bijection debug_build [10; 11; 12] [7; 0; 5] ∧
  GlobalIndex.build_global_index_map unique_id_build [10; 11; 12] [1; 1; 0]
    = Ok [(10, 1); (11, 1); (12, 0)] ∧
  ¬ builds_bijection unique_id_build [10; 11; 12] [1; 1; 0].
Proof.
  split; [by vm_compute|]. split; [|split; [by vm_compute|]].
  - rewrite builds_bijection_iff by (compute_done || done). intros [_ Hbound].
    assert (NoDup [7; 0; 5]) as Hnd by compute_done.
    apply Hbound in Hnd. apply Forall_cons_1 in Hnd as [Hlt _]. simpl in Hlt. lia.
  - rewrite builds_bijection_iff by (compute_done || done). intros [Huniq _].
    specialize (Huniq eq_refl). apply NoDup_cons in Huniq as [Hnotin _].
    apply Hnotin. by left.
Qed.

(** C2 (amended). For a range of [n] elements with distinct identifiers
    and one hint per element from [find_global_indices], the global index map
    is built and is a bijection from the identifiers of the range onto
    [0 .. n-1] (every identifier is a key exactly once, and the indices are
    exactly [0 .. n-1], each once) when the hints are admissible: where
    elements carry a unique id no two elements share a hint, and whenever no
    two elements share a hint every hint is below [n]. For other hints the
    map is not such a bijection. Hints that collide in a build without unique
    ids need no bound: they are renumbered. *)
Theorem C2_global_index_map_bijection b (ids global_index : list N) :
  NoDup ids →
  length global_index = length ids →
  (hints_admissible b ids global_index →
   ∃ global_index_map,
     GlobalIndex.build_global_index_map b ids global_index = Ok global_index_map ∧
     global_index_map.*1 ≡ₚ ids ∧
     global_index_map.*2 ≡ₚ N.of_nat <$> seq 0 (length ids) ∧
     ∀ id, id ∈ ids →
       ∃ v, vm_find global_index_map id = Some v ∧ v < N.of_nat (length ids)) ∧
  (builds_bijection b ids global_index → hints_admissible b ids global_index).
Proof.
  intros Hnd Hlen. split; [|by apply builds_bijection_iff].
  intros Hhints.
  assert (builds_bijection b ids global_index) as (m & Hm & H1 & H2)
    by by apply builds_bijection_iff.
  exists m. split; [done|]. split; [done|]. split; [done|].
  intros id Hid. rewrite <- H1 in Hid.
  apply list_elem_of_fmap in Hid as ([id' v] & -> & Hin). exists v. split.
  - apply vm_find_elem_of; [by rewrite H1|done].
  - assert (v ∈ m.*2) as Hv by (apply list_elem_of_fmap; by exists (id', v)).
    rewrite H2 in Hv. apply list_elem_of_fmap in Hv as (i & -> & Hi).
    apply elem_of_seq in Hi. lia.
Qed.

Lemma C2_global_index_map_bijection_witness :
  (hints_admissible debug_build [10; 11; 12] [40; 40; 7] →
   ∃ global_index_map,
     GlobalIndex.build_global_index_map debug_build [10; 11; 12] [40; 40; 7]
       = Ok global_index_map ∧
     global_index_map.*1 ≡ₚ [10; 11; 12] ∧
     global_index_map.*2 ≡ₚ N.of_nat <$> seq 0 (length [10; 11; 12]) ∧
     ∀ id, id ∈ [10; 11; 12] →
       ∃ v, vm_find global_index_map id = Some v ∧ v < N.of_nat (length [10; 11; 12])) ∧
  (builds_bijection debug_build [10; 11; 12] [40; 40; 7] →
   hints_admissible debug_build [10; 11; 12] [40; 40; 7]).
Proof.
  apply (C2_global_index_map_bijection debug_build [10; 11; 12] [40; 40; 7]).
  - compute_done.
  - reflexivity.
Defined.

(** C3. Two elements that share a hint are numbered in the order the range
    iterates them (lines 146-152 and 164-166), so two iteration orders over
    the same two elements give different maps: the element with identifier 1
    gets index 1 when it comes second and index 0 when it comes first. The
    indexing is not independent of the element ordering, which the comment at
    lines 113-116 asks for. *)
Theorem C3_order_of_colliding_elements_matters :
  assign release_build [(0, 0); (1, 0)] = Ok [(0, 0); (1, 1)] ∧
  assign release_build [(1, 0); (0, 0)] = Ok [(1, 0); (0, 1)] ∧
  ¬ iteration_order_independent release_build.
Proof.
  split; [by vm_compute|]. split; [by vm_compute|].
  intros Hind.
  specialize (Hind [(0, 0); (1, 0)] [(1, 0); (0, 0)]).
  assert (NoDup [(0, 0); (1, 0)].*1) as Hnd by compute_done.
  assert ([(0, 0); (1, 0)] ≡ₚ [(1, 0); (0, 0)]) as Hp by apply Permutation_swap.
  specialize (Hind Hnd Hp). vm_compute in Hind. destruct Hind as [_ Hfind].
  specialize (Hfind 0). vm_compute in Hfind. discriminate Hfind.
Qed.

(** What the code does keep: two iteration orders that list the elements
    sharing a hint in the same relative order give the same mapping; and in a
    build without unique ids the elements sharing a hint get increasing
    indices in iteration order. *)
Lemma same_mapping_for_same_colliding_order b (l1 l2 : list (N * N)) :
  NoDup l1.*1 → l1 ≡ₚ l2 → same_order_of_colliding l1 l2 →
  same_mapping (assign b l1) (assign b l2) ∧
  (LIBMESH_ENABLE_UNIQUE_ID b = false →
   ∀ m i j a c, assign b l1 = Ok m →
     l1 !! i = Some a → l1 !! j = Some c → (i < j)%nat → a.2 = c.2 →
     vm_at m a.1 < vm_at m c.1).
Proof.
  intros Hnd Hp Hsame. split; [by apply assign_same_mapping|].
  intros Hu m i j a c Hm Hi Hj Hlt Heq.
  by apply (colliding_in_iteration_order b l1 m i j a c).
Qed.

(** C4 at a boundary mesh whose interior parents belong to another mesh:
    pass 1 counts a row width of 2 for the first element (its face neighbor
    and its interior neighbor), pass 2 writes only 1 entry into that row (the
    interior neighbor is not an element of this mesh), and the finished value
    array keeps zero-initialised slots. *)
Theorem C4_row_width_exceeds_entries_written :
  let i2b := Graph.build_interior_to_boundary_map release_build boundary_view boundary_range in
  Graph.count_neighbors release_build boundary_view boundary_index_map i2b 200 = Ok 2%nat ∧
  Graph.fill_row release_build boundary_view boundary_index_map i2b
    {| CSR.offsets := [0; 2; 4]; CSR.vals := [0; 0; 0; 0] |} 200
    = Ok ({| CSR.offsets := [0; 2; 4]; CSR.vals := [1; 0; 0; 0] |}, 1%nat) ∧
  Graph.build_graph release_build boundary_view boundary_index_map i2b None boundary_range
    = Ok ({| CSR.offsets := [0; 2; 4]; CSR.vals := [1; 0; 0; 0] |}, [2; 2]%Z).
Proof. by vm_compute. Qed.

(** C5. For a non-empty range and one piece, [partition_range] assigns
    owner 0 to every element of the range and returns; the process is left
    as it was (no call to [find_global_indices], to the engine or to the
    broadcast is logged, nothing is printed), and so are the replication state
    of the mesh and the owners of the other elements. *)
Theorem C5_single_piece_assigns_zero b env range p m :
  range ≠ [] →
  partition_range b env range 1 (p, m) = single_partition_range range (p, m) ∧
  ∃ m', partition_range b env range 1 (p, m) = ((p, m'), Ok tt) ∧
        is_serial m' = is_serial m ∧
        (∀ e, e ∈ range → elem_processor_id m' !! e = Some 0) ∧
        (∀ e, e ∉ range → elem_processor_id m' !! e = elem_processor_id m !! e).
Proof.
  intros Hne. split; [by apply partition_range_single|].
  rewrite partition_range_single, single_partition_range_run by done.
  eexists. split; [done|]. split; [done|]. cbn [with_owners elem_processor_id]. split.
  - intros e He. rewrite (foldl_insert_lookup (λ _, 0)). by rewrite decide_True.
  - intros e He. rewrite (foldl_insert_lookup (λ _, 0)). by rewrite decide_False.
Qed.

Lemma C5_single_piece_assigns_zero_witness :
  partition_range release_build grid_env grid_range 1 (fresh_process, distributed_mesh 3)
    = single_partition_range grid_range (fresh_process, distributed_mesh 3) ∧
  ∃ m', partition_range release_build grid_env grid_range 1
          (fresh_process, distributed_mesh 3) = ((fresh_process, m'), Ok tt) ∧
        is_serial m' = false ∧
        (∀ e, e ∈ grid_range → elem_processor_id m' !! e = Some 0) ∧
        (∀ e, e ∉ grid_range → elem_processor_id m' !! e = None).
Proof.
  apply (C5_single_piece_assigns_zero release_build grid_env grid_range fresh_process
           (distributed_mesh 3)).
  done.
Defined.



(** C7. A call reaches the partitioning engine when it runs on the root,
    past the early returns, and the global index map and the graph are
    built. It then invokes exactly one entry point of the engine: the
    recursive bisection when [n_pieces <= 8] and the direct k-way partitioning
    when [n_pieces > 8], on the graph built, whether the call then returns or
    stops. And no call, reaching the engine or not, logs an engine call of the
    other kind: the entry point is a function of [n_pieces] alone. *)
Theorem C7_engine_chosen_by_n_pieces b env range n_pieces p m :
  let outcome := partition_range b env range n_pieces (p, m) in
  (∀ gim g vw,
     range ≠ [] → n_pieces ≠ 1 → (NDEBUG b = false → 0 < n_pieces) →
     LIBMESH_HAVE_METIS b = true → processor_id m = 0 →
     GlobalIndex.build_global_index_map b (elem_id (view env) <$> range)
       (find_global_indices env range) = Ok gim →
     Graph.build_graph b (view env) gim
       (Graph.build_interior_to_boundary_map b (view env) range) (weights env) range
       = Ok (g, vw) →
     (n_pieces ≤ 8 →
        filter is_engine_call (new_calls p outcome)
          = [call_METIS_PartGraphRecursive (N.of_nat (length range)) (CSR.offsets g)
               (CSR.vals g) vw (static_cast_idx_t b (Z.of_N n_pieces))]) ∧
     (8 < n_pieces →
        filter is_engine_call (new_calls p outcome)
          = [call_METIS_PartGraphKway (N.of_nat (length range)) (CSR.offsets g)
               (CSR.vals g) vw (static_cast_idx_t b (Z.of_N n_pieces))])) ∧
  (∀ c, c ∈ new_calls p outcome →
     (engine_of c = Some Recursive → n_pieces ≤ 8) ∧
     (engine_of c = Some Kway → 8 < n_pieces)).
Proof.
  cbv zeta. split.
  - intros gim g vw Hne Hk Hpos Hmetis Hroot Hgim Hg.
    rewrite partition_range_general by done. unfold after_gather. rewrite Hmetis.
    pose proof (gathered_calls p m) as Hcalls.
    destruct (gathered_mesh p m) as (_ & Hrank & _).
    destruct (gathered (p, m)) as [p' m']. cbn [fst snd] in Hcalls, Hrank.
    assert (new_calls p (metis_partition_range b env range n_pieces (p', m'))
            = gather_calls m ++ [call_find_global_indices range;
                                 engine_call b (length range) g vw n_pieces;
                                 call_broadcast (engine_part b env range g vw n_pieces)])
      as ->.
    { apply new_calls_app.
      rewrite (metis_partition_range_root_log b env range n_pieces p' m' gim g vw)
        by (congruence || done).
      cbn [add_call calls]. rewrite Hcalls. by rewrite <- !app_assoc. }
    assert (filter is_engine_call (gather_calls m) = []) as Hgather
      by (unfold gather_calls; by destruct (is_serial m)).
    rewrite filter_app, Hgather. unfold engine_call.
    split; intros Hn.
    + by rewrite bool_decide_eq_true_2 by done.
    + by rewrite bool_decide_eq_false_2 by lia.
  - intros c Hin.
    assert (∀ e, engine_of c = Some e → e = engine_for n_pieces) as Hkind.
    { intros e He. revert Hin. unfold new_calls.
      destruct (partition_range_cases b env range n_pieces (p, m)) as [-> | [-> | [-> | ->]]].
      - cbn [fst snd]. rewrite drop_all. by intros ?%elem_of_nil.
      - rewrite single_partition_range_run. cbn [fst snd].
        rewrite drop_all. by intros ?%elem_of_nil.
      - cbn [fst snd]. rewrite drop_all. by intros ?%elem_of_nil.
      - destruct (frame_after_gather n_pieces b env range (gathered (p, m)))
          as (nc & no & Hc & _ & Hfc & _).
        rewrite Hc. unfold gathered. cbn [snd].
        destruct (is_serial m); cbn [fst calls add_call add_out].
        + rewrite drop_app_length. intros Hin.
          rewrite Forall_forall in Hfc. by apply (Hfc c Hin).
        + rewrite <- app_assoc, drop_app_length. intros [->|Hin]%elem_of_cons; [done|].
          rewrite Forall_forall in Hfc. by apply (Hfc c Hin). }
    split; intros He; apply Hkind in He; revert He; unfold engine_for;
      case_bool_decide; (done || lia).
Qed.

Lemma C7_engine_chosen_by_n_pieces_witness :
  (∃ g vw,
     filter is_engine_call
       (new_calls fresh_process
          (partition_range debug_build grid_env grid_range 2
             (fresh_process, replicated_mesh 0)))
     = [call_METIS_PartGraphRecursive 4 (CSR.offsets g) (CSR.vals g) vw 2%Z]) ∧
  (∃ g vw,
     filter is_engine_call
       (new_calls fresh_process
          (partition_range debug_build grid_env grid_range 9
             (fresh_process, replicated_mesh 0)))
     = [call_METIS_PartGraphKway 4 (CSR.offsets g) (CSR.vals g) vw 9%Z]).
Proof.
  assert (GlobalIndex.build_global_index_map debug_build
            (elem_id (view grid_env) <$> grid_range) (find_global_indices grid_env grid_range)
          = Ok [(0, 0); (1, 1); (2, 2); (3, 3)]) as Hgim by reflexivity.
  assert (Graph.build_graph debug_build (view grid_env) [(0, 0); (1, 1); (2, 2); (3, 3)]
            (Graph.build_interior_to_boundary_map debug_build (view grid_env) grid_range)
            (weights grid_env) grid_range
          = Ok ({| CSR.offsets := [0; 2; 4; 6; 8];
                   CSR.vals := [1; 2; 3; 0; 0; 3; 1; 2] |}, [4; 4; 4; 4]%Z)) as Hg
    by reflexivity.
  split.
  - eexists _, _.
    apply (C7_engine_chosen_by_n_pieces debug_build grid_env grid_range 2 fresh_process
             (replicated_mesh 0)) with (gim := [(0, 0); (1, 1); (2, 2); (3, 3)]);
      [done|done|intros _; reflexivity|reflexivity|reflexivity|exact Hgim|exact Hg|done].
  - eexists _, _.
    apply (C7_engine_chosen_by_n_pieces debug_build grid_env grid_range 9 fresh_process
             (replicated_mesh 0)) with (gim := [(0, 0); (1, 1); (2, 2); (3, 3)]);
      [done|done|intros _; reflexivity|reflexivity|reflexivity|exact Hgim|exact Hg|done].
Defined.

(** C8, as stated, fails on an empty range: the call returns before the
    assertion is reached. *)
Lemma C8_empty_range_returns_for_zero_pieces :
  ¬ halts_on_zero_pieces debug_build grid_env [] (fresh_process, replicated_mesh 0).
Proof. intros [line Hhalt]. vm_compute in Hhalt. discriminate Hhalt. Qed.

(** C8 (amended). In a build where assertions are compiled in, every call
    of [partition_range] with [n_pieces = 0] on a non-empty range halts at the
    assertion of line 84, with the process and the mesh untouched. *)
Theorem C8_zero_pieces_halts_on_nonempty_range b env range st :
  range ≠ [] → NDEBUG b = false →
  partition_range b env range 0 st = (st, Halted (assertion_failed 84)) ∧
  halts_on_zero_pieces b env range st.
Proof.
  intros Hne Hnd. rewrite (partition_range_assertion b env range st Hne Hnd) at 1.
  split; [done|]. exists 84. by rewrite partition_range_assertion.
Qed.

Lemma C8_zero_pieces_halts_on_nonempty_range_witness :
  partition_range debug_build grid_env grid_range 0 (fresh_process, distributed_mesh 0)
    = ((fresh_process, distributed_mesh 0), Halted (assertion_failed 84)) ∧
  halts_on_zero_pieces debug_build grid_env grid_range (fresh_process, distributed_mesh 0).
Proof.
  apply (C8_zero_pieces_halts_on_nonempty_range debug_build grid_env grid_range
           (fresh_process, distributed_mesh 0)).
  - done.
  - reflexivity.
Defined.

(** C9, as stated, fails: two calls in one process, each on a mesh that is
    not replicated, print the warning twice. *)
Lemma C9_warning_printed_on_every_call :
  ¬ warns_at_most_once debug_build grid_env grid_range 2
      (distributed_mesh 0) (distributed_mesh 0).
Proof. unfold warns_at_most_once. vm_compute. lia. Qed.

Lemma filter_none {A} (P : A → Prop) `{!∀ x, Decision (P x)} (l : list A) :
  Forall (λ x, ¬ P x) l → filter P l = [].
Proof.
  induction 1 as [|x l Hx _ IH]; [done|]. by rewrite filter_cons, decide_False.
Qed.

(** C9 (amended). Every call of [partition_range] on a mesh that is not
    replicated (with a non-empty range, [k] other than 1, and [k > 0] where
    assertions are compiled in) forces one full gather and prints the warning
    once in that call, whatever earlier calls of the process printed; when
    the call returns or stops, the mesh is replicated. *)
Theorem C9_gather_and_warning_on_each_call b env range k p m :
  is_serial m = false → range ≠ [] → k ≠ 1 → (NDEBUG b = false → 0 < k) →
  let outcome := partition_range b env range k (p, m) in
  ∃ nc no,
    new_calls p outcome = call_allgather :: nc ∧ (call_allgather ∉ nc) ∧
    new_out p outcome = WARNING_forced_to_gather :: no ∧ (WARNING_forced_to_gather ∉ no) ∧
    is_serial outcome.1.2 = true ∧
    warnings outcome.1.1 = S (warnings p).
Proof.
  intros Hser Hne Hk Hpos. cbv zeta.
  rewrite partition_range_general by done.
  destruct (frame_after_gather k b env range (gathered (p, m)))
    as (nc & no & Hc & Ho & Hfc & Hfo & Hs).
  revert Hc Ho Hs. unfold gathered. cbn [snd]. rewrite Hser.
  cbn [fst snd calls out add_call add_out is_serial]. intros Hc Ho Hs.
  exists nc, no. split; [|split; [|split; [|split; [|split]]]].
  - apply new_calls_app. by rewrite Hc, <- app_assoc.
  - rewrite Forall_forall in Hfc. intros Hin. by destruct (Hfc _ Hin).
  - apply new_out_app. by rewrite Ho, <- app_assoc.
  - rewrite Forall_forall in Hfo. intros Hin. by apply (Hfo _ Hin).
  - done.
  - unfold warnings. rewrite Ho, !filter_app, !length_app.
    rewrite (filter_none _ no) by done. simpl. lia.
Qed.

Lemma C9_gather_and_warning_on_each_call_witness :
  ∃ nc no,
    new_calls fresh_process
      (partition_range debug_build grid_env grid_range 2 (fresh_process, distributed_mesh 0))
      = call_allgather :: nc ∧ (call_allgather ∉ nc) ∧
    new_out fresh_process
      (partition_range debug_build grid_env grid_range 2 (fresh_process, distributed_mesh 0))
      = WARNING_forced_to_gather :: no ∧ (WARNING_forced_to_gather ∉ no) ∧
    is_serial
      (partition_range debug_build grid_env grid_range 2
         (fresh_process, distributed_mesh 0)).1.2 = true ∧
    warnings
      (partition_range debug_build grid_env grid_range 2
         (fresh_process, distributed_mesh 0)).1.1 = 1%nat.
Proof.
  apply (C9_gather_and_warning_on_each_call debug_build grid_env grid_range 2 fresh_process
           (distributed_mesh 0)).
  - reflexivity.
  - done.
  - done.
  - intros _. reflexivity.
Defined.

(** C10. On an empty range [partition_range] returns at once, for any
    number of pieces (0 and 1 included): no assertion fires, nothing is
    printed, no gather, broadcast or other call is made, and the mesh and the
    owners of its elements are as before. *)
Theorem C10_empty_range_is_a_no_op b env n_pieces st :
  partition_range b env [] n_pieces st = (st, Ok tt).
Proof. done. Qed.

(** * Further properties, by component *)

(** ** Global index assigner *)

(** X1. The duplicate check of lines 141-153 is exact: given one hint per
    element, it returns, its flag is set exactly when two elements of the
    range share a hint, and the vector it keeps for a hint lists the
    identifiers of the elements with that hint in iteration order (a hint no
    element has is not a key). *)
Theorem X1_duplicate_check_is_exact (ids global_index : list N) :
  length global_index = length ids →
  ∃ global_index_inverses found_duplicate_indices,
    GlobalIndex.collect_inverses ids global_index 0 ∅ false
      = Ok (global_index_inverses, found_duplicate_indices) ∧
    (found_duplicate_indices = true ↔ ¬ NoDup global_index) ∧
    ∀ h, global_index_inverses !! h =
           match bucket_of (zip ids global_index) h with [] => None | v => Some v end.
Proof.
  intros Hlen. rewrite collect_inverses_foldl, drop_0 by (simpl; lia).
  pose proof (collect_duplicate (zip ids global_index)) as Hdup.
  pose proof (collect_no_duplicate (zip ids global_index)) as Hnodup.
  pose proof (collect_lookup (zip ids global_index)) as Hlook.
  rewrite snd_zip in Hdup, Hnodup by lia.
  destruct (foldl push_inverse (∅, false) (zip ids global_index)) as [inv found].
  exists inv, found. split; [done|]. split; [|done]. cbn [snd] in *. split; [done|].
  intros Hnd. destruct found; [done|]. exfalso. by apply Hnd, Hnodup.
Qed.

Lemma X1_duplicate_check_is_exact_witness :
  ∃ global_index_inverses found_duplicate_indices,
    GlobalIndex.collect_inverses [10; 11; 12] [1; 1; 0] 0 ∅ false
      = Ok (global_index_inverses, found_duplicate_indices) ∧
    (found_duplicate_indices = true ↔ ¬ NoDup [1; 1; 0]) ∧
    ∀ h, global_index_inverses !! h =
           match bucket_of (zip [10; 11; 12] [1; 1; 0]) h with [] => None | v => Some v end.
Proof.
  apply (X1_duplicate_check_is_exact [10; 11; 12] [1; 1; 0]). reflexivity.
Defined.

(** X2. When the identifiers of the range are distinct and no two elements
    share a hint, the global index of each element is its hint, unchanged, in
    every build: the map pairs the identifiers with the hints by position
    (lines 131-134 and 168-173). The hints are not compared with the number of
    elements here. *)
Theorem X2_distinct_hints_are_the_indices b (ids global_index : list N) :
  NoDup ids → NoDup global_index → length global_index = length ids →
  GlobalIndex.build_global_index_map b ids global_index = Ok (zip ids global_index) ∧
  ∀ i id h, ids !! i = Some id → global_index !! i = Some h →
    vm_find (zip ids global_index) id = Some h.
Proof.
  intros Hnd1 Hnd2 Hlen.
  assert ((zip ids global_index).*1 = ids) as Hfst by (apply fst_zip; lia).
  assert ((zip ids global_index).*2 = global_index) as Hsnd by (apply snd_zip; lia).
  split.
  - pose proof (assign_by_position b (zip ids global_index)) as Hrun.
    unfold assign in Hrun. rewrite Hfst, Hsnd in Hrun. by apply Hrun.
  - intros i id h Hi Hh. apply vm_find_elem_of; [by rewrite Hfst|].
    by apply (elem_of_lookup_zip_with_2 pair ids global_index id h (id, h) i).
Qed.

Lemma X2_distinct_hints_are_the_indices_witness :
  GlobalIndex.build_global_index_map debug_build [10; 11; 12] [7; 0; 5]
    = Ok (zip [10; 11; 12] [7; 0; 5]) ∧
  ∀ i id h, [10; 11; 12] !! i = Some id → [7; 0; 5] !! i = Some h →
    vm_find (zip [10; 11; 12] [7; 0; 5]) id = Some h.
Proof.
  apply (X2_distinct_hints_are_the_indices debug_build [10; 11; 12] [7; 0; 5]).
  - compute_done.
  - compute_done.
  - reflexivity.
Defined.

(** X3. The assignment keeps the order of the hints: for a range with
    distinct identifiers (and, where elements carry a unique id, distinct
    hints) the map is built, and an element with a smaller hint gets a smaller
    global index, also after the renumbering of lines 158-167. *)
Theorem X3_indices_follow_the_hints b (l : list (N * N)) :
  NoDup l.*1 → (LIBMESH_ENABLE_UNIQUE_ID b = true → NoDup l.*2) →
  ∃ m, GlobalIndex.build_global_index_map b l.*1 l.*2 = Ok m ∧
       ∀ a c, a ∈ l → c ∈ l → a.2 < c.2 → vm_at m a.1 < vm_at m c.1.
Proof.
  intros Hnd Huniq. destruct (assign_returns b l Hnd Huniq) as [m Hm].
  exists m. split; [exact Hm|]. intros a c Ha Hc Hlt.
  by apply (assign_monotone b l m a c).
Qed.

Lemma X3_indices_follow_the_hints_witness :
  ∃ m, GlobalIndex.build_global_index_map release_build
         [(10, 5); (11, 5); (12, 2)].*1 [(10, 5); (11, 5); (12, 2)].*2 = Ok m ∧
       ∀ a c, a ∈ [(10, 5); (11, 5); (12, 2)] → c ∈ [(10, 5); (11, 5); (12, 2)] →
         a.2 < c.2 → vm_at m a.1 < vm_at m c.1.
Proof.
  apply (X3_indices_follow_the_hints release_build [(10, 5); (11, 5); (12, 2)]).
  - compute_done.
  - intros Hu. discriminate Hu.
Defined.

Lemma checks_halts b n m h :
  checks b n m = Halted h → ∃ line, h = assertion_failed line.
Proof.
  unfold checks, GlobalIndex.debug_checks, libmesh_assert.
  destruct (NDEBUG b); [by destruct (DEBUG b)|].
  destruct (bool_decide (length m = n)); simpl; [|intros [= <-]; by eauto].
  destruct (DEBUG b); simpl; [|done].
  destruct (bool_decide (size (list_to_set m.*2) = n)); simpl; [|intros [= <-]; by eauto].
  destruct (bool_decide (size (list_to_set m.*1) = n)); simpl; [done|intros [= <-]; by eauto].
Qed.

(** X4. In a build with [DEBUG] and assertions compiled in, the checks of
    lines 127 and 176-186 let only sound maps through: if the assigner
    returns, there was one hint per element, the identifiers of the range are
    distinct, the map has exactly these identifiers as keys, and no index
    twice. A range that names an identifier twice never gets a map: the
    assigner stops at an assertion. *)
Theorem X4_debug_checks_reject_repeated_ids b (ids global_index : list N) :
  DEBUG b = true → NDEBUG b = false →
  (∀ m, GlobalIndex.build_global_index_map b ids global_index = Ok m →
     length global_index = length ids ∧ NoDup ids ∧ m.*1 ≡ₚ ids ∧ NoDup m.*2) ∧
  (¬ NoDup ids →
     ∃ line, GlobalIndex.build_global_index_map b ids global_index
               = Halted (assertion_failed line)).
Proof.
  intros Hd Hn.
  assert (∀ m, GlobalIndex.build_global_index_map b ids global_index = Ok m →
            length global_index = length ids ∧ NoDup ids ∧ m.*1 ≡ₚ ids ∧ NoDup m.*2)
    as Hsound.
  { intros m Hm.
    pose proof (build_global_index_map_length b ids global_index m Hn Hm) as Hlen.
    pose proof (build_global_index_map_checks b ids global_index m Hm) as Hchecks.
    apply (checks_debug b _ m Hd Hn) in Hchecks as (_ & Hnd1 & Hnd2).
    assert (m.*1 ≡ₚ ids) as Hkeys.
    { pose proof (assign_keys b (zip ids global_index) m) as Hk. unfold assign in Hk.
      rewrite fst_zip, snd_zip in Hk by lia. by apply Hk. }
    split; [done|]. split; [by rewrite <- Hkeys|]. done. }
  split; [exact Hsound|]. intros Hdup.
  destruct (GlobalIndex.build_global_index_map b ids global_index) as [m|h] eqn:Hrun.
  { exfalso. by destruct (Hsound m eq_refl) as (_ & Hnd & _). }
  destruct (decide (length global_index = length ids)) as [Hlen|Hlen].
  - pose proof (assign_unfold b (zip ids global_index)) as Hun. unfold assign in Hun.
    rewrite fst_zip, snd_zip in Hun by lia. rewrite Hrun in Hun. symmetry in Hun.
    destruct (LIBMESH_ENABLE_UNIQUE_ID b);
      [apply checks_halts in Hun as [line ->]; by eauto|].
    destruct (foldl push_inverse (∅, false) (zip ids global_index)).2;
      apply checks_halts in Hun as [line ->]; by eauto.
  - exists 127. rewrite <- Hrun.
    unfold GlobalIndex.build_global_index_map, libmesh_assert. rewrite Hn.
    by rewrite (bool_decide_eq_false_2 (length global_index = length ids)) by done.
Qed.

Lemma X4_debug_checks_reject_repeated_ids_witness :
  (∀ m, GlobalIndex.build_global_index_map debug_build [10; 10; 12] [1; 1; 0] = Ok m →
     length [1; 1; 0] = length [10; 10; 12] ∧ NoDup [10; 10; 12] ∧
     m.*1 ≡ₚ [10; 10; 12] ∧ NoDup m.*2) ∧
  (¬ NoDup [10; 10; 12] →
     ∃ line, GlobalIndex.build_global_index_map debug_build [10; 10; 12] [1; 1; 0]
               = Halted (assertion_failed line)).
Proof.
  apply (X4_debug_checks_reject_repeated_ids debug_build [10; 10; 12] [1; 1; 0]).
  - reflexivity.
  - reflexivity.
Defined.

(** ** CSR graph builder *)

Lemma mixed_range_ok : range_ok mixed_view mixed_index_map mixed_range.
Proof.
  split; [|split].
  - intros e He. split.
    + intros neighbor _ Hact. discriminate Hact.
    + intros neighbor Hin Hq.
      apply elem_of_cons in He as [-> | He]; [by apply elem_of_nil in Hin|].
      apply elem_of_cons in He as [-> | He]; [|by apply elem_of_nil in He].
      apply elem_of_cons in Hin as [-> | Hin]; [done|by apply elem_of_nil in Hin].
  - compute_done.
  - intros e He. apply elem_of_cons in He as [-> | He]; [vm_compute; lia|].
    apply elem_of_cons in He as [-> | He]; [vm_compute; lia|by apply elem_of_nil in He].
Qed.


(** X5. On a range that keeps the builder's contract the graph is built and
    its offsets are the running sums of the row widths pass 1 counts (lines
    372-378): there is one offset per element and one more, the first is 0,
    and the offsets at the global index of an element and at the next index
    differ by the width [count_neighbors] returns for it, all within the
    value array. *)
Theorem X5_offsets_are_running_row_widths b view gim weights range :
  range_ok view gim range →
  let i2b := Graph.build_interior_to_boundary_map b view range in
  ∃ g vw,
    Graph.build_graph b view gim i2b weights range = Ok (g, vw) ∧
    length (CSR.offsets g) = S (length range) ∧
    CSR.offsets g !! 0%nat = Some 0 ∧
    ∀ e, e ∈ range → ∃ o w,
      Graph.count_neighbors b view gim i2b e = Ok w ∧
      CSR.offsets g !! N.to_nat (Graph.index_of view gim e) = Some o ∧
      CSR.offsets g !! (N.to_nat (Graph.index_of view gim e) + 1)%nat
        = Some (o + N.of_nat w) ∧
      (N.to_nat o + w ≤ length (CSR.vals g))%nat.
Proof.
  intros Hok i2b.
  destruct (build_graph_content b view gim i2b weights range Hok)
    as (g & vw & Hg & H0 & Hoff & _).
  destruct (build_graph_ok b view gim i2b weights range Hok)
    as (g' & vw' & Hg' & _ & Hlo & _).
  rewrite Hg in Hg'. injection Hg' as <- <-.
  exists g, vw. split; [done|]. split; [done|]. split; [done|].
  intros e He. destruct (Hoff e He) as (o & Ho1 & Ho2 & Hroom).
  exists o, (row_width b view gim i2b e). split; [|done].
  apply count_neighbors_ok. by apply Hok.
Qed.

Lemma X5_offsets_are_running_row_widths_witness :
  ∃ g vw,
    Graph.build_graph debug_build mixed_view mixed_index_map
      (Graph.build_interior_to_boundary_map debug_build mixed_view mixed_range)
      None mixed_range = Ok (g, vw) ∧
    length (CSR.offsets g) = S (length mixed_range) ∧
    CSR.offsets g !! 0%nat = Some 0 ∧
    ∀ e, e ∈ mixed_range → ∃ o w,
      Graph.count_neighbors debug_build mixed_view mixed_index_map
        (Graph.build_interior_to_boundary_map debug_build mixed_view mixed_range) e = Ok w ∧
      CSR.offsets g !! N.to_nat (Graph.index_of mixed_view mixed_index_map e) = Some o ∧
      CSR.offsets g !! (N.to_nat (Graph.index_of mixed_view mixed_index_map e) + 1)%nat
        = Some (o + N.of_nat w) ∧
      (N.to_nat o + w ≤ length (CSR.vals g))%nat.
Proof.
  apply (X5_offsets_are_running_row_widths debug_build mixed_view mixed_index_map None
           mixed_range).
  apply mixed_range_ok.
Defined.





Lemma in_range_index_below env range gim x :
  bijection_onto_range (elem_id (view env) <$> range) gim →
  Graph.in_range (view env) gim x = true →
  Graph.index_of (view env) gim x < N.of_nat (length range).
Proof.
  intros [_ Hdense] Hx. unfold Graph.in_range, vm_count in Hx.
  apply bool_decide_eq_true in Hx as [v Hv].
  unfold Graph.index_of, vm_at. rewrite Hv. cbn [default from_option id].
  apply vm_find_Some_elem_of in Hv.
  assert (v ∈ gim.*2) as Hin
    by (apply list_elem_of_fmap; by exists (elem_id (view env) x, v)).
  rewrite Hdense, length_fmap in Hin. apply list_elem_of_fmap in Hin as (i & -> & Hi).
  apply elem_of_seq in Hi. lia.
Qed.

Lemma row_values_below b env range gim e :
  NoDup (elem_id (view env) <$> range) →
  bijection_onto_range (elem_id (view env) <$> range) gim →
  mesh_consistent env range → e ∈ range →
  Forall (λ v, v < N.of_nat (length range))
    (row_values b (view env) gim
       (Graph.build_interior_to_boundary_map b (view env) range) e).
Proof.
  intros Hnd Hbij Hmesh He.
  pose proof (in_range_index_below env range gim) as Hin.
  unfold row_values. rewrite !Forall_app. split; [|split].
  - unfold face_values. apply Forall_forall. intros v Hv.
    apply list_elem_of_bind in Hv as (nb & Hv & _).
    destruct nb as [nb|]; cbn [side_values] in Hv; [|by apply elem_of_nil in Hv].
    destruct (active (view env) nb) eqn:Ha,
      (Graph.in_range (view env) gim nb) eqn:Hr; cbn [andb negb] in Hv.
    + apply list_elem_of_singleton in Hv as ->. by apply Hin.
    + by apply elem_of_nil in Hv.
    + destruct (LIBMESH_ENABLE_AMR b); [|by apply elem_of_nil in Hv].
      apply list_elem_of_fmap in Hv as (child & -> & Hchild).
      apply list_elem_of_filter in Hchild as [[Hc _] _]. by apply Hin.
    + destruct (LIBMESH_ENABLE_AMR b); [|by apply elem_of_nil in Hv].
      apply list_elem_of_fmap in Hv as (child & -> & Hchild).
      apply list_elem_of_filter in Hchild as [[Hc _] _]. by apply Hin.
  - destruct (Graph.has_interior_parent b (view env) e); [|constructor].
    apply Forall_fmap, Forall_forall. intros nb Hnb.
    apply list_elem_of_filter in Hnb as [Hq Hnb]. cbn [compose].
    destruct (Hmesh e He) as [_ Hint]. specialize (Hint nb Hnb Hq).
    destruct (bijection_lookup env range gim _ Hnd Hbij Hint) as (v & Hv & _ & Hlt).
    unfold Graph.index_of, vm_at. rewrite Hv. cbn [default from_option id]. lia.
  - apply Forall_fmap, Forall_forall. intros [nb e'] Hpr. cbn [compose snd].
    apply elem_of_equal_range in Hpr as [_ Hpr].
    apply elem_of_interior_to_boundary_map in Hpr as (He' & _).
    apply Hin; [done|].
    by destruct (bijection_range_indices env range gim Hnd Hbij) as [_ Hidx];
      apply Hidx.
Qed.

(** X8. On a consistent mesh with a bijective global index map and a
    non-empty range, every entry of the adjacency value array handed to the
    engine is the global index of a vertex of the graph: it is below the
    number of elements of the range. *)
Theorem X8_adjacency_entries_are_vertices b env range gim :
  range ≠ [] →
  NoDup (elem_id (view env) <$> range) →
  bijection_onto_range (elem_id (view env) <$> range) gim →
  mesh_consistent env range →
  let i2b := Graph.build_interior_to_boundary_map b (view env) range in
  ∃ g vw,
    Graph.build_graph b (view env) gim i2b (weights env) range = Ok (g, vw) ∧
    Forall (λ v, v < N.of_nat (length range)) (CSR.vals g).
Proof.
  intros Hne Hnd Hbij Hmesh i2b.
  destruct (build_graph_content b (view env) gim i2b (weights env) range)
    as (g & vw & Hg & _ & _ & _ & _ & _ & _ & HP); [by apply range_ok_of_bijection|].
  exists g, vw. split; [done|]. apply HP.
  - destruct range; [done|]. simpl. lia.
  - intros e He. by apply row_values_below.
Qed.

Lemma X8_adjacency_entries_are_vertices_witness :
  ∃ g vw,
    Graph.build_graph debug_build (view grid_env) [(0, 0); (1, 1); (2, 2); (3, 3)]
      (Graph.build_interior_to_boundary_map debug_build (view grid_env) grid_range)
      (weights grid_env) grid_range = Ok (g, vw) ∧
    Forall (λ v, v < N.of_nat (length grid_range)) (CSR.vals g).
Proof.
  apply (X8_adjacency_entries_are_vertices debug_build grid_env grid_range
           [(0, 0); (1, 1); (2, 2); (3, 3)]).
  - done.
  - compute_done.
  - split; reflexivity.
  - apply grid_mesh_consistent.
Defined.



(** X10. An interior neighbor that belongs to the mesh but is not in the
    range makes the graph builder throw: with the global indices of the range
    distinct and in bounds and the structural assertions holding, pass 2
    stops with the error of [libmesh_map_find] at line 469 at the first
    element that has such a neighbor, although pass 1 counted it. *)
Theorem X10_interior_neighbor_outside_the_range_throws b view gim i2b weights pre e post
    neighbor :
  (∀ x, x ∈ pre ++ e :: post → links_consistent view x) →
  NoDup (Graph.index_of view gim <$> pre ++ e :: post) →
  (∀ x, x ∈ pre ++ e :: post →
     (N.to_nat (Graph.index_of view gim x) < length (pre ++ e :: post))%nat) →
  (∀ x, x ∈ pre → interior_neighbors_in_range view gim x) →
  Graph.has_interior_parent b view e = true →
  neighbor ∈ find_interior_neighbors view e →
  query_elem_ptr view (elem_id view neighbor) = Some neighbor →
  Graph.in_range view gim neighbor = false →
  Graph.build_graph b view gim i2b weights (pre ++ e :: post) = Halted (error_thrown 469).
Proof.
  intros Hcons Hnd Hlt Hpre Hp Hin Hq Hout. unfold Graph.build_graph.
  destruct (first_pass_prepared b view gim i2b weights (pre ++ e :: post) Hcons Hnd Hlt)
    as (st & -> & Hroom).
  cbn [mbind res_bind]. rewrite second_pass_app.
  destruct (second_pass_ok b view gim i2b pre (CSR.prepare_for_use (Graph.csr_graph st)))
    as (g1 & -> & Hs1 & Hs2).
  { intros x Hx. split; [apply Hcons, elem_of_app; by left|]. split; [by apply Hpre|].
    destruct (Hroom x) as (o & Ho & Hr); [apply elem_of_app; by left|].
    exists o. split; [done|]. pose proof (row_written_le b view gim i2b x). lia. }
  cbn [mbind res_bind Graph.second_pass].
  destruct (Hroom e) as (o & Ho & Hr); [apply elem_of_app; right; by left|].
  rewrite (fill_row_missing b view gim i2b e g1 o neighbor); try done.
  - apply Hcons, elem_of_app. right. by left.
  - by rewrite Hs1.
  - rewrite Hs2. pose proof (row_written_le b view gim i2b e). lia.
Qed.

Lemma X10_interior_neighbor_outside_the_range_throws_witness :
  Graph.build_graph release_build mixed_view [(1, 0)]
    (Graph.build_interior_to_boundary_map release_build mixed_view [401]) None
    ([] ++ 401 :: []) = Halted (error_thrown 469).
Proof.
  apply (X10_interior_neighbor_outside_the_range_throws release_build mixed_view [(1, 0)]
           (Graph.build_interior_to_boundary_map release_build mixed_view [401]) None
           [] 401 [] 400).
  - intros x _ nb _ Hact. discriminate Hact.
  - compute_done.
  - intros x Hx. apply elem_of_cons in Hx as [-> | Hx]; [vm_compute; lia|].
    by apply elem_of_nil in Hx.
  - intros x Hx. by apply elem_of_nil in Hx.
  - reflexivity.
  - compute_done.
  - reflexivity.
  - reflexivity.
Defined.

(** X11. Where assertions are compiled in, a global index that is not below
    the number of elements of the range is caught in pass 1, by the assertion
    of line 260: with the structural assertions holding and the global indices
    of the range distinct, the builder stops there, whatever the rest of the
    mesh. *)
Theorem X11_index_out_of_bounds_is_asserted b view gim i2b weights range e :
  NDEBUG b = false →
  (∀ x, x ∈ range → links_consistent view x) →
  NoDup (Graph.index_of view gim <$> range) →
  e ∈ range → (length range ≤ N.to_nat (Graph.index_of view gim e))%nat →
  Graph.build_graph b view gim i2b weights range = Halted (assertion_failed 260).
Proof.
  intros Hn Hcons Hnd He Hbig. unfold Graph.build_graph.
  rewrite (first_pass_out_of_bounds b view gim i2b weights range _ e); try done.
  - cbn [Graph.vwgt Graph.csr_graph CSR.offsets]. intros x Hx Hlt.
    rewrite length_replicate in Hlt. apply lookup_replicate_2. lia.
  - cbn [Graph.vwgt]. by rewrite length_replicate.
Qed.

Lemma X11_index_out_of_bounds_is_asserted_witness :
  Graph.build_graph debug_build grid_view [(0, 0); (1, 1); (2, 2); (3, 7)] [] None grid_range
    = Halted (assertion_failed 260).
Proof.
  apply (X11_index_out_of_bounds_is_asserted debug_build grid_view
           [(0, 0); (1, 1); (2, 2); (3, 7)] [] None grid_range 103).
  - reflexivity.
  - intros x _ nb _ Hact. discriminate Hact.
  - compute_done.
  - compute_done.
  - vm_compute. lia.
Defined.

(** ** The facade *)

(** X12. In a build with the Metis library a call of [partition_range]
    writes the owner of no element outside its range, and leaves the rank of
    the process alone, for every number of pieces and whether the call
    returns or stops. *)
Theorem X12_owners_outside_the_range_are_kept b env range k st e :
  LIBMESH_HAVE_METIS b = true → e ∉ range →
  let outcome := partition_range b env range k st in
  elem_processor_id outcome.1.2 !! e = elem_processor_id st.2 !! e ∧
  processor_id outcome.1.2 = processor_id st.2.
Proof.
  intros Hmetis He. destruct (keeps_partition_range range b env k Hmetis st) as [Hrank Hout].
  split; [by apply Hout|done].
Qed.

Lemma X12_owners_outside_the_range_are_kept_witness :
  elem_processor_id
    (partition_range debug_build grid_env grid_range 2 (fresh_process, owned_mesh)).1.2 !! 104
    = elem_processor_id owned_mesh !! 104 ∧
  processor_id
    (partition_range debug_build grid_env grid_range 2 (fresh_process, owned_mesh)).1.2
    = processor_id owned_mesh.
Proof.
  apply (X12_owners_outside_the_range_are_kept debug_build grid_env grid_range 2
           (fresh_process, owned_mesh) 104).
  - reflexivity.
  - compute_done.
Defined.

(** The rows of the fan mesh: the triangle is named by both edges, and its
    row lists them in the order the build's [unordered_multimap] yields
    them. *)
Lemma fan_rows_follow_the_library_order :
  Graph.build_graph debug_build fan_view [(0, 0); (1, 1); (2, 2)]
    (Graph.build_interior_to_boundary_map debug_build fan_view fan_range) None fan_range
    = Ok ({| CSR.offsets := [0; 2; 3; 4]; CSR.vals := [2; 1; 0; 0] |}, [3; 2; 2]%Z) ∧
  Graph.build_graph release_build fan_view [(0, 0); (1, 1); (2, 2)]
    (Graph.build_interior_to_boundary_map release_build fan_view fan_range) None fan_range
    = Ok ({| CSR.offsets := [0; 2; 3; 4]; CSR.vals := [1; 2; 0; 0] |}, [3; 2; 2]%Z).
Proof. by vm_compute. Qed.

(** X13. On the root, for a non-empty range and a number of pieces other
    than 1, in a build with the Metis library, given distinct identifiers, one
    admissible hint per element, the structural assertions holding on the
    range and every element of the range with an interior parent having its
    interior neighbors that belong to the mesh in the range, the call returns
    and logs, after the gather if the mesh was not replicated, exactly three
    calls in this order: [find_global_indices] on the range; one call of the
    engine (recursive bisection for [n_pieces <= 8], k-way otherwise) with the
    number of elements of the range, the offsets, values and vertex weights of
    the graph this build constructs, and [static_cast<Metis::idx_t>(n_pieces)]
    as the number of parts; and the broadcast of the vector that entry point
    filled. It prints nothing but the gather warning. *)
Theorem X13_root_calls_the_engine_once_on_the_built_graph b env range k p m :
  range ≠ [] → k ≠ 1 → (NDEBUG b = false → 0 < k) →
  LIBMESH_HAVE_METIS b = true →
  NoDup (elem_id (view env) <$> range) →
  length (find_global_indices env range) = length range →
  hints_admissible b (elem_id (view env) <$> range) (find_global_indices env range) →
  (∀ e, e ∈ range → links_consistent (view env) e) →
  (∀ e neighbor, e ∈ range → Graph.has_interior_parent b (view env) e = true →
     neighbor ∈ find_interior_neighbors (view env) e →
     query_elem_ptr (view env) (elem_id (view env) neighbor) = Some neighbor →
     elem_id (view env) neighbor ∈ elem_id (view env) <$> range) →
  processor_id m = 0 →
  let outcome := partition_range b env range k (p, m) in
  let n := N.of_nat (length range) in
  let nparts := static_cast_idx_t b (Z.of_N k) in
  ∃ gim g vw,
    GlobalIndex.build_global_index_map b (elem_id (view env) <$> range)
      (find_global_indices env range) = Ok gim ∧
    Graph.build_graph b (view env) gim
      (Graph.build_interior_to_boundary_map b (view env) range) (weights env) range
      = Ok (g, vw) ∧
    outcome.2 = Ok tt ∧
    new_calls p outcome =
      gather_calls m
      ++ [call_find_global_indices range;
          if bool_decide (k ≤ 8)
          then call_METIS_PartGraphRecursive n (CSR.offsets g) (CSR.vals g) vw nparts
          else call_METIS_PartGraphKway n (CSR.offsets g) (CSR.vals g) vw nparts;
          call_broadcast
            ((if bool_decide (k ≤ 8)
              then METIS_PartGraphRecursive env n (CSR.offsets g) (CSR.vals g) vw nparts
              else METIS_PartGraphKway env n (CSR.offsets g) (CSR.vals g) vw nparts)
             <$> seq 0 (length range))] ∧
    new_out p outcome = gather_out m.
Proof.
  intros Hne Hk Hpos Hmetis Hnd Hlen Hhints Hlinks Hclosed Hroot. cbv zeta.
  assert (builds_bijection b (elem_id (view env) <$> range) (find_global_indices env range))
    as (gim & Hgim & Hbij)
    by (apply builds_bijection_iff; [done|by rewrite length_fmap|done]).
  destruct (bijection_range_indices env range gim Hnd Hbij) as [Hndi Hidx].
  destruct (build_graph_ok_guarded b (view env) gim
              (Graph.build_interior_to_boundary_map b (view env) range)
              (weights env) range) as (g & vw & Hg); [done| |done|by apply Hidx|].
  { intros e He Hp neighbor Hin Hq.
    destruct (bijection_lookup env range gim _ Hnd Hbij (Hclosed e neighbor He Hp Hin Hq))
      as (v & Hf & _).
    unfold Graph.in_range, vm_count. rewrite Hf. by apply bool_decide_eq_true_2. }
  exists gim, g, vw. split; [done|]. split; [done|].
  rewrite partition_range_general by done. unfold after_gather. rewrite Hmetis.
  pose proof (gathered_calls p m) as Hcalls. pose proof (gathered_out p m) as Hout.
  destruct (gathered_mesh p m) as (_ & Hrank & _).
  destruct (gathered (p, m)) as [p' m']. cbn [fst snd] in Hcalls, Hout, Hrank.
  rewrite (metis_partition_range_root b env range k p' m' gim g vw);
    [|congruence|done|done|done].
  cbn [fst snd]. split; [done|]. split.
  - apply new_calls_app. cbn [fst snd add_call calls]. rewrite Hcalls.
    rewrite <- !app_assoc. unfold engine_call, engine_part. by case_bool_decide.
  - apply new_out_app. cbn [fst snd add_call out]. by rewrite Hout.
Qed.

Lemma X13_root_calls_the_engine_once_on_the_built_graph_witness :
  ∃ gim g vw,
    GlobalIndex.build_global_index_map debug_build (elem_id (view fan_env) <$> fan_range)
      (find_global_indices fan_env fan_range) = Ok gim ∧
    Graph.build_graph debug_build (view fan_env) gim
      (Graph.build_interior_to_boundary_map debug_build (view fan_env) fan_range)
      (weights fan_env) fan_range = Ok (g, vw) ∧
    (partition_range debug_build fan_env fan_range 9 (fresh_process, distributed_mesh 0)).2
      = Ok tt ∧
    new_calls fresh_process
      (partition_range debug_build fan_env fan_range 9 (fresh_process, distributed_mesh 0))
      = gather_calls (distributed_mesh 0)
        ++ [call_find_global_indices fan_range;
            if bool_decide (9 ≤ 8)
            then call_METIS_PartGraphRecursive (N.of_nat (length fan_range))
                   (CSR.offsets g) (CSR.vals g) vw (static_cast_idx_t debug_build (Z.of_N 9))
            else call_METIS_PartGraphKway (N.of_nat (length fan_range))
                   (CSR.offsets g) (CSR.vals g) vw (static_cast_idx_t debug_build (Z.of_N 9));
            call_broadcast
              ((if bool_decide (9 ≤ 8)
                then METIS_PartGraphRecursive fan_env (N.of_nat (length fan_range))
                       (CSR.offsets g) (CSR.vals g) vw
                       (static_cast_idx_t debug_build (Z.of_N 9))
                else METIS_PartGraphKway fan_env (N.of_nat (length fan_range))
                       (CSR.offsets g) (CSR.vals g) vw
                       (static_cast_idx_t debug_build (Z.of_N 9)))
               <$> seq 0 (length fan_range))] ∧
    new_out fresh_process
      (partition_range debug_build fan_env fan_range 9 (fresh_process, distributed_mesh 0))
      = gather_out (distributed_mesh 0).
Proof.
  apply (X13_root_calls_the_engine_once_on_the_built_graph debug_build fan_env fan_range 9
           fresh_process (distributed_mesh 0)).
  - done.
  - done.
  - intros _. reflexivity.
  - reflexivity.
  - compute_done.
  - reflexivity.
  - split; [intros _; compute_done|intros _; repeat constructor].
  - intros e _ neighbor _ Hact. discriminate Hact.
  - intros e neighbor He _ Hin _.
    apply elem_of_cons in He as [-> | He]; [by apply elem_of_nil in Hin|].
    apply elem_of_cons in He as [-> | He].
    { apply elem_of_cons in Hin as [-> | Hin]; [compute_done|by apply elem_of_nil in Hin]. }
    apply elem_of_cons in He as [-> | He]; [|by apply elem_of_nil in He].
    apply elem_of_cons in Hin as [-> | Hin]; [compute_done|by apply elem_of_nil in Hin].
  - reflexivity.
Defined.

(** X14. A process other than the root builds no graph and calls no engine:
    given hints as the code asserts them and a received vector with one entry
    per element, the call returns whatever the neighbor structure of the mesh
    is, logs (after the gather, if any) [find_global_indices] and the
    broadcast only, and gives each element of the range the entry of the
    received vector at its global index. *)
Theorem X14_other_ranks_only_receive b env range k p m :
  range ≠ [] → k ≠ 1 → (NDEBUG b = false → 0 < k) →
  LIBMESH_HAVE_METIS b = true →
  NoDup (elem_id (view env) <$> range) →
  hints_ok b (elem_id (view env) <$> range) (find_global_indices env range) →
  processor_id m ≠ 0 →
  length (broadcast_received env) = length range →
  let outcome := partition_range b env range k (p, m) in
  ∃ gim,
    GlobalIndex.build_global_index_map b (elem_id (view env) <$> range)
      (find_global_indices env range) = Ok gim ∧
    outcome.2 = Ok tt ∧
    new_calls p outcome =
      gather_calls m ++ [call_find_global_indices range;
                         call_broadcast (broadcast_received env)] ∧
    ∀ e, e ∈ range →
      elem_processor_id outcome.1.2 !! e
        = Some (owner_from b env gim (broadcast_received env) e).
Proof.
  intros Hne Hk Hpos Hmetis Hnd Hhints Hother Hlen. cbv zeta.
  destruct (build_global_index_map_ok b _ _ Hnd Hhints) as (gim & Hgim & Hbij).
  destruct (bijection_range_indices env range gim Hnd Hbij) as [_ Hidx].
  exists gim. split; [done|].
  rewrite partition_range_general by done. unfold after_gather. rewrite Hmetis.
  pose proof (gathered_calls p m) as Hcalls.
  destruct (gathered_mesh p m) as (_ & Hrank & Howners).
  destruct (gathered (p, m)) as [p' m']. cbn [fst snd] in Hcalls, Hrank, Howners.
  rewrite (metis_partition_range_other b env range k p' m' gim);
    [|congruence|done|intros e He; rewrite Hlen; by apply Hidx].
  cbn [fst snd]. split; [done|]. split.
  - apply new_calls_app. cbn [fst snd add_call calls]. rewrite Hcalls.
    by rewrite <- !app_assoc.
  - intros e He. cbn [with_owners elem_processor_id].
    rewrite (foldl_insert_lookup (owner_from b env gim (broadcast_received env))).
    by rewrite decide_True.
Qed.

Lemma X14_other_ranks_only_receive_witness :
  ∃ gim,
    GlobalIndex.build_global_index_map debug_build (elem_id (view grid_env) <$> grid_range)
      (find_global_indices grid_env grid_range) = Ok gim ∧
    (partition_range debug_build grid_env grid_range 2 (fresh_process, replicated_mesh 3)).2
      = Ok tt ∧
    new_calls fresh_process
      (partition_range debug_build grid_env grid_range 2 (fresh_process, replicated_mesh 3))
      = gather_calls (replicated_mesh 3)
        ++ [call_find_global_indices grid_range;
            call_broadcast (broadcast_received grid_env)] ∧
    ∀ e, e ∈ grid_range →
      elem_processor_id
        (partition_range debug_build grid_env grid_range 2
           (fresh_process, replicated_mesh 3)).1.2 !! e
        = Some (owner_from debug_build grid_env gim (broadcast_received grid_env) e).
Proof.
  apply (X14_other_ranks_only_receive debug_build grid_env grid_range 2 fresh_process
           (replicated_mesh 3)).
  - done.
  - done.
  - intros _. reflexivity.
  - reflexivity.
  - compute_done.
  - apply grid_hints_ok.
  - done.
  - reflexivity.
Defined.

(** X15. In a build without the Metis library, a call on a non-empty range
    with a number of pieces other than 1 returns after delegating to the
    space-filling-curve partitioner with the same range and number of pieces:
    that is the only call logged after the gather, the owners are the ones
    that partitioner assigns, and the notice of lines 96-99 is printed only
    if the process had not printed it before. *)
Theorem X15_without_metis_the_call_delegates b env range k p m :
  range ≠ [] → k ≠ 1 → (NDEBUG b = false → 0 < k) →
  LIBMESH_HAVE_METIS b = false →
  let outcome := partition_range b env range k (p, m) in
  outcome.2 = Ok tt ∧
  new_calls p outcome = gather_calls m ++ [call_SFCPartitioner_partition_range range k] ∧
  new_out p outcome = gather_out m ++ notice_out p ∧
  once_done outcome.1.1 = true ∧
  elem_processor_id outcome.1.2
    = SFCPartitioner_partition_range env range k (elem_processor_id m).
Proof.
  intros Hne Hk Hpos Hmetis. cbv zeta.
  rewrite partition_range_general by done. unfold after_gather. rewrite Hmetis.
  pose proof (gathered_calls p m) as Hcalls. pose proof (gathered_out p m) as Hout.
  pose proof (gathered_once_done p m) as Honce.
  destruct (gathered_mesh p m) as (_ & _ & Howners).
  destruct (gathered (p, m)) as [p' m']. cbn [fst snd] in Hcalls, Hout, Honce, Howners.
  unfold notice_out. rewrite <- Honce.
  unfold mbind, prog_bind, libmesh_do_once, print, record, sfc_partition_range.
  cbn [fst snd]. destruct (once_done p') eqn:Hdone; cbn [fst snd].
  - split; [done|]. split; [|split; [|split]].
    + apply new_calls_app. cbn [fst snd add_call calls]. by rewrite Hcalls, <- app_assoc.
    + apply new_out_app. cbn [fst snd add_call out]. by rewrite Hout, app_nil_r.
    + done.
    + cbn [with_owners elem_processor_id]. by rewrite Howners.
  - split; [done|]. split; [|split; [|split]].
    + apply new_calls_app. cbn [fst snd add_call add_out calls].
      by rewrite Hcalls, <- app_assoc.
    + apply new_out_app. cbn [fst snd add_call add_out out]. by rewrite Hout, <- app_assoc.
    + done.
    + cbn [with_owners elem_processor_id]. by rewrite Howners.
Qed.

Lemma X15_without_metis_the_call_delegates_witness :
  (partition_range build_without_metis mixed_env mixed_range 2
     (fresh_process, replicated_mesh 0)).2 = Ok tt ∧
  new_calls fresh_process
    (partition_range build_without_metis mixed_env mixed_range 2
       (fresh_process, replicated_mesh 0))
    = gather_calls (replicated_mesh 0)
      ++ [call_SFCPartitioner_partition_range mixed_range 2] ∧
  new_out fresh_process
    (partition_range build_without_metis mixed_env mixed_range 2
       (fresh_process, replicated_mesh 0))
    = gather_out (replicated_mesh 0) ++ notice_out fresh_process ∧
  once_done
    (partition_range build_without_metis mixed_env mixed_range 2
       (fresh_process, replicated_mesh 0)).1.1 = true ∧
  elem_processor_id
    (partition_range build_without_metis mixed_env mixed_range 2
       (fresh_process, replicated_mesh 0)).1.2
    = SFCPartitioner_partition_range mixed_env mixed_range 2
        (elem_processor_id (replicated_mesh 0)).
Proof.
  apply (X15_without_metis_the_call_delegates build_without_metis mixed_env mixed_range 2
           fresh_process (replicated_mesh 0)).
  - done.
  - done.
  - intros _. reflexivity.
  - reflexivity.
Defined.

(** X16. A mesh that is replicated is never gathered: for every build,
    range and number of pieces the call logs no [allgather], does not print
    the gather warning, and leaves the mesh replicated, whether it returns or
    stops. *)
Theorem X16_replicated_mesh_is_never_gathered b env range k p m :
  is_serial m = true →
  let outcome := partition_range b env range k (p, m) in
  (call_allgather ∉ new_calls p outcome) ∧
  (WARNING_forced_to_gather ∉ new_out p outcome) ∧
  is_serial outcome.1.2 = true.
Proof.
  intros Hser. cbv zeta.
  assert (∀ m', is_serial m' = true →
            (call_allgather ∉ new_calls p ((p, m'), Ok tt)) ∧
            (WARNING_forced_to_gather ∉ new_out p ((p, m'), Ok tt))) as Hsame.
  { intros m' _. unfold new_calls, new_out. cbn [fst snd]. rewrite !drop_all.
    split; apply not_elem_of_nil. }
  destruct (partition_range_cases b env range k (p, m)) as [-> | [-> | [-> | ->]]].
  - destruct (Hsame m Hser). done.
  - rewrite single_partition_range_run. destruct (Hsame m Hser). done.
  - unfold new_calls, new_out. cbn [fst snd]. rewrite !drop_all.
    split; [apply not_elem_of_nil|]. split; [apply not_elem_of_nil|done].
  - assert (gathered (p, m) = (p, m)) as -> by (unfold gathered; cbn [snd]; by rewrite Hser).
    destruct (frame_after_gather k b env range (p, m)) as (nc & no & Hc & Ho & Hfc & Hfo & Hs).
    cbn [fst snd] in Hc, Ho, Hs.
    rewrite (new_calls_app p _ nc Hc), (new_out_app p _ no Ho).
    split; [|split; [|congruence]].
    + rewrite Forall_forall in Hfc. intros Hin. by destruct (Hfc _ Hin).
    + rewrite Forall_forall in Hfo. intros Hin. by apply (Hfo _ Hin).
Qed.

Lemma X16_replicated_mesh_is_never_gathered_witness :
  (call_allgather ∉ new_calls fresh_process
     (partition_range debug_build grid_env grid_range 9 (fresh_process, replicated_mesh 0))) ∧
  (WARNING_forced_to_gather ∉ new_out fresh_process
     (partition_range debug_build grid_env grid_range 9 (fresh_process, replicated_mesh 0))) ∧
  is_serial
    (partition_range debug_build grid_env grid_range 9
       (fresh_process, replicated_mesh 0)).1.2 = true.
Proof.
  apply (X16_replicated_mesh_is_never_gathered debug_build grid_env grid_range 9
           fresh_process (replicated_mesh 0)).
  reflexivity.
Defined.

Lemma metis_partition_range_stops_at_the_map b env range k p m h :
  GlobalIndex.build_global_index_map b (elem_id (view env) <$> range)
    (find_global_indices env range) = Halted h →
  metis_partition_range b env range k (p, m)
    = ((add_call p (call_find_global_indices range), m), Halted h).
Proof.
  intros Hgim. unfold metis_partition_range.
  unfold mbind at 1, prog_bind at 1, record. cbn [fst snd].
  unfold mbind at 1, prog_bind at 1, lift. by rewrite Hgim.
Qed.

Lemma metis_partition_range_stops_at_the_graph b env range k p m gim h :
  processor_id m = 0 →
  GlobalIndex.build_global_index_map b (elem_id (view env) <$> range)
    (find_global_indices env range) = Ok gim →
  Graph.build_graph b (view env) gim (Graph.build_interior_to_boundary_map b (view env) range)
    (weights env) range = Halted h →
  metis_partition_range b env range k (p, m)
    = ((add_call p (call_find_global_indices range), m), Halted h).
Proof.
  intros Hroot Hgim Hg. unfold metis_partition_range.
  unfold mbind at 1, prog_bind at 1, record. cbn [fst snd].
  unfold mbind at 1, prog_bind at 1, lift. rewrite Hgim.
  unfold mbind at 1, prog_bind at 1, get_mesh. cbn [fst snd].
  unfold mbind at 1, prog_bind at 1.
  rewrite (bool_decide_eq_true_2 _ Hroot).
  unfold mbind at 1, prog_bind at 1, lift. by rewrite Hg.
Qed.

(** X17. When the global index assigner stops, the call stops for the same
    reason right after [find_global_indices]: no engine call and no broadcast
    is logged, and no owner has been written. *)
Theorem X17_a_failed_index_map_stops_the_call b env range k p m h :
  range ≠ [] → k ≠ 1 → (NDEBUG b = false → 0 < k) →
  LIBMESH_HAVE_METIS b = true →
  GlobalIndex.build_global_index_map b (elem_id (view env) <$> range)
    (find_global_indices env range) = Halted h →
  let outcome := partition_range b env range k (p, m) in
  outcome.2 = Halted h ∧
  new_calls p outcome = gather_calls m ++ [call_find_global_indices range] ∧
  elem_processor_id outcome.1.2 = elem_processor_id m.
Proof.
  intros Hne Hk Hpos Hmetis Hgim. cbv zeta.
  rewrite partition_range_general by done. unfold after_gather. rewrite Hmetis.
  pose proof (gathered_calls p m) as Hcalls.
  destruct (gathered_mesh p m) as (_ & _ & Howners).
  destruct (gathered (p, m)) as [p' m']. cbn [fst snd] in Hcalls, Howners.
  rewrite (metis_partition_range_stops_at_the_map b env range k p' m' h Hgim).
  cbn [fst snd]. split; [done|]. split; [|done].
  apply new_calls_app. cbn [fst snd add_call calls]. by rewrite Hcalls, <- app_assoc.
Qed.

Lemma X17_a_failed_index_map_stops_the_call_witness :
  (partition_range debug_build grid_env [100; 100] 2 (fresh_process, replicated_mesh 0)).2
    = Halted (assertion_failed 186) ∧
  new_calls fresh_process
    (partition_range debug_build grid_env [100; 100] 2 (fresh_process, replicated_mesh 0))
    = gather_calls (replicated_mesh 0) ++ [call_find_global_indices [100; 100]] ∧
  elem_processor_id
    (partition_range debug_build grid_env [100; 100] 2
       (fresh_process, replicated_mesh 0)).1.2
    = elem_processor_id (replicated_mesh 0).
Proof.
  apply (X17_a_failed_index_map_stops_the_call debug_build grid_env [100; 100] 2
           fresh_process (replicated_mesh 0) (assertion_failed 186)).
  - done.
  - done.
  - intros _. reflexivity.
  - reflexivity.
  - reflexivity.
Defined.

(** X18. When the graph builder stops on the root, the call stops there for
    the same reason, before the engine is called and before the broadcast:
    the root logs [find_global_indices] only (after the gather, if any) and
    writes no owner. *)
Theorem X18_a_failed_graph_stops_the_root_before_the_broadcast b env range k p m gim h :
  range ≠ [] → k ≠ 1 → (NDEBUG b = false → 0 < k) →
  LIBMESH_HAVE_METIS b = true →
  processor_id m = 0 →
  GlobalIndex.build_global_index_map b (elem_id (view env) <$> range)
    (find_global_indices env range) = Ok gim →
  Graph.build_graph b (view env) gim (Graph.build_interior_to_boundary_map b (view env) range)
    (weights env) range = Halted h →
  let outcome := partition_range b env range k (p, m) in
  outcome.2 = Halted h ∧
  new_calls p outcome = gather_calls m ++ [call_find_global_indices range] ∧
  elem_processor_id outcome.1.2 = elem_processor_id m.
Proof.
  intros Hne Hk Hpos Hmetis Hroot Hgim Hg. cbv zeta.
  rewrite partition_range_general by done. unfold after_gather. rewrite Hmetis.
  pose proof (gathered_calls p m) as Hcalls.
  destruct (gathered_mesh p m) as (_ & Hrank & Howners).
  destruct (gathered (p, m)) as [p' m']. cbn [fst snd] in Hcalls, Hrank, Howners.
  rewrite (metis_partition_range_stops_at_the_graph b env range k p' m' gim h);
    [|congruence|done|done].
  cbn [fst snd]. split; [done|]. split; [|done].
  apply new_calls_app. cbn [fst snd add_call calls]. by rewrite Hcalls, <- app_assoc.
Qed.

Lemma X18_a_failed_graph_stops_the_root_before_the_broadcast_witness :
  (partition_range debug_build mixed_env [401] 2 (fresh_process, distributed_mesh 0)).2
    = Halted (assertion_failed 260) ∧
  new_calls fresh_process
    (partition_range debug_build mixed_env [401] 2 (fresh_process, distributed_mesh 0))
    = gather_calls (distributed_mesh 0) ++ [call_find_global_indices [401]] ∧
  elem_processor_id
    (partition_range debug_build mixed_env [401] 2 (fresh_process, distributed_mesh 0)).1.2
    = elem_processor_id (distributed_mesh 0).
Proof.
  apply (X18_a_failed_graph_stops_the_root_before_the_broadcast debug_build mixed_env [401] 2
           fresh_process (distributed_mesh 0) [(1, 1)] (assertion_failed 260)).
  - done.
  - done.
  - intros _. reflexivity.
  - reflexivity.
  - reflexivity.
  - reflexivity.
  - reflexivity.
Defined.

(** ** CSR graph builder: the offsets as a whole *)

(** X19. The offsets handed to the engine are well formed: they never
    decrease, the last one is the total of the row widths pass 1 counted, and
    the value array has that many slots (a single one when the total is 0). *)
Theorem X19_offsets_are_monotone_and_end_at_the_edge_count b view gim weights range :
  range_ok view gim range →
  let i2b := Graph.build_interior_to_boundary_map b view range in
  ∃ g vw,
    Graph.build_graph b view gim i2b weights range = Ok (g, vw) ∧
    (∀ i j x y, (i ≤ j)%nat → CSR.offsets g !! i = Some x → CSR.offsets g !! j = Some y →
       x ≤ y) ∧
    List.last (CSR.offsets g) 0 = N.of_nat (total_edge_count b view gim i2b range) ∧
    length (CSR.vals g) = Nat.max (N.to_nat (List.last (CSR.offsets g) 0)) 1.
Proof.
  intros Hok i2b.
  destruct (build_graph_offsets b view gim i2b weights range Hok)
    as (g & vw & Hg & Hoffs & Hsum & Hlen).
  exists g, vw. split; [done|].
  set (raw := widths_offsets b view gim i2b range (replicate (length range + 1) 0)) in *.
  assert (raw ≠ []) as Hne.
  { intros Heq. assert (length raw = 0%nat) as Hl by by rewrite Heq.
    unfold raw in Hl. rewrite length_widths_offsets, length_replicate in Hl. lia. }
  assert (List.last (CSR.offsets g) 0 = N.of_nat (total_edge_count b view gim i2b range))
    as Hlast.
  { rewrite Hoffs. unfold CSR.partial_sum.
    rewrite CSRFacts.last_partial_sum_from by done. lia. }
  split; [|split; [done|]].
  - intros i j x y Hij Hi Hj. rewrite Hoffs in Hi, Hj. unfold CSR.partial_sum in Hi, Hj.
    pose proof (lookup_lt_Some _ _ _ Hi) as Hli. pose proof (lookup_lt_Some _ _ _ Hj) as Hlj.
    rewrite CSRFacts.length_partial_sum_from in Hli, Hlj.
    rewrite CSRFacts.lookup_partial_sum_from in Hi, Hj by done.
    injection Hi as <-. injection Hj as <-.
    pose proof (sumN_take_mono raw (S i) (S j) ltac:(lia)). lia.
  - rewrite Hlast, Nat2N.id. done.
Qed.

Lemma X19_offsets_are_monotone_and_end_at_the_edge_count_witness :
  ∃ g vw,
    Graph.build_graph debug_build mixed_view mixed_index_map
      (Graph.build_interior_to_boundary_map debug_build mixed_view mixed_range)
      None mixed_range = Ok (g, vw) ∧
    (∀ i j x y, (i ≤ j)%nat → CSR.offsets g !! i = Some x → CSR.offsets g !! j = Some y →
       x ≤ y) ∧
    List.last (CSR.offsets g) 0
      = N.of_nat (total_edge_count debug_build mixed_view mixed_index_map
                    (Graph.build_interior_to_boundary_map debug_build mixed_view mixed_range)
                    mixed_range) ∧
    length (CSR.vals g) = Nat.max (N.to_nat (List.last (CSR.offsets g) 0)) 1.
Proof.
  apply (X19_offsets_are_monotone_and_end_at_the_edge_count debug_build mixed_view
           mixed_index_map None mixed_range).
  apply mixed_range_ok.
Defined.

(** ** Global index assigner: shared hints *)

(** X20. Where elements carry no unique id and two elements of the range
    share a hint, the renumbering of lines 158-167 makes the map a bijection
    from the identifiers of the range onto [0 .. n-1] whatever the values of
    the hints are: no bound on the hints is needed on this path. *)
Theorem X20_shared_hints_are_renumbered_densely b (ids global_index : list N) :
  LIBMESH_ENABLE_UNIQUE_ID b = false →
  NoDup ids → length global_index = length ids → ¬ NoDup global_index →
  ∃ m, GlobalIndex.build_global_index_map b ids global_index = Ok m ∧
       m.*1 ≡ₚ ids ∧ m.*2 ≡ₚ N.of_nat <$> seq 0 (length ids).
Proof.
  intros Hu Hnd Hlen Hdup.
  pose proof (assign_unfold b (zip ids global_index)) as Hun. unfold assign in Hun.
  rewrite fst_zip, snd_zip in Hun by lia. rewrite Hu in Hun.
  destruct (foldl push_inverse (∅, false) (zip ids global_index)).2 eqn:Hfound.
  - pose proof (bijection_renumbered ids global_index Hlen) as Hbij.
    eexists. split; [|exact Hbij].
    rewrite Hun. unfold checks.
    replace (length (zip ids global_index)) with (length ids)
      by (rewrite length_zip_with; lia).
    by apply bijection_checks_pass.
  - exfalso. apply Hdup. rewrite <- (snd_zip ids global_index) by lia.
    by apply collect_no_duplicate.
Qed.

Lemma X20_shared_hints_are_renumbered_densely_witness :
  ∃ m, GlobalIndex.build_global_index_map debug_build [10; 11; 12] [40; 40; 7] = Ok m ∧
       m.*1 ≡ₚ [10; 11; 12] ∧ m.*2 ≡ₚ N.of_nat <$> seq 0 (length [10; 11; 12]).
Proof.
  apply (X20_shared_hints_are_renumbered_densely debug_build [10; 11; 12] [40; 40; 7]).
  - reflexivity.
  - compute_done.
  - reflexivity.
  - intros Hnd. apply NoDup_cons in Hnd as [Hnotin _]. apply Hnotin. by left.
Defined.
